(** * Path search over small static graphs: maze BFS/DFS and transit Dijkstra

    Shallow embedding of the two C programs of the repository:
    - the maze solver (breadth-first and depth-first search over an
      unweighted adjacency-list graph, with its queue and its path printer;
      the repository holds its text twice, in two encodings);
    - the transit router ([projeto2.c]: Dijkstra over a weighted
      adjacency-list graph with named nodes, and its path printer).

    C [int] values are modelled as [Z]; where the programs do arithmetic on
    them that can leave the 32-bit range ([dist[u] + weight], and
    [r * num_cols + c]) the result is wrapped explicitly.  C arrays are
    lists indexed by [Z].  The path printers come twice: as what they
    compute ([Maze.print_path], [Transit.print_path]), and as they run, with
    the fixed buffer they store into and the division that can trap
    ([MazeRun], [TransitRun]). *)

From Stdlib Require Import ZArith List Bool Lia String Ascii.
From stdpp Require Import base list.

Local Open Scope Z_scope.

(** ** C integers and arrays *)

Definition INT_MAX : Z := 2147483647.

(** Two's-complement wrap-around of a 32-bit signed result. *)
Definition wrap_int (z : Z) : Z := (z + 2147483648) mod 4294967296 - 2147483648.

(** [a[i]] for an array held as a list.  An access outside the array is
    undefined in C; the model reads the default [d] there. *)
Definition rd {A} (d : A) (a : list A) (i : Z) : A :=
  if i <? 0 then d else default d (a !! Z.to_nat i).

(** [a[i] = x].  A store outside the array is undefined in C; the model
    leaves the array alone there. *)
Definition wr {A} (a : list A) (i : Z) (x : A) : list A :=
  if i <? 0 then a else <[Z.to_nat i := x]> a.

(** [for (int i = 0; i < n; i++) body], threading the state. *)
Definition for_upto {S} (n : Z) (body : Z → S → S) (s : S) : S :=
  fold_left (λ s i, body (Z.of_nat i) s) (seq 0 (Z.to_nat n)) s.

(** The loop that both [print_path] functions use to fill their buffer,

      while (current != -1 && current != start_node) {
          path[path_len++] = current;
          current = parent[current];
      }

    [path] is the filled part of the buffer.  [fuel] bounds the number of
    times the body runs; the result is [None] when that does not suffice.
    The C buffer has room for [MAX_NODES] entries and the store is not
    checked; the list here has no capacity, so this is the loop while the
    buffer has room.  [walk_buffer] below is the loop with the buffer, and
    [walk_buffer_walk] relates the two. *)
Fixpoint walk (fuel : nat) (parent : list Z) (start_node current : Z)
    (path : list Z) {struct fuel} : option (list Z) :=
  if (current =? -1) || (current =? start_node) then Some path
  else match fuel with
       | O => None
       | S f => walk f parent start_node (rd (-1) parent current) (path ++ [current])
       end.

(** * The maze solver *)
Module Maze.

Definition MAX_ROWS : Z := 10.
Definition MAX_COLS : Z := 10.
Definition MAX_NODES : Z := MAX_ROWS * MAX_COLS.

Record Cell := { row : Z; col : Z }.

(** The adjacency array; each linked list is the list of its [dest]s,
    head first. *)
Record Graph := { num_nodes : Z; adj_lists : list (list Z) }.

(** [r * num_cols + c] in [int] arithmetic. *)
Definition map_coord_to_index (r c num_cols : Z) : Z := wrap_int (r * num_cols + c).

(** [index / num_cols] and [index % num_cols] where the division is
    defined; [MazeRun.map_index_to_coord] below has the trap of a division
    by 0. *)
Definition map_index_to_coord (index num_cols : Z) : Cell :=
  {| row := Z.quot index num_cols; col := Z.rem index num_cols |}.

Definition is_valid (r c num_rows num_cols : Z) : bool :=
  (0 <=? r) && (r <? num_rows) && (0 <=? c) && (c <? num_cols).

(** *** Queue: front at the head of the list *)
Definition Queue := list Z.
Definition create_queue : Queue := [].
Definition enqueue (q : Queue) (data : Z) : Queue := q ++ [data].
Definition dequeue (q : Queue) : Z * Queue :=
  match q with
  | [] => (-1, [])
  | data :: rest => (data, rest)
  end.
Definition is_empty_queue (q : Queue) : bool :=
  match q with [] => true | _ => false end.

(** *** Graph construction *)
Definition create_graph (n : Z) : Graph :=
  {| num_nodes := n; adj_lists := replicate (Z.to_nat n) [] |}.

Definition adj (g : Graph) (u : Z) : list Z := rd [] (adj_lists g) u.

(** Each new list node is linked in at the head; the edge is entered in
    both directions. *)
Definition add_edge (g : Graph) (src dest : Z) : Graph :=
  let a1 := wr (adj_lists g) src (dest :: rd [] (adj_lists g) src) in
  let a2 := wr a1 dest (src :: rd [] a1 dest) in
  {| num_nodes := num_nodes g; adj_lists := a2 |}.

(** *** print_path *)

Inductive printed :=
| NoPathFound
| PathFound (cells : list Cell).

(** The buffer after [path[path_len++] = start_node], in the order the
    final loop prints it (last index first). *)
Definition path_nodes (fuel : nat) (parent : list Z) (start_node end_node : Z)
    : option (list Z) :=
  match walk fuel parent start_node end_node [] with
  | Some path => Some (rev (path ++ [start_node]))
  | None => None
  end.

Definition print_path (fuel : nat) (parent : list Z)
    (start_node end_node num_cols : Z) : option printed :=
  if end_node =? -1 then Some NoPathFound
  else match path_nodes fuel parent start_node end_node with
       | Some nodes => Some (PathFound (map (λ i, map_index_to_coord i num_cols) nodes))
       | None => None
       end.

(** *** bfs *)
Record bfs_state := { visited : list bool; parent : list Z; queue : Queue }.

(** Body of the inner [while (temp)] loop for one list node [v]. *)
Definition bfs_visit (u : Z) (st : bfs_state) (v : Z) : bfs_state :=
  if rd false (visited st) v then st
  else {| visited := wr (visited st) v true;
          parent := wr (parent st) v u;
          queue := enqueue (queue st) v |}.

Definition bfs_scan (g : Graph) (u : Z) (st : bfs_state) : bfs_state :=
  fold_left (bfs_visit u) (adj g u) st.

(** The outer [while (!is_empty_queue(q))] loop.  The result is
    [path_found_end_node] with the final arrays.  [fuel] bounds the number
    of nodes expanded. *)
Fixpoint bfs_loop (fuel : nat) (g : Graph) (end_node : Z) (st : bfs_state)
    {struct fuel} : option (Z * bfs_state) :=
  if is_empty_queue (queue st) then Some (-1, st)
  else
    let '(u, q) := dequeue (queue st) in
    let st := {| visited := visited st; parent := parent st; queue := q |} in
    if u =? end_node then Some (u, st)
    else match fuel with
         | O => None
         | S f => bfs_loop f g end_node (bfs_scan g u st)
         end.

Definition bfs_init (g : Graph) (start_node : Z) : bfs_state :=
  let n := Z.to_nat (num_nodes g) in
  {| visited := wr (replicate n false) start_node true;
     parent := replicate n (-1);
     queue := enqueue create_queue start_node |}.

(** [bfs] up to its printing: the node it found (or -1) and the arrays. *)
Definition bfs_search (g : Graph) (start_node end_node : Z) : option (Z * bfs_state) :=
  bfs_loop (Z.to_nat (num_nodes g)) g end_node (bfs_init g start_node).

Record bfs_result := { bfs_found : Z; bfs_parent : list Z; bfs_printed : printed }.

Definition bfs (g : Graph) (start_node end_node num_rows num_cols : Z)
    : option bfs_result :=
  match bfs_search g start_node end_node with
  | None => None
  | Some (found, st) =>
    if negb (found =? -1) then
      match print_path (Z.to_nat (num_nodes g)) (parent st) start_node found num_cols with
      | Some out => Some {| bfs_found := found; bfs_parent := parent st; bfs_printed := out |}
      | None => None
      end
    else Some {| bfs_found := found; bfs_parent := parent st; bfs_printed := NoPathFound |}
  end.

(** *** dfs *)
Record dfs_state := { dvisited : list bool; dparent : list Z }.

(** The [while (temp)] loop of [dfs_recursive] over the rest of the
    adjacency list, with the recursive call abstracted as [recur]. *)
Fixpoint dfs_neighbors (recur : Z → dfs_state → option (bool * dfs_state))
    (current_node : Z) (temp : list Z) (st : dfs_state)
    : option (bool * dfs_state) :=
  match temp with
  | [] => Some (false, st)
  | neighbor :: rest =>
    if rd false (dvisited st) neighbor then
      dfs_neighbors recur current_node rest st
    else
      match recur neighbor {| dvisited := dvisited st;
                              dparent := wr (dparent st) neighbor current_node |} with
      | None => None
      | Some (true, st') => Some (true, st')
      | Some (false, st') => dfs_neighbors recur current_node rest st'
      end
  end.

(** [fuel] bounds the recursion depth. *)
Fixpoint dfs_recursive (fuel : nat) (g : Graph) (current_node end_node : Z)
    (st : dfs_state) {struct fuel} : option (bool * dfs_state) :=
  match fuel with
  | O => None
  | S f =>
    let st := {| dvisited := wr (dvisited st) current_node true;
                 dparent := dparent st |} in
    if current_node =? end_node then Some (true, st)
    else dfs_neighbors (λ n s, dfs_recursive f g n end_node s)
                       current_node (adj g current_node) st
  end.

Definition dfs_init (g : Graph) : dfs_state :=
  let n := Z.to_nat (num_nodes g) in
  {| dvisited := replicate n false; dparent := replicate n (-1) |}.

Definition dfs_search (g : Graph) (start_node end_node : Z) : option (bool * dfs_state) :=
  dfs_recursive (Z.to_nat (num_nodes g)) g start_node end_node (dfs_init g).

Record dfs_result := { dfs_found : bool; dfs_parent : list Z; dfs_printed : printed }.

Definition dfs (g : Graph) (start_node end_node num_rows num_cols : Z)
    : option dfs_result :=
  match dfs_search g start_node end_node with
  | None => None
  | Some (true, st) =>
    match print_path (Z.to_nat (num_nodes g)) (dparent st) start_node end_node num_cols with
    | Some out => Some {| dfs_found := true; dfs_parent := dparent st; dfs_printed := out |}
    | None => None
    end
  | Some (false, st) =>
    Some {| dfs_found := false; dfs_parent := dparent st; dfs_printed := NoPathFound |}
  end.

End Maze.

(** * The transit router ([projeto2.c]) *)
Module Transit.

Definition MAX_NODES : Z := 20.
Definition INFINITY : Z := INT_MAX.

(** One list node of an adjacency list: ([dest], [weight]). *)
Definition AdjListNode : Type := Z * Z.

Record Graph := {
  num_nodes : Z;
  adj_lists : list (list AdjListNode);
  node_names : list (option string)
}.

(** What a call does to the process: it comes back with a value, or the
    program is terminated by [exit(EXIT_FAILURE)]. *)
Inductive outcome (A : Type) :=
| Returned (a : A)
| Exited.
Arguments Returned {A} a.
Arguments Exited {A}.

Definition create_graph (n : Z) : Graph :=
  {| num_nodes := n;
     adj_lists := replicate (Z.to_nat n) [];
     node_names := replicate (Z.to_nat n) None |}.

Definition adj (g : Graph) (u : Z) : list AdjListNode := rd [] (adj_lists g) u.

(** Directed: only the list of [src] gets a new head. *)
Definition add_edge (g : Graph) (src dest weight : Z) : Graph :=
  {| num_nodes := num_nodes g;
     adj_lists := wr (adj_lists g) src ((dest, weight) :: rd [] (adj_lists g) src);
     node_names := node_names g |}.

(** The line [set_node_name] writes to [stderr] (its accents left out). *)
Definition invalid_index_message : string := "Erro: Indice de no invalido."%string.

(** [set_node_name]; [malloc_ok] says whether the allocation of the copy
    succeeds.  The result pairs the graph with the lines written to
    [stderr]. *)
Definition set_node_name (malloc_ok : bool) (g : Graph) (node_index : Z)
    (name : string) : outcome (Graph * list string) :=
  if (node_index <? 0) || (node_index >=? num_nodes g) then
    Returned (g, [invalid_index_message])
  else if negb malloc_ok then Exited
  else Returned ({| num_nodes := num_nodes g;
                    adj_lists := adj_lists g;
                    node_names := wr (node_names g) node_index (Some name) |}, []).

(** *** dijkstra *)
Record state := { dist : list Z; visited : list bool; parent : list Z }.

Definition init (g : Graph) (start_node : Z) : state :=
  let n := Z.to_nat (num_nodes g) in
  {| dist := wr (replicate n INFINITY) start_node 0;
     visited := replicate n false;
     parent := replicate n (-1) |}.

(** One step of the minimum scan, on ([min_dist], [u]). *)
Definition scan_step (st : state) (v : Z) (acc : Z * Z) : Z * Z :=
  let '(min_dist, u) := acc in
  if negb (rd false (visited st) v) && (rd 0 (dist st) v <=? min_dist)
  then (rd 0 (dist st) v, v)
  else (min_dist, u).

Definition scan (g : Graph) (st : state) : Z * Z :=
  for_upto (num_nodes g) (scan_step st) (INFINITY, -1).

(** The node the scan settles on, or -1. *)
Definition select (g : Graph) (st : state) : Z := snd (scan g st).

(** Body of the [while (current)] loop for one list node. *)
Definition relax (u : Z) (st : state) (e : AdjListNode) : state :=
  let '(v, weight) := e in
  if negb (rd false (visited st) v)
     && negb (rd 0 (dist st) u =? INFINITY)
     && (wrap_int (rd 0 (dist st) u + weight) <? rd 0 (dist st) v)
  then {| dist := wr (dist st) v (wrap_int (rd 0 (dist st) u + weight));
          visited := visited st;
          parent := wr (parent st) v u |}
  else st.

Definition settle (g : Graph) (u : Z) (st : state) : state :=
  fold_left (relax u)
            (adj g u)
            {| dist := dist st; visited := wr (visited st) u true; parent := parent st |}.

(** The main loop with [iters] iterations left. *)
Fixpoint main_loop (iters : nat) (g : Graph) (st : state) : state :=
  match iters with
  | O => st
  | S k =>
    let u := select g st in
    if u =? -1 then st
    else main_loop k g (settle g u st)
  end.

Definition dijkstra_state (g : Graph) (start_node : Z) : state :=
  main_loop (Z.to_nat (num_nodes g - 1)) g (init g start_node).

(** The two output arrays, [dist] and [parent]. *)
Definition dijkstra (g : Graph) (start_node : Z) : list Z * list Z :=
  let st := dijkstra_state g start_node in (dist st, parent st).

(** *** print_path *)

(** The three things [print_path] can write. *)
Inductive printed :=
| AlreadyThere (node : Z)
| NoPathAvailable (from to : Z)
| BestRoute (nodes : list Z).

(** The stops a printout names, in order: the one stop of "Voce ja esta
    em", the stops of "Melhor trajeto"; none for "Nao ha caminho
    disponivel". *)
Definition named_route (out : printed) : option (list Z) :=
  match out with
  | AlreadyThere node => Some [node]
  | NoPathAvailable _ _ => None
  | BestRoute nodes => Some nodes
  end.

Definition print_path (fuel : nat) (parent : list Z) (start_node end_node : Z)
    : option printed :=
  if end_node =? start_node then Some (AlreadyThere start_node)
  else if (rd (-1) parent end_node =? -1) && negb (end_node =? start_node)
  then Some (NoPathAvailable start_node end_node)
  else match walk fuel parent start_node end_node [] with
       | Some path => Some (BestRoute (rev (path ++ [start_node])))
       | None => None
       end.

End Transit.

(** * The printers as they run *)

(** [walk], [Maze.print_path] and [Transit.print_path] give what the
    printers compute while the buffer [int path[MAX_NODES]] has room and the
    division by [num_cols] is defined.  The programs check neither.  What
    follows is the printers as they run: a store past the end of [path] and
    a division that traps end the run. *)
Inductive ran (A : Type) :=
| Finished (a : A)
| PastBuffer
| DivisionTrap.
Arguments Finished {A} a.
Arguments PastBuffer {A}.
Arguments DivisionTrap {A}.

Definition ran_map {A B} (f : A → B) (r : ran A) : ran B :=
  match r with
  | Finished a => Finished (f a)
  | PastBuffer => PastBuffer
  | DivisionTrap => DivisionTrap
  end.

(** The loop of [walk] on a buffer of [capacity] entries: the store
    [path[path_len++] = current] with [path_len] at [capacity] is outside
    the buffer. *)
Fixpoint walk_buffer (capacity fuel : nat) (parent : list Z) (start_node current : Z)
    (path : list Z) {struct fuel} : option (ran (list Z)) :=
  if (current =? -1) || (current =? start_node) then Some (Finished path)
  else if (capacity <=? length path)%nat then Some PastBuffer
  else match fuel with
       | O => None
       | S f => walk_buffer capacity f parent start_node (rd (-1) parent current)
                            (path ++ [current])
       end.

(** The loop and then [path[path_len++] = start_node], which is a store
    like the others; the result is the buffer in the order the final loop
    goes through it (last index first). *)
Definition fill_path (capacity fuel : nat) (parent : list Z) (start_node end_node : Z)
    : option (ran (list Z)) :=
  match walk_buffer capacity fuel parent start_node end_node [] with
  | Some (Finished path) =>
    if (capacity <=? length path)%nat then Some PastBuffer
    else Some (Finished (rev (path ++ [start_node])))
  | other => other
  end.

Module MazeRun.

(** [index / num_cols] and [index % num_cols] in [int] arithmetic: the
    division traps when the divisor is 0 and when [INT_MIN] is divided
    by -1. *)
Definition map_index_to_coord (index num_cols : Z) : ran Maze.Cell :=
  if (num_cols =? 0) || ((index =? - INT_MAX - 1) && (num_cols =? -1)) then DivisionTrap
  else Finished (Maze.map_index_to_coord index num_cols).

(** The final loop of [print_path]: one cell after the other. *)
Fixpoint print_cells (nodes : list Z) (num_cols : Z) : ran (list Maze.Cell) :=
  match nodes with
  | [] => Finished []
  | i :: rest =>
    match map_index_to_coord i num_cols with
    | Finished cell => ran_map (cons cell) (print_cells rest num_cols)
    | PastBuffer => PastBuffer
    | DivisionTrap => DivisionTrap
    end
  end.

Definition path_nodes (fuel : nat) (parent : list Z) (start_node end_node : Z)
    : option (ran (list Z)) :=
  fill_path (Z.to_nat Maze.MAX_NODES) fuel parent start_node end_node.

Definition print_path (fuel : nat) (parent : list Z)
    (start_node end_node num_cols : Z) : option (ran Maze.printed) :=
  if end_node =? -1 then Some (Finished Maze.NoPathFound)
  else match path_nodes fuel parent start_node end_node with
       | Some (Finished nodes) =>
         Some (ran_map Maze.PathFound (print_cells nodes num_cols))
       | Some PastBuffer => Some PastBuffer
       | Some DivisionTrap => Some DivisionTrap
       | None => None
       end.

Definition bfs (g : Maze.Graph) (start_node end_node num_rows num_cols : Z)
    : option (ran Maze.bfs_result) :=
  match Maze.bfs_search g start_node end_node with
  | None => None
  | Some (found, st) =>
    if negb (found =? -1) then
      match print_path (Z.to_nat (Maze.num_nodes g)) (Maze.parent st)
                       start_node found num_cols with
      | Some out =>
        Some (ran_map (λ out, {| Maze.bfs_found := found;
                                 Maze.bfs_parent := Maze.parent st;
                                 Maze.bfs_printed := out |}) out)
      | None => None
      end
    else Some (Finished {| Maze.bfs_found := found; Maze.bfs_parent := Maze.parent st;
                           Maze.bfs_printed := Maze.NoPathFound |})
  end.

Definition dfs (g : Maze.Graph) (start_node end_node num_rows num_cols : Z)
    : option (ran Maze.dfs_result) :=
  match Maze.dfs_search g start_node end_node with
  | None => None
  | Some (true, st) =>
    match print_path (Z.to_nat (Maze.num_nodes g)) (Maze.dparent st)
                     start_node end_node num_cols with
    | Some out =>
      Some (ran_map (λ out, {| Maze.dfs_found := true;
                               Maze.dfs_parent := Maze.dparent st;
                               Maze.dfs_printed := out |}) out)
    | None => None
    end
  | Some (false, st) =>
    Some (Finished {| Maze.dfs_found := false; Maze.dfs_parent := Maze.dparent st;
                      Maze.dfs_printed := Maze.NoPathFound |})
  end.

End MazeRun.

Module TransitRun.

Definition print_path (fuel : nat) (parent : list Z) (start_node end_node : Z)
    : option (ran Transit.printed) :=
  if end_node =? start_node then Some (Finished (Transit.AlreadyThere start_node))
  else if (rd (-1) parent end_node =? -1) && negb (end_node =? start_node)
  then Some (Finished (Transit.NoPathAvailable start_node end_node))
  else match fill_path (Z.to_nat Transit.MAX_NODES) fuel parent start_node end_node with
       | Some nodes => Some (ran_map Transit.BestRoute nodes)
       | None => None
       end.

End TransitRun.

(** A maze of [n] cells in a row and a transit line of [n] stops, each a
    minute from the next. *)
Definition line_maze (n : nat) : Maze.Graph :=
  fold_left (λ g i, Maze.add_edge g (Z.of_nat i) (Z.of_nat i + 1))
            (seq 0 (n - 1)) (Maze.create_graph (Z.of_nat n)).

Definition line_transit (n : nat) : Transit.Graph :=
  fold_left (λ g i, Transit.add_edge g (Z.of_nat i) (Z.of_nat i + 1) 1)
            (seq 0 (n - 1)) (Transit.create_graph (Z.of_nat n)).

(** ** The programs on small inputs *)

Example maze_line :
  let g := Maze.add_edge (Maze.add_edge (Maze.create_graph 3) 0 1) 1 2 in
  Maze.adj_lists g = [[1]; [2; 0]; [1]]
  ∧ (Maze.bfs_parent <$> Maze.bfs g 0 2 1 3) = Some [-1; 0; 1]
  ∧ (Maze.dfs_parent <$> Maze.dfs g 0 2 1 3) = Some [-1; 0; 1]
  ∧ Maze.path_nodes 3 [-1; 0; 1] 0 2 = Some [0; 1; 2].
Proof. repeat split; reflexivity. Qed.

Example transit_triangle :
  let g := Transit.add_edge (Transit.add_edge (Transit.add_edge
             (Transit.create_graph 3) 0 1 10) 1 2 5) 0 2 20 in
  Transit.dijkstra g 0 = ([0; 10; 15], [-1; 0; 1])
  ∧ Transit.print_path 3 [-1; 0; 1] 0 2 = Some (Transit.BestRoute [0; 1; 2]).
Proof. split; reflexivity. Qed.


(** * Properties *)

(** ** Arrays *)
Section arrays.
Context {A : Type}.
Implicit Types (a : list A) (i j : Z) (x d : A).

Definition in_range a i : Prop := 0 ≤ i < Z.of_nat (length a).

Lemma length_wr a i x : length (wr a i x) = length a.
Proof. unfold wr. destruct (i <? 0); [done | apply length_insert]. Qed.

Lemma rd_wr_eq d a i x : in_range a i → rd d (wr a i x) i = x.
Proof.
  unfold in_range, rd, wr. intros Hi.
  destruct (Z.ltb_spec i 0); [lia |].
  rewrite list_lookup_insert_eq; [done | lia].
Qed.

Lemma rd_wr_ne d a i j x : i ≠ j → rd d (wr a i x) j = rd d a j.
Proof.
  unfold rd, wr. intros Hne.
  destruct (Z.ltb_spec j 0); [done |].
  destruct (Z.ltb_spec i 0); [done |].
  rewrite list_lookup_insert_ne; [done | lia].
Qed.

Lemma rd_wr d a i j x :
  in_range a i → rd d (wr a i x) j = if decide (j = i) then x else rd d a j.
Proof.
  intros Hi. case_decide as Hj.
  - subst j. by apply rd_wr_eq.
  - apply rd_wr_ne. congruence.
Qed.

Lemma rd_replicate d n x i : 0 ≤ i < Z.of_nat n → rd d (replicate n x) i = x.
Proof.
  unfold rd. intros Hi. destruct (Z.ltb_spec i 0); [lia |].
  rewrite lookup_replicate_2; [done | lia].
Qed.

Lemma rd_out d a i : ¬ in_range a i → rd d a i = d.
Proof.
  unfold rd, in_range. intros Hi. destruct (Z.ltb_spec i 0); [done |].
  rewrite lookup_ge_None_2; [done | lia].
Qed.

Lemma rd_replicate_default d n i : rd d (replicate n d) i = d.
Proof.
  destruct (decide (0 ≤ i < Z.of_nat n)).
  - by apply rd_replicate.
  - apply rd_out. unfold in_range. by rewrite length_replicate.
Qed.

End arrays.

Lemma for_upto_succ {S} (n : Z) (body : Z → S → S) (s : S) :
  0 ≤ n → for_upto (n + 1) body s = body n (for_upto n body s).
Proof.
  intros Hn. unfold for_upto.
  replace (Z.to_nat (n + 1)) with (Z.to_nat n + 1)%nat by lia.
  rewrite seq_app, fold_left_app. simpl. f_equal. lia.
Qed.

Lemma for_upto_zero {S} (body : Z → S → S) (s : S) : for_upto 0 body s = s.
Proof. reflexivity. Qed.

(** ** Naming a node *)

(** C9. [set_node_name] with an index outside [0, num_nodes) writes the
    error line, returns, and hands back the graph as it was; with an index
    inside (and the copy allocated) it returns a graph whose node count and
    edge lists are the old ones, whose name at that index is the new text
    whatever was there before, and whose other names are untouched. *)
Theorem set_node_name_checked (malloc_ok : bool) (g : Transit.Graph)
    (node_index : Z) (name : string) :
  (¬ (0 ≤ node_index < Transit.num_nodes g) →
     Transit.set_node_name malloc_ok g node_index name
     = Transit.Returned (g, [Transit.invalid_index_message]))
  ∧ (0 ≤ node_index < Transit.num_nodes g →
     malloc_ok = true →
     in_range (Transit.node_names g) node_index →
     ∃ g', Transit.set_node_name malloc_ok g node_index name = Transit.Returned (g', [])
         ∧ Transit.num_nodes g' = Transit.num_nodes g
         ∧ Transit.adj_lists g' = Transit.adj_lists g
         ∧ rd None (Transit.node_names g') node_index = Some name
         ∧ ∀ j, j ≠ node_index →
             rd None (Transit.node_names g') j = rd None (Transit.node_names g) j).
Proof.
  unfold Transit.set_node_name. split.
  - intros Hout.
    destruct (Z.ltb_spec node_index 0), (Z.geb_spec node_index (Transit.num_nodes g));
      simpl; try done; lia.
  - intros Hin -> Hlen.
    destruct (Z.ltb_spec node_index 0), (Z.geb_spec node_index (Transit.num_nodes g));
      simpl; try lia.
    eexists. split; [done |]. simpl. repeat split.
    + by apply rd_wr_eq.
    + intros j Hj. apply rd_wr_ne. congruence.
Qed.

Example set_node_name_runs :
  let g := Transit.create_graph 2 in
  Transit.set_node_name true g 2 "Centro"%string = Transit.Returned (g, [Transit.invalid_index_message])
  ∧ Transit.set_node_name true g (-1) "Centro"%string = Transit.Returned (g, [Transit.invalid_index_message])
  ∧ (∃ g1 g2,
       Transit.set_node_name true g 1 "Centro"%string = Transit.Returned (g1, [])
       ∧ Transit.set_node_name true g1 1 "Praia"%string = Transit.Returned (g2, [])
       ∧ Transit.node_names g2 = [None; Some "Praia"%string]).
Proof. repeat split. do 2 eexists. repeat split. Qed.

(** ** Dijkstra: the minimum scan *)
Section selection.
Import Transit.
Variable g : Graph.
Variable st : state.

Definition unsettled (v : Z) : Prop :=
  0 ≤ v < num_nodes g ∧ rd false (visited st) v = false.

(** What the scan holds after looking at the nodes below [k]. *)
Definition scanned (k : Z) (acc : Z * Z) : Prop :=
  let '(min_dist, u) := acc in
  min_dist ≤ INFINITY
  ∧ ((u = -1 ∧ min_dist = INFINITY ∧ ∀ v, 0 ≤ v < k → rd false (visited st) v = true)
     ∨ (0 ≤ u < k ∧ rd false (visited st) u = false ∧ min_dist = rd 0 (dist st) u
        ∧ ∀ v, 0 ≤ v < k → rd false (visited st) v = false →
            rd 0 (dist st) u < rd 0 (dist st) v
            ∨ (rd 0 (dist st) u = rd 0 (dist st) v ∧ v ≤ u))).

(** Every [int] is at most [INT_MAX]. *)
Hypothesis dist_int : ∀ v, 0 ≤ v < num_nodes g → rd 0 (dist st) v ≤ INFINITY.

Lemma scan_step_scanned k acc :
  0 ≤ k < num_nodes g → scanned k acc → scanned (k + 1) (scan_step st k acc).
Proof.
  intros Hk. destruct acc as [m u]. unfold scanned, scan_step.
  intros [Hm Hu]. specialize (dist_int k Hk).
  destruct (rd false (visited st) k) eqn:Hvis; simpl.
  - split; [done |]. destruct Hu as [(-> & -> & Hall) | (Hu & Hvu & -> & Hall)].
    + left. do 2 (split; [done |]). intros v Hv.
      destruct (decide (v = k)) as [-> | ?]; [done | apply Hall; lia].
    + right. repeat split; try done; try lia. intros v Hv Hvv.
      destruct (decide (v = k)) as [-> | ?]; [congruence | apply Hall; [lia | done]].
  - destruct (Z.leb_spec (rd 0 (dist st) k) m) as [Hle | Hgt].
    + split; [done |]. right. repeat split; try done; try lia.
      intros v Hv Hvv. destruct (decide (v = k)) as [-> | ?]; [right; lia |].
      destruct Hu as [(-> & -> & Hall) | (Hu & Hvu & -> & Hall)].
      * rewrite Hall in Hvv by lia. done.
      * destruct (Hall v) as [? | [? ?]]; [lia | done | |]; lia.
    + split; [done |]. destruct Hu as [(-> & -> & Hall) | (Hu & Hvu & -> & Hall)]; [lia |].
      right. repeat split; try done; try lia. intros v Hv Hvv.
      destruct (decide (v = k)) as [-> | ?]; [left; lia | apply Hall; [lia | done]].
Qed.

Lemma scan_upto_scanned k :
  0 ≤ k ≤ num_nodes g → scanned k (for_upto k (scan_step st) (INFINITY, -1)).
Proof.
  intros Hk. assert (0 ≤ k) as Hk0 by lia. revert Hk.
  pattern k. apply natlike_ind; [| | done].
  - intros _. rewrite for_upto_zero. split; [done |]. left. do 2 (split; [done |]). intros; lia.
  - intros x Hx IH Hk. unfold Z.succ in *. rewrite for_upto_succ by done.
    apply scan_step_scanned; [lia | apply IH; lia].
Qed.

Lemma scan_scanned : 0 ≤ num_nodes g → scanned (num_nodes g) (scan g st).
Proof. intros. apply scan_upto_scanned. lia. Qed.

Lemma select_unsettled v :
  unsettled v →
  unsettled (select g st)
  ∧ (rd 0 (dist st) (select g st) < rd 0 (dist st) v
     ∨ (rd 0 (dist st) (select g st) = rd 0 (dist st) v ∧ v ≤ select g st)).
Proof.
  intros [Hv Hvis]. assert (scanned (num_nodes g) (scan g st)) as Hs
    by (apply scan_scanned; lia).
  unfold select.
  destruct (scan g st) as [m u]. simpl in *.
  destruct Hs as [_ [(_ & _ & Hall) | (Hu & Hvu & _ & Hall)]].
  - rewrite Hall in Hvis by done. done.
  - split; [done |]. by apply Hall.
Qed.

End selection.

(** The tie-break as the specification words it: the node chosen has the
    minimum distance among the unsettled nodes and, among those at that
    distance, the lowest index. *)
Definition selects_first_minimum (g : Transit.Graph) (st : Transit.state) : Prop :=
  ∀ v, unsettled g st v →
    rd 0 (Transit.dist st) (Transit.select g st) < rd 0 (Transit.dist st) v
    ∨ (rd 0 (Transit.dist st) (Transit.select g st) = rd 0 (Transit.dist st) v
       ∧ Transit.select g st ≤ v).

(** Two stops at the same distance from stop 0. *)
Definition fork : Transit.Graph :=
  Transit.add_edge (Transit.add_edge (Transit.create_graph 3) 0 1 5) 0 2 5.

(** The state of [dijkstra fork 0] after its first iteration. *)
Definition fork_state : Transit.state := Transit.main_loop 1 fork (Transit.init fork 0).

Lemma fork_state_dist_int v :
  0 ≤ v < Transit.num_nodes fork → rd 0 (Transit.dist fork_state) v ≤ Transit.INFINITY.
Proof.
  intros Hv. assert (v = 0 ∨ v = 1 ∨ v = 2) as [-> | [-> | ->]] by (simpl in Hv; lia);
    by vm_compute.
Qed.

(** C5 (as claimed, refuted).  After the first iteration of [dijkstra fork 0]
    stops 1 and 2 are both unsettled at distance 5; the scan settles on
    stop 2, not on the lower index 1. *)
Lemma select_not_first_minimum : ¬ selects_first_minimum fork fork_state.
Proof.
  intros H. destruct (H 1) as [Hlt | [_ Hle]].
  - split; [simpl; lia | reflexivity].
  - vm_compute in Hlt. done.
  - vm_compute in Hle. done.
Qed.

(** C5 (amended).  Whenever some node is unsettled, the node the scan
    chooses is an unsettled node of minimum known distance, and among the
    unsettled nodes tied at that distance it is the one with the highest
    index: the scan compares with [<=], so a later tie replaces an earlier
    one. *)
Theorem select_last_minimum (g : Transit.Graph) (st : Transit.state) (v : Z) :
  (∀ w, 0 ≤ w < Transit.num_nodes g → rd 0 (Transit.dist st) w ≤ Transit.INFINITY) →
  unsettled g st v →
  unsettled g st (Transit.select g st)
  ∧ (rd 0 (Transit.dist st) (Transit.select g st) < rd 0 (Transit.dist st) v
     ∨ (rd 0 (Transit.dist st) (Transit.select g st) = rd 0 (Transit.dist st) v
        ∧ v ≤ Transit.select g st)).
Proof. intros Hint Hv. by apply select_unsettled. Qed.

Lemma select_last_minimum_witness :
  unsettled fork fork_state (Transit.select fork fork_state)
  ∧ (rd 0 (Transit.dist fork_state) (Transit.select fork fork_state)
       < rd 0 (Transit.dist fork_state) 1
     ∨ (rd 0 (Transit.dist fork_state) (Transit.select fork fork_state)
          = rd 0 (Transit.dist fork_state) 1
        ∧ 1 ≤ Transit.select fork fork_state)).
Proof.
  apply (select_last_minimum fork fork_state 1).
  - exact fork_state_dist_int.
  - split; [simpl; lia | reflexivity].
Defined.

(** Three stops and no connection at all. *)
Definition islands : Transit.Graph := Transit.create_graph 3.

(** The connections that [main] enters, in its order (the names left out). *)
Definition city : Transit.Graph :=
  fold_left (λ g '(src, dest, weight), Transit.add_edge g src dest weight)
    [ (0, 1, 10); (0, 2, 15); (1, 0, 12); (1, 3, 20); (2, 4, 8);
      (3, 5, 25); (4, 1, 7); (4, 6, 18); (5, 9, 30); (6, 9, 22);
      (7, 0, 5); (8, 0, 8); (9, 5, 28); (9, 6, 20); (3, 8, 10) ]
    (Transit.create_graph 10).

(** C6 (the code departs from it).  In [dijkstra islands 0], once stop 0 is
    settled every unsettled stop is at distance [INFINITY]; the scan still
    returns stop 2 rather than -1, the [break] is not taken, and the run ends
    with stop 2 settled as well.  On the network of [main], from stop 9 only
    stops 5 and 6 can be reached; after the third iteration nothing reachable
    is left unsettled, and the loop still goes on to settle six more stops. *)
Theorem dijkstra_settles_unreachable :
  let st1 := Transit.main_loop 1 islands (Transit.init islands 0) in
  let st3 := Transit.main_loop 3 city (Transit.init city 9) in
  (Transit.visited st1 = [true; false; false]
   ∧ Transit.dist st1 = [0; Transit.INFINITY; Transit.INFINITY]
   ∧ Transit.select islands st1 = 2
   ∧ Transit.visited (Transit.dijkstra_state islands 0) = [true; false; true])
  ∧ (Transit.visited st3
     = [false; false; false; false; false; true; true; false; false; true]
     ∧ Transit.dist st3
       = [Transit.INFINITY; Transit.INFINITY; Transit.INFINITY; Transit.INFINITY;
          Transit.INFINITY; 28; 20; Transit.INFINITY; Transit.INFINITY; 0]
     ∧ Transit.select city st3 = 8
     ∧ Transit.visited (Transit.dijkstra_state city 9)
       = [false; true; true; true; true; true; true; true; true; true]).
Proof. repeat split; reflexivity. Qed.

(** ** Walking the predecessor links *)

(** [chain parent s v l]: following [parent] from [v] reaches [s] without
    meeting -1, and [l] lists the nodes met, from [s] to [v]. *)
Inductive chain (parent : list Z) (s : Z) : Z → list Z → Prop :=
| chain_here : chain parent s s [s]
| chain_step v l :
    v ≠ s → v ≠ -1 → chain parent s (rd (-1) parent v) l → chain parent s v (l ++ [v]).

Lemma chain_head parent s v l : chain parent s v l → ∃ l', l = s :: l'.
Proof.
  induction 1 as [| v l _ _ _ [l' ->]]; [by eexists |]. by exists (l' ++ [v]).
Qed.

Lemma walk_chain parent s v l :
  chain parent s v l →
  ∀ fuel path, (length l ≤ S fuel)%nat →
    walk fuel parent s v path = Some (path ++ rev (tail l)).
Proof.
  induction 1 as [| v l Hs Hm Hch IH]; intros fuel path Hfuel.
  - destruct fuel; simpl; rewrite Z.eqb_refl, orb_true_r, app_nil_r; done.
  - destruct (chain_head _ _ _ _ Hch) as [l' ->].
    rewrite length_app in Hfuel. simpl in Hfuel.
    destruct fuel as [| fuel]; [lia |]. simpl walk.
    destruct (Z.eqb_spec v (-1)); [done |]. destruct (Z.eqb_spec v s); [done |].
    simpl orb. cbv iota. rewrite IH by (simpl; lia). simpl.
    by rewrite rev_app_distr, <- app_assoc.
Qed.

Lemma walk_self fuel parent s path : walk fuel parent s s path = Some path.
Proof. destruct fuel; simpl; by rewrite Z.eqb_refl, orb_true_r. Qed.

Lemma rev_walk_chain parent s v l fuel :
  chain parent s v l → (length l ≤ S fuel)%nat →
  (λ path, rev (path ++ [s])) <$> walk fuel parent s v [] = Some l.
Proof.
  intros Hch Hfuel. rewrite (walk_chain _ _ _ _ Hch) by done. simpl.
  destruct (chain_head _ _ _ _ Hch) as [l' ->]. simpl.
  by rewrite rev_app_distr, rev_involutive.
Qed.

(** *** The buffered loop and the loop *)

Lemma walk_grows fuel parent s v path path' :
  walk fuel parent s v path = Some path' → (length path ≤ length path')%nat.
Proof.
  revert v path. induction fuel as [| fuel IH]; intros v path; simpl;
    destruct ((v =? -1) || (v =? s)); try done; try (by intros [= ->]).
  intros Hw. apply IH in Hw. rewrite length_app in Hw. simpl in Hw. lia.
Qed.

(** While the buffer has room the buffered loop is the loop. *)
Lemma walk_buffer_walk capacity fuel parent s v path path' :
  walk fuel parent s v path = Some path' → (length path' ≤ capacity)%nat →
  walk_buffer capacity fuel parent s v path = Some (Finished path').
Proof.
  revert v path. induction fuel as [| fuel IH]; intros v path; simpl;
    destruct ((v =? -1) || (v =? s)); try done; try (by intros [= ->]).
  intros Hw Hcap. pose proof (walk_grows _ _ _ _ _ _ Hw) as Hlen.
  rewrite length_app in Hlen. simpl in Hlen.
  destruct (Nat.leb_spec capacity (length path)); [lia |]. by apply IH.
Qed.

Lemma fill_path_walk capacity fuel parent s v path :
  walk fuel parent s v [] = Some path → (S (length path) ≤ capacity)%nat →
  fill_path capacity fuel parent s v = Some (Finished (rev (path ++ [s]))).
Proof.
  intros Hw Hcap. unfold fill_path. rewrite (walk_buffer_walk _ _ _ _ _ _ _ Hw) by lia.
  by destruct (Nat.leb_spec capacity (length path)); [lia |].
Qed.

Lemma fill_path_chain capacity fuel parent s v l :
  chain parent s v l → (length l ≤ S fuel)%nat → (length l ≤ capacity)%nat →
  fill_path capacity fuel parent s v = Some (Finished l).
Proof.
  intros Hch Hfuel Hcap. pose proof (rev_walk_chain _ _ _ _ fuel Hch Hfuel) as Hw.
  destruct (walk fuel parent s v []) as [path |] eqn:Hwalk; [| done].
  simpl in Hw. injection Hw as <-. apply fill_path_walk; [done |].
  rewrite length_rev, length_app in Hcap. simpl in Hcap. lia.
Qed.

(** The division is defined for every index that is not negative once
    [num_cols] is not 0. *)
Lemma print_cells_defined nodes num_cols :
  num_cols ≠ 0 → Forall (λ i, 0 ≤ i) nodes →
  MazeRun.print_cells nodes num_cols
  = Finished (map (λ i, Maze.map_index_to_coord i num_cols) nodes).
Proof.
  intros Hc. induction 1 as [| i nodes Hi _ IH]; [done |]. simpl.
  unfold MazeRun.map_index_to_coord. destruct (Z.eqb_spec num_cols 0); [done |].
  destruct (Z.eqb_spec i (- INT_MAX - 1)); [unfold INT_MAX in *; lia |].
  simpl. by rewrite IH.
Qed.

(** A line of [n] nodes walked from node 0: [parent[0]] is -1 and
    [parent[i]] is [i - 1]. *)
Definition line_parent (n : nat) : list Z := (λ i, Z.of_nat i - 1) <$> seq 0 n.

(** C3 (as claimed, refuted).  With [parent[1]] still -1 and source 0, the
    maze [print_path] does not report that there is no path: it prints the
    two cells of nodes 0 and 1.  And where the links from the target reach
    the source through more nodes than the buffer [path] holds (a line of
    120 nodes against 100 in the maze solver, one of 25 against 20 in the
    transit router), the loop stores past its end instead of returning the
    nodes. *)
Lemma maze_print_path_unchecked :
  rd (-1) [-1; -1] 1 = -1
  ∧ Maze.print_path 2 [-1; -1] 0 1 2
    = Some (Maze.PathFound [ {| Maze.row := 0; Maze.col := 0 |};
                             {| Maze.row := 0; Maze.col := 1 |} ])
  ∧ Maze.print_path 2 [-1; -1] 0 1 2 ≠ Some Maze.NoPathFound
  ∧ MazeRun.print_path 2 [-1; -1] 0 1 2
    = Some (Finished (Maze.PathFound [ {| Maze.row := 0; Maze.col := 0 |};
                                       {| Maze.row := 0; Maze.col := 1 |} ]))
  ∧ Maze.path_nodes 120 (line_parent 120) 0 119 = Some (Z.of_nat <$> seq 0 120)
  ∧ MazeRun.path_nodes 120 (line_parent 120) 0 119 = Some PastBuffer
  ∧ Transit.print_path 25 (line_parent 25) 0 24
    = Some (Transit.BestRoute (Z.of_nat <$> seq 0 25))
  ∧ TransitRun.print_path 25 (line_parent 25) 0 24 = Some PastBuffer.
Proof. split_and!; by vm_compute. Qed.

(** C3 (amended).  Both printers return the single node [source] when the
    target is the source.  The transit printer reports that no path is
    available whenever [parent[target]] (an entry of the array) is -1 and
    the target is not the source; the maze printer reports it when it is
    handed -1 as the target and never otherwise.  Otherwise, when following
    the predecessor links from the target reaches the source through no
    more nodes than the buffer holds ([MAX_NODES]: 100 in the maze solver,
    20 in the transit router), both return the nodes on the way in forward
    order, source first. *)
Theorem print_path_reconstructs (parent : list Z) (source target : Z) (fuel : nat) :
  (MazeRun.path_nodes fuel parent source source = Some (Finished [source])
   ∧ TransitRun.print_path fuel parent source source
     = Some (Finished (Transit.AlreadyThere source))
   ∧ Transit.named_route (Transit.AlreadyThere source) = Some [source])
  ∧ (∀ num_cols,
       MazeRun.print_path fuel parent source (-1) num_cols
       = Some (Finished Maze.NoPathFound))
  ∧ (∀ num_cols, target ≠ -1 →
       MazeRun.print_path fuel parent source target num_cols
       ≠ Some (Finished Maze.NoPathFound))
  ∧ (in_range parent target → rd (-1) parent target = -1 → target ≠ source →
       TransitRun.print_path fuel parent source target
       = Some (Finished (Transit.NoPathAvailable source target))
       ∧ Transit.named_route (Transit.NoPathAvailable source target) = None)
  ∧ (∀ l, chain parent source target l → target ≠ source → source ≠ -1 →
       (length l ≤ S fuel)%nat →
       ((length l ≤ Z.to_nat Maze.MAX_NODES)%nat →
        MazeRun.path_nodes fuel parent source target = Some (Finished l))
       ∧ ((length l ≤ Z.to_nat Transit.MAX_NODES)%nat →
          TransitRun.print_path fuel parent source target
          = Some (Finished (Transit.BestRoute l))
          ∧ Transit.named_route (Transit.BestRoute l) = Some l)).
Proof.
  split; [split; [| split] | split; [| split; [| split]]].
  - unfold MazeRun.path_nodes, fill_path.
    assert (walk_buffer (Z.to_nat Maze.MAX_NODES) fuel parent source source []
            = Some (Finished [])) as ->; [| done].
    destruct fuel; simpl; by rewrite Z.eqb_refl, orb_true_r.
  - unfold TransitRun.print_path. by rewrite Z.eqb_refl.
  - done.
  - done.
  - intros num_cols Hne. unfold MazeRun.print_path.
    destruct (Z.eqb_spec target (-1)); [done |].
    destruct (MazeRun.path_nodes fuel parent source target) as [[nodes | |] |]; try done.
    by destruct (MazeRun.print_cells nodes num_cols).
  - intros _ Hpar Hne. unfold TransitRun.print_path.
    destruct (Z.eqb_spec target source); [done |]. rewrite Hpar. done.
  - intros l Hch Hne Hsrc Hfuel. split.
    + intros Hcap. unfold MazeRun.path_nodes. by apply fill_path_chain.
    + intros Hcap. split; [| done]. unfold TransitRun.print_path.
      destruct (Z.eqb_spec target source); [done |].
      assert (rd (-1) parent target ≠ -1) as Hp.
      { inversion Hch as [| v l' _ _ Hch']; subst; [done |].
        inversion Hch'; congruence. }
      destruct (Z.eqb_spec (rd (-1) parent target) (-1)); [done |]. simpl.
      by rewrite (fill_path_chain _ _ _ _ _ _ Hch Hfuel Hcap).
Qed.

Example print_path_follows_links :
  chain [-1; 0; 1] 0 2 [0; 1; 2]
  ∧ Maze.path_nodes 3 [-1; 0; 1] 0 2 = Some [0; 1; 2]
  ∧ Transit.print_path 3 [-1; 0; 1] 0 2 = Some (Transit.BestRoute [0; 1; 2]).
Proof.
  split; [| done].
  apply (chain_step _ _ 2 [0; 1]); [done | done |].
  apply (chain_step _ _ 1 [0]); [done | done |].
  apply chain_here.
Qed.

(** A predecessor array over [n] nodes is ranked by [r] when every link
    leads to a node of lower rank: following links cannot come back. *)
Definition ranked (n : Z) (parent : list Z) (r : Z → nat) : Prop :=
  ∀ v, 0 ≤ v < n →
    (r v < Z.to_nat n)%nat
    ∧ (rd (-1) parent v = -1
       ∨ (0 ≤ rd (-1) parent v < n ∧ (r (rd (-1)%Z parent v) < r v)%nat)).

Lemma walk_sentinel fuel parent s path : walk fuel parent s (-1) path = Some path.
Proof. by destruct fuel. Qed.

Lemma walk_ranked n parent r start :
  ranked n parent r →
  ∀ fuel v path, 0 ≤ v < n → (r v < fuel)%nat →
    ∃ path', walk fuel parent start v path = Some path'
             ∧ (length path' ≤ length path + r v + 1)%nat.
Proof.
  intros Hr. induction fuel as [| fuel IH]; intros v path Hv Hfuel; [lia |].
  simpl. destruct ((v =? -1) || (v =? start)); [eexists; split; [done | lia] |].
  destruct (Hr v Hv) as [_ [Hp | [Hp Hlt]]].
  - rewrite Hp. exists (path ++ [v]). rewrite walk_sentinel.
    split; [done |]. rewrite length_app. simpl. lia.
  - destruct (IH (rd (-1) parent v) (path ++ [v]) Hp) as (path' & -> & Hlen); [lia |].
    eexists. split; [done |]. rewrite length_app in Hlen. simpl in Hlen. lia.
Qed.

(** Links lead to lower ranks, so a chain has no more nodes than the rank
    of its last node allows. *)
Lemma chain_ranked_length n parent r s v l :
  ranked n parent r → s ≠ -1 → 0 ≤ v < n → chain parent s v l →
  (length l ≤ r v + 1)%nat ∧ (length l ≤ Z.to_nat n)%nat.
Proof.
  intros Hr Hs Hv Hch. assert (length l ≤ r v + 1)%nat as Hlen.
  { revert Hv. induction Hch as [| v l Hne Hm Hch IH]; intros Hv; [simpl; lia |].
    rewrite length_app. simpl. destruct (Hr v Hv) as [_ [Hp | [Hp Hlt]]].
    - rewrite Hp in Hch. inversion Hch; subst; congruence.
    - specialize (IH Hp). lia. }
  split; [done |]. destruct (Hr v Hv) as [Hlt _]. lia.
Qed.

(** ** Counting marked nodes *)
Fixpoint count_true (l : list bool) : nat :=
  match l with
  | [] => 0
  | b :: l => (if b then 1 else 0) + count_true l
  end.

Lemma count_true_le l : (count_true l ≤ length l)%nat.
Proof. induction l as [| [] l IH]; simpl; lia. Qed.

Lemma count_true_insert l (i : nat) :
  l !! i = Some false → count_true (<[i := true]> l) = S (count_true l).
Proof.
  revert i. induction l as [| b l IH]; intros [| i] Hi; simpl in *; try done.
  - by inversion Hi.
  - rewrite IH by done. lia.
Qed.

Lemma count_true_lt l (i : nat) : l !! i = Some false → (count_true l < length l)%nat.
Proof.
  revert i. induction l as [| b l IH]; intros [| i] Hi; simpl in *; try done.
  - inversion Hi. pose proof (count_true_le l). lia.
  - specialize (IH i Hi). destruct b; lia.
Qed.

Lemma rd_false_lookup (l : list bool) v :
  in_range l v → rd false l v = false → l !! Z.to_nat v = Some false.
Proof.
  unfold in_range, rd. intros Hv. destruct (Z.ltb_spec v 0); [lia |].
  destruct (lookup_lt_is_Some_2 l (Z.to_nat v)) as [b Hb]; [lia |].
  rewrite Hb. simpl. by intros ->.
Qed.

Lemma rd_true_in_range (l : list bool) v : rd false l v = true → in_range l v.
Proof.
  intros Hv. destruct (decide (in_range l v)) as [| Hout]; [done |].
  rewrite rd_out in Hv by done. done.
Qed.

Lemma count_true_wr l v :
  in_range l v → rd false l v = false → count_true (wr l v true) = S (count_true l).
Proof.
  intros Hv Hf. pose proof (rd_false_lookup l v Hv Hf). unfold wr.
  destruct (Z.ltb_spec v 0); [unfold in_range in Hv; lia |].
  by apply count_true_insert.
Qed.

Lemma count_true_unmarked l v :
  in_range l v → rd false l v = false → (count_true l < length l)%nat.
Proof. intros Hv Hf. eapply count_true_lt, rd_false_lookup; done. Qed.

(** ** Breadth-first search *)

(** The graph invariant of the data model: every stored edge leads to a
    node of the graph. *)
Definition maze_edges_in_range (g : Maze.Graph) : Prop :=
  ∀ u v, v ∈ Maze.adj g u → 0 ≤ v < Maze.num_nodes g.

(** [hops g s v k]: some path of [k] edges leads from [s] to [v]. *)
Inductive hops (g : Maze.Graph) (s : Z) : Z → nat → Prop :=
| hops_zero : hops g s s 0
| hops_step u v k : hops g s u k → v ∈ Maze.adj g u → hops g s v (S k).

Definition maze_reachable (g : Maze.Graph) (s v : Z) : Prop := ∃ k, hops g s v k.

(** [l] is a path of the graph: each node is in the adjacency list of the
    one before it. *)
Fixpoint maze_path (g : Maze.Graph) (l : list Z) : Prop :=
  match l with
  | [] => True
  | u :: l' => match l' with
               | [] => True
               | v :: _ => v ∈ Maze.adj g u ∧ maze_path g l'
               end
  end.

Definition upd (f : Z → nat) (w : Z) (k : nat) : Z → nat :=
  λ x, if decide (x = w) then k else f x.

Section bfs.
Import Maze.
Variable g : Graph.
Variables source target : Z.
Hypothesis g_edges : maze_edges_in_range g.
Hypothesis source_valid : 0 ≤ source < num_nodes g.

(** The invariant of the search.  [lvl] gives each marked node its depth in
    the search tree; [qs] is the queue, with the node being expanded still at
    its head. *)
Record bfs_core (lvl : Z → nat) (qs : list Z) (st : bfs_state) : Prop := {
  core_len_visited : Z.of_nat (length (visited st)) = num_nodes g;
  core_len_parent : Z.of_nat (length (parent st)) = num_nodes g;
  core_source : rd false (visited st) source = true ∧ lvl source = 0%nat;
  core_source_parent : rd (-1) (parent st) source = -1;
  core_unvisited : ∀ v, rd false (visited st) v = false → rd (-1) (parent st) v = -1;
  core_parent : ∀ v, rd false (visited st) v = true → v ≠ source →
    rd false (visited st) (rd (-1) (parent st) v) = true
    ∧ v ∈ adj g (rd (-1) (parent st) v)
    ∧ lvl v = S (lvl (rd (-1) (parent st) v));
  core_hops : ∀ v, rd false (visited st) v = true → hops g source v (lvl v);
  core_lvl_bound : ∀ v, rd false (visited st) v = true →
    (lvl v < count_true (visited st))%nat;
  core_queue_visited : ∀ x, x ∈ qs → rd false (visited st) x = true;
  core_sorted : ∀ (i j : nat) x y,
    qs !! i = Some x → qs !! j = Some y → (i ≤ j)%nat → (lvl x ≤ lvl y)%nat;
  core_span : ∀ x y, x ∈ qs → y ∈ qs → (lvl y ≤ S (lvl x))%nat;
  core_done : ∀ v w, rd false (visited st) v = true → v ∉ qs → w ∈ adj g v →
    rd false (visited st) w = true ∧ (lvl w ≤ S (lvl v))%nat;
  core_done_le : ∀ v x, rd false (visited st) v = true → v ∉ qs → x ∈ qs →
    (lvl v ≤ lvl x)%nat;
  core_target : rd false (visited st) target = true → target ∈ qs
}.

Lemma visited_in_range lvl qs st v :
  bfs_core lvl qs st → rd false (visited st) v = true → 0 ≤ v < num_nodes g.
Proof.
  intros Hc Hv. apply rd_true_in_range in Hv. unfold in_range in Hv.
  rewrite (core_len_visited _ _ _ Hc) in Hv. done.
Qed.

Lemma core_head_least lvl u q st x :
  bfs_core lvl (u :: q) st → x ∈ u :: q → (lvl u ≤ lvl x)%nat.
Proof.
  intros Hc Hx. apply list_elem_of_lookup in Hx as [j Hj].
  apply (core_sorted _ _ _ Hc 0%nat j); [done | done | lia].
Qed.

Lemma bfs_init_core : bfs_core (λ _, 0%nat) [source] (bfs_init g source).
Proof.
  assert (in_range (replicate (Z.to_nat (num_nodes g)) false) source) as Hin.
  { unfold in_range. rewrite length_replicate. lia. }
  assert (∀ v, rd false (visited (bfs_init g source)) v = true → v = source) as Hvis.
  { intros v. simpl. rewrite rd_wr by done. case_decide; [done |].
    destruct (decide (0 ≤ v < Z.of_nat (Z.to_nat (num_nodes g)))).
    - by rewrite rd_replicate.
    - rewrite rd_out; [done |]. unfold in_range. by rewrite length_replicate. }
  split; simpl.
  - rewrite length_wr, length_replicate. lia.
  - rewrite length_replicate. lia.
  - by rewrite rd_wr_eq.
  - rewrite rd_replicate; [done | lia].
  - intros v _. destruct (decide (0 ≤ v < Z.of_nat (Z.to_nat (num_nodes g)))).
    + by rewrite rd_replicate.
    + rewrite rd_out; [done |]. unfold in_range. by rewrite length_replicate.
  - intros v Hv Hne. by apply Hvis in Hv.
  - intros v Hv. apply Hvis in Hv as ->. constructor.
  - intros v _. rewrite count_true_wr; [lia | done |].
    rewrite rd_replicate; [done | lia].
  - intros x Hx. apply list_elem_of_singleton in Hx as ->. by rewrite rd_wr_eq.
  - done.
  - intros; simpl; lia.
  - intros v w Hv Hnot. apply Hvis in Hv as ->. by rewrite list_elem_of_singleton in Hnot.
  - done.
  - intros Hv. apply Hvis in Hv as ->. by apply list_elem_of_singleton.
Qed.

Lemma elem_of_enqueued (u w x : Z) (q : list Z) :
  x ∈ u :: enqueue q w ↔ x ∈ u :: q ∨ x = w.
Proof.
  unfold enqueue. rewrite !elem_of_cons, elem_of_app, list_elem_of_singleton. tauto.
Qed.

(** Marking a fresh neighbour [w] of the node [u] under expansion. *)
Lemma bfs_mark_core lvl u st w :
  bfs_core lvl (u :: queue st) st →
  w ∈ adj g u →
  rd false (visited st) w = false →
  bfs_core (upd lvl w (S (lvl u))) (u :: enqueue (queue st) w)
    {| visited := wr (visited st) w true;
       parent := wr (parent st) w u;
       queue := enqueue (queue st) w |}.
Proof.
  intros Hc Hw Hfresh.
  pose proof (g_edges u w Hw) as Hwr.
  assert (in_range (visited st) w) as Hwv
    by (unfold in_range; rewrite (core_len_visited _ _ _ Hc); done).
  assert (in_range (parent st) w) as Hwp
    by (unfold in_range; rewrite (core_len_parent _ _ _ Hc); done).
  assert (rd false (visited st) u = true) as Hu
    by (apply (core_queue_visited _ _ _ Hc); left).
  assert (∀ v, rd false (wr (visited st) w true) v = true ↔
               v = w ∨ rd false (visited st) v = true) as Hvis.
  { intros v. rewrite rd_wr by done. case_decide; intuition congruence. }
  assert (∀ v, rd false (visited st) v = true →
               v ≠ w ∧ upd lvl w (S (lvl u)) v = lvl v) as Hold.
  { intros v Hv. assert (v ≠ w) by congruence. split; [done |].
    unfold upd. by case_decide. }
  assert (upd lvl w (S (lvl u)) w = S (lvl u)) as Hnew.
  { unfold upd. by case_decide. }
  destruct (core_source _ _ _ Hc) as [Hsv Hsl].
  split; simpl.
  - by rewrite length_wr, (core_len_visited _ _ _ Hc).
  - by rewrite length_wr, (core_len_parent _ _ _ Hc).
  - split; [apply Hvis; by right |]. destruct (Hold source Hsv) as [_ ->]. done.
  - rewrite rd_wr_ne; [apply (core_source_parent _ _ _ Hc) | ].
    destruct (Hold source Hsv) as [? _]. congruence.
  - intros v Hv. destruct (decide (v = w)) as [-> | Hne].
    + rewrite rd_wr_eq in Hv by done. done.
    + rewrite rd_wr_ne in Hv by congruence. rewrite rd_wr_ne by congruence.
      by apply (core_unvisited _ _ _ Hc).
  - intros v Hv Hvs. apply Hvis in Hv as [-> | Hv].
    + rewrite rd_wr_eq by done. rewrite Hnew. destruct (Hold u Hu) as [_ ->].
      split; [apply Hvis; by right | done].
    + destruct (Hold v Hv) as [Hne ->].
      rewrite (rd_wr_ne (-1) (parent st) w v) by congruence.
      destruct (core_parent _ _ _ Hc v Hv Hvs) as (Hp & He & Hl).
      destruct (Hold _ Hp) as [_ ->]. split; [apply Hvis; by right | done].
  - intros v Hv. apply Hvis in Hv as [-> | Hv].
    + rewrite Hnew. eapply hops_step; [| done]. by apply (core_hops _ _ _ Hc).
    + destruct (Hold v Hv) as [_ ->]. by apply (core_hops _ _ _ Hc).
  - intros v Hv. rewrite count_true_wr by done. apply Hvis in Hv as [-> | Hv].
    + rewrite Hnew. pose proof (core_lvl_bound _ _ _ Hc u Hu). lia.
    + destruct (Hold v Hv) as [_ ->]. pose proof (core_lvl_bound _ _ _ Hc v Hv). lia.
  - intros x Hx. apply Hvis. apply elem_of_enqueued in Hx as [Hx | ->]; [right | by left].
    by apply (core_queue_visited _ _ _ Hc).
  - intros i j x y Hi Hj Hij. change (u :: enqueue (queue st) w)
      with ((u :: queue st) ++ [w]) in Hi, Hj.
    assert (∀ k z, ((u :: queue st) ++ [w]) !! k = Some z →
              ((u :: queue st) !! k = Some z ∧ (k < length (u :: queue st))%nat)
              ∨ (z = w ∧ k = length (u :: queue st))) as Hcases.
    { intros k z Hk. apply lookup_app_Some in Hk as [Hk | [Hlen Hk]].
      - left. split; [done |]. by eapply lookup_lt_Some.
      - right. apply list_lookup_singleton_Some in Hk as [Hk ->]. split; [done | lia]. }
    destruct (Hcases _ _ Hi) as [[Hi' Hil] | [-> ->]],
             (Hcases _ _ Hj) as [[Hj' Hjl] | [-> ->]]; try lia.
    + destruct (Hold x) as [_ ->];
        [apply (core_queue_visited _ _ _ Hc); eapply list_elem_of_lookup_2; done |].
      destruct (Hold y) as [_ ->];
        [apply (core_queue_visited _ _ _ Hc); eapply list_elem_of_lookup_2; done |].
      by apply (core_sorted _ _ _ Hc i j).
    + assert (x ∈ u :: queue st) as Hx by (eapply list_elem_of_lookup_2; done).
      destruct (Hold x) as [_ ->]; [by apply (core_queue_visited _ _ _ Hc) |].
      rewrite Hnew. apply (core_span _ _ _ Hc); [left | done].
  - intros x y Hx Hy. apply elem_of_enqueued in Hx, Hy.
    destruct Hx as [Hx | ->], Hy as [Hy | ->]; rewrite ?Hnew.
    + destruct (Hold x) as [_ ->]; [by apply (core_queue_visited _ _ _ Hc) |].
      destruct (Hold y) as [_ ->]; [by apply (core_queue_visited _ _ _ Hc) |].
      by apply (core_span _ _ _ Hc).
    + destruct (Hold x) as [_ ->]; [by apply (core_queue_visited _ _ _ Hc) |].
      pose proof (core_head_least _ _ _ _ _ Hc Hx). lia.
    + destruct (Hold y) as [_ ->]; [by apply (core_queue_visited _ _ _ Hc) |].
      assert (lvl y ≤ S (lvl u))%nat by (apply (core_span _ _ _ Hc); [left | done]). lia.
    + lia.
  - intros v w' Hv Hnot Hw'. rewrite elem_of_enqueued in Hnot.
    apply Hvis in Hv as [-> | Hv]; [tauto |].
    destruct (core_done _ _ _ Hc v w' Hv) as [Hw'v Hle]; [tauto | done |].
    destruct (Hold v Hv) as [_ ->]. destruct (Hold w' Hw'v) as [_ ->].
    split; [apply Hvis; by right | done].
  - intros v x Hv Hnot Hx. rewrite elem_of_enqueued in Hnot.
    apply Hvis in Hv as [-> | Hv]; [tauto |]. destruct (Hold v Hv) as [_ ->].
    apply elem_of_enqueued in Hx as [Hx | ->].
    + destruct (Hold x) as [_ ->]; [by apply (core_queue_visited _ _ _ Hc) |].
      apply (core_done_le _ _ _ Hc); [done | tauto | done].
    + rewrite Hnew. assert (lvl v ≤ lvl u)%nat; [| lia].
      apply (core_done_le _ _ _ Hc); [done | tauto | left].
  - intros Ht. apply elem_of_enqueued. apply Hvis in Ht as [-> | Ht]; [by right | left].
    by apply (core_target _ _ _ Hc).
Qed.

(** What scanning the rest [temp] of the adjacency list of [u] achieves. *)
Lemma bfs_scan_core u temp :
  (∀ w, w ∈ temp → w ∈ adj g u) →
  ∀ lvl st, bfs_core lvl (u :: queue st) st →
  let st' := fold_left (bfs_visit u) temp st in
  ∃ lvl', bfs_core lvl' (u :: queue st') st'
    ∧ (∀ v, rd false (visited st) v = true →
         rd false (visited st') v = true ∧ lvl' v = lvl v)
    ∧ (∀ w, w ∈ temp → rd false (visited st') w = true ∧ (lvl' w ≤ S (lvl' u))%nat)
    ∧ (length (queue st') + count_true (visited st)
       = length (queue st) + count_true (visited st'))%nat.
Proof.
  induction temp as [| w temp IH]; intros Htemp lvl st Hc; simpl.
  { exists lvl. split; [done |]. split; [done |]. split; [| done].
    intros w Hw. by apply elem_of_nil in Hw. }
  assert (w ∈ adj g u) as Hw by (apply Htemp; left).
  assert (rd false (visited st) u = true) as Hu
    by (apply (core_queue_visited _ _ _ Hc); left).
  assert (∃ lvl1, bfs_core lvl1 (u :: queue (bfs_visit u st w)) (bfs_visit u st w)
            ∧ (∀ v, rd false (visited st) v = true →
                 rd false (visited (bfs_visit u st w)) v = true ∧ lvl1 v = lvl v)
            ∧ rd false (visited (bfs_visit u st w)) w = true
            ∧ (lvl1 w ≤ S (lvl1 u))%nat
            ∧ (length (queue (bfs_visit u st w)) + count_true (visited st)
               = length (queue st) + count_true (visited (bfs_visit u st w)))%nat)
    as (lvl1 & Hc1 & Hmono1 & Hw1 & Hl1 & Hm1).
  { unfold bfs_visit. destruct (rd false (visited st) w) eqn:Hvw.
    - exists lvl. split_and!; try done.
      destruct (decide (w ∈ u :: queue st)) as [Hin | Hout].
      + apply (core_span _ _ _ Hc); [left | done].
      + assert (lvl w ≤ lvl u)%nat; [| lia].
        apply (core_done_le _ _ _ Hc); [done | done | left].
    - pose proof (bfs_mark_core _ _ _ _ Hc Hw Hvw) as Hc1.
      pose proof (g_edges u w Hw) as Hwr.
      assert (in_range (visited st) w) as Hwv
        by (unfold in_range; rewrite (core_len_visited _ _ _ Hc); done).
      exists (upd lvl w (S (lvl u))). simpl. split; [done |].
      assert (∀ v, rd false (visited st) v = true → upd lvl w (S (lvl u)) v = lvl v)
        as Hsame.
      { intros v Hv. unfold upd. case_decide; [congruence | done]. }
      split_and!.
      + intros v Hv. split; [| by apply Hsame]. rewrite rd_wr by done. by case_decide.
      + by apply rd_wr_eq.
      + rewrite (Hsame u Hu). unfold upd. by case_decide.
      + rewrite count_true_wr by done. unfold enqueue. rewrite length_app. simpl. lia. }
  destruct (IH (λ x Hx, Htemp x (list_elem_of_further _ _ _ Hx)) lvl1 _ Hc1)
    as (lvl' & Hc' & Hmono' & Hall' & Hm').
  exists lvl'. split; [done |]. split; [| split].
  - intros v Hv. destruct (Hmono1 v Hv) as [Hv1 <-]. by apply Hmono'.
  - intros x Hx. apply elem_of_cons in Hx as [-> | Hx]; [| by apply Hall'].
    destruct (Hmono' w Hw1) as [Hw' Hlw]. split; [done |].
    destruct (Hmono1 u Hu) as [Hu1 _]. destruct (Hmono' u Hu1) as [_ Hlu]. lia.
  - lia.
Qed.

(** The node at the head has been expanded: it leaves the queue. *)
Lemma bfs_core_expanded lvl u q st :
  bfs_core lvl (u :: q) st →
  u ≠ target →
  (∀ w, w ∈ adj g u → rd false (visited st) w = true ∧ (lvl w ≤ S (lvl u))%nat) →
  bfs_core lvl q st.
Proof.
  intros Hc Hut Hall.
  split; try apply Hc.
  - intros x Hx. apply (core_queue_visited _ _ _ Hc). by right.
  - intros i j x y Hi Hj Hij. apply (core_sorted _ _ _ Hc (S i) (S j)); [done | done | lia].
  - intros x y Hx Hy. apply (core_span _ _ _ Hc); by right.
  - intros v w Hv Hnot Hw. destruct (decide (v = u)) as [-> | Hne]; [by apply Hall |].
    apply (core_done _ _ _ Hc v w); [done | | done].
    rewrite elem_of_cons. tauto.
  - intros v x Hv Hnot Hx. destruct (decide (v = u)) as [-> | Hne].
    + apply (core_head_least _ _ _ _ _ Hc). by right.
    + apply (core_done_le _ _ _ Hc); [done | | by right]. rewrite elem_of_cons. tauto.
  - intros Ht. apply (core_target _ _ _ Hc) in Ht.
    apply elem_of_cons in Ht as [-> | Ht]; done.
Qed.

Lemma bfs_core_same lvl qs st st' :
  bfs_core lvl qs st → visited st' = visited st → parent st' = parent st →
  bfs_core lvl qs st'.
Proof. intros Hc Hv Hp. split; rewrite ?Hv, ?Hp; apply Hc. Qed.

(** The loop returns, and in one of two ways: the queue ran empty, or the
    target came to its head. *)
Lemma bfs_loop_core fuel :
  ∀ lvl st,
    bfs_core lvl (queue st) st →
    (length (queue st) + length (visited st) ≤ fuel + count_true (visited st))%nat →
    ∃ found st' lvl',
      bfs_loop fuel g target st = Some (found, st')
      ∧ ((found = -1 ∧ bfs_core lvl' [] st')
         ∨ (found = target ∧ bfs_core lvl' (target :: queue st') st')).
Proof.
  induction fuel as [| fuel IH]; intros lvl st Hc Hm.
  - destruct (queue st) as [| u q] eqn:Hq.
    + exists (-1), st, lvl. simpl. rewrite Hq. simpl. split; [done |]. by left.
    + pose proof (count_true_le (visited st)). simpl in Hm. lia.
  - destruct (queue st) as [| u q] eqn:Hq.
    + exists (-1), st, lvl. simpl. rewrite Hq. simpl. split; [done |]. by left.
    + simpl. rewrite Hq. simpl.
      set (st1 := {| visited := visited st; parent := parent st; queue := q |}).
      assert (bfs_core lvl (u :: queue st1) st1) as Hc1 by (by eapply bfs_core_same).
      destruct (Z.eqb_spec u target) as [-> | Hne].
      { exists target, st1, lvl. split; [done |]. by right. }
      destruct (bfs_scan_core u (adj g u) (λ _ H, H) lvl st1 Hc1)
        as (lvl' & Hc' & _ & Hall & Hm').
      fold (bfs_scan g u st1) in *.
      apply (IH lvl').
      * apply bfs_core_expanded with (u := u); [done | done |]. intros w Hw.
        by apply Hall.
      * assert (length (visited (bfs_scan g u st1)) = length (visited st)) as Hlen.
        { apply Nat2Z.inj.
          by rewrite (core_len_visited _ _ _ Hc'), (core_len_visited _ _ _ Hc). }
        simpl in Hm, Hm'. lia.
Qed.

(** A path from the source either ends in a marked node no deeper than the
    path is long, or has passed a node that is still queued. *)
Lemma bfs_frontier lvl qs st v k :
  bfs_core lvl qs st → hops g source v k →
  (rd false (visited st) v = true ∧ (lvl v ≤ k)%nat) ∨ (∃ y, y ∈ qs ∧ (lvl y < k)%nat).
Proof.
  intros Hc. induction 1 as [| u v k _ IH Hv].
  - left. destruct (core_source _ _ _ Hc) as [? ->]. done.
  - destruct IH as [[Hu Hle] | (y & Hy & Hlt)]; [| right; exists y; split; [done | lia]].
    destruct (decide (u ∈ qs)) as [Hin | Hout].
    + right. exists u. split; [done | lia].
    + left. destruct (core_done _ _ _ Hc u v Hu Hout Hv) as [Hvv Hl]. split; [done | lia].
Qed.

Lemma maze_path_snoc l p v :
  maze_path g l → last l = Some p → v ∈ adj g p → maze_path g (l ++ [v]).
Proof.
  induction l as [| a l IH]; [done |]. intros Hl Hlast Hv.
  destruct l as [| b l]; simpl in *.
  - inversion Hlast; subst. done.
  - destruct Hl as [Hab Hl]. split; [done |]. by apply IH.
Qed.

(** The predecessor links of a marked node lead back to the source along
    edges of the graph, in as many steps as the node is deep. *)
Lemma bfs_chain lvl qs st :
  bfs_core lvl qs st →
  ∀ k v, rd false (visited st) v = true → lvl v = k →
    ∃ l, chain (parent st) source v l ∧ length l = S k
         ∧ maze_path g l ∧ head l = Some source ∧ last l = Some v.
Proof.
  intros Hc. destruct (core_source _ _ _ Hc) as [_ Hs0].
  induction k as [| k IH]; intros v Hv Hk.
  - destruct (decide (v = source)) as [-> | Hne].
    + exists [source]. split; [constructor | done].
    + destruct (core_parent _ _ _ Hc v Hv Hne) as (_ & _ & ?). lia.
  - destruct (decide (v = source)) as [-> | Hne]; [lia |].
    destruct (core_parent _ _ _ Hc v Hv Hne) as (Hp & He & Hl).
    destruct (IH _ Hp) as (l & Hch & Hlen & Hpath & Hhd & Hlast); [lia |].
    exists (l ++ [v]). split_and!.
    + constructor; [done | | done]. pose proof (visited_in_range _ _ _ _ Hc Hv). lia.
    + rewrite length_app. simpl. lia.
    + by eapply maze_path_snoc.
    + destruct l; [done | done].
    + by rewrite last_snoc.
Qed.

Lemma count_true_replicate n : count_true (replicate n false) = 0%nat.
Proof. induction n; [done | done]. Qed.

Lemma bfs_search_core :
  ∃ found st lvl,
    bfs_search g source target = Some (found, st)
    ∧ ((found = -1 ∧ bfs_core lvl [] st)
       ∨ (found = target ∧ bfs_core lvl (target :: queue st) st)).
Proof.
  unfold bfs_search. apply (bfs_loop_core _ (λ _, 0%nat)).
  - apply bfs_init_core.
  - simpl. rewrite length_wr, length_replicate.
    rewrite count_true_wr, count_true_replicate.
    + lia.
    + unfold in_range. rewrite length_replicate. lia.
    + rewrite rd_replicate; [done | lia].
Qed.

(** When the queue runs empty, everything reachable has been marked. *)
Lemma bfs_exhausted lvl st v :
  bfs_core lvl [] st → maze_reachable g source v → rd false (visited st) v = true.
Proof.
  intros Hc [k Hk]. destruct (bfs_frontier _ _ _ _ _ Hc Hk) as [[? _] | (y & Hy & _)]; [done |].
  by apply elem_of_nil in Hy.
Qed.

Lemma bfs_core_ranked lvl qs st :
  bfs_core lvl qs st →
  ranked (num_nodes g) (parent st) (λ v, if rd false (visited st) v then lvl v else 0%nat).
Proof.
  intros Hc v Hv. pose proof (count_true_le (visited st)) as Hcount.
  pose proof (core_len_visited _ _ _ Hc) as Hlen.
  destruct (rd false (visited st) v) eqn:Hvis.
  - split; [pose proof (core_lvl_bound _ _ _ Hc v Hvis); lia |].
    destruct (decide (v = source)) as [-> | Hne]; [left; apply Hc |].
    destruct (core_parent _ _ _ Hc v Hvis Hne) as (Hp & _ & Hl).
    right. rewrite Hp. split; [by eapply visited_in_range | lia].
  - split; [lia |]. left. by apply (core_unvisited _ _ _ Hc).
Qed.

(** Everything the later theorems need about one run of the search. *)
Lemma bfs_search_facts :
  ∃ found st,
    bfs_search g source target = Some (found, st)
    ∧ (found = -1 ∨ (found = target ∧ 0 ≤ target < num_nodes g))
    ∧ rd (-1) (parent st) source = -1
    ∧ (∃ r, ranked (num_nodes g) (parent st) r)
    ∧ (maze_reachable g source target →
         found = target
         ∧ ∃ l, chain (parent st) source target l
                ∧ (length l ≤ S (Z.to_nat (num_nodes g)))%nat
                ∧ maze_path g l ∧ head l = Some source ∧ last l = Some target
                ∧ hops g source target (length l - 1)
                ∧ ∀ k, hops g source target k → (length l - 1 ≤ k)%nat)
    ∧ (¬ maze_reachable g source target →
         found = -1 ∧ rd (-1) (parent st) target = -1).
Proof.
  destruct bfs_search_core as (found & st & lvl & Hrun & [[-> Hc] | [-> Hc]]);
    do 2 eexists; (split; [exact Hrun |]);
    (split; [first [by left | right; split; [done |];
                    eapply visited_in_range; [exact Hc |];
                    apply (core_queue_visited _ _ _ Hc); left] |]);
    (split; [apply Hc |]);
    (split; [eexists; by eapply bfs_core_ranked |]).
  - assert (rd false (visited st) target = false) as Hunv.
    { destruct (rd false (visited st) target) eqn:Ht; [| done].
      apply (core_target _ _ _ Hc) in Ht. by apply elem_of_nil in Ht. }
    split.
    + intros Hreach. apply (bfs_exhausted _ _ _ Hc) in Hreach. congruence.
    + intros _. split; [done |]. by apply (core_unvisited _ _ _ Hc).
  - assert (rd false (visited st) target = true) as Hvis
      by (apply (core_queue_visited _ _ _ Hc); left).
    split.
    + intros _. split; [done |].
      destruct (bfs_chain _ _ _ Hc _ _ Hvis eq_refl) as (l & Hch & Hlen & Hpath & Hhd & Hlast).
      exists l. rewrite Hlen. replace (S (lvl target) - 1)%nat with (lvl target) by lia.
      split_and!; try done.
      * pose proof (core_lvl_bound _ _ _ Hc _ Hvis). pose proof (count_true_le (visited st)).
        pose proof (core_len_visited _ _ _ Hc). lia.
      * by apply (core_hops _ _ _ Hc).
      * intros k Hk.
        destruct (bfs_frontier _ _ _ _ _ Hc Hk) as [[_ Hle] | (y & Hy & Hlt)]; [done |].
        pose proof (core_head_least _ _ _ _ _ Hc Hy). lia.
    + intros Hun. exfalso. apply Hun. exists (lvl target). by apply (core_hops _ _ _ Hc).
Qed.


(** Whether the search finds the target decides whether it can be reached. *)
Lemma bfs_search_decides :
  ∃ found st,
    bfs_search g source target = Some (found, st)
    ∧ ((found = -1 ∧ ¬ maze_reachable g source target)
       ∨ (found = target ∧ 0 ≤ target < num_nodes g ∧ maze_reachable g source target)).
Proof.
  destruct bfs_search_core as (found & st & lvl & Hrun & [[-> Hc] | [-> Hc]]);
    eexists; exists st; (split; [exact Hrun |]).
  - left. split; [done |]. intros Hreach. apply (bfs_exhausted _ _ _ Hc) in Hreach.
    apply (core_target _ _ _ Hc) in Hreach. by apply elem_of_nil in Hreach.
  - right. assert (rd false (visited st) target = true) as Hvis
      by (apply (core_queue_visited _ _ _ Hc); left).
    split; [done |]. split; [by eapply visited_in_range |].
    exists (lvl target). by apply (core_hops _ _ _ Hc).
Qed.

(** The depth of a marked node is the least number of edges to it. *)
Lemma bfs_core_least lvl qs st v k :
  bfs_core lvl qs st → rd false (visited st) v = true → hops g source v k →
  (lvl v ≤ k)%nat.
Proof.
  intros Hc Hv Hk. destruct (bfs_frontier _ _ _ _ _ Hc Hk) as [[_ ?] | (y & Hy & Hlt)]; [done |].
  destruct (decide (v ∈ qs)) as [Hin | Hout].
  - pose proof (core_span _ _ _ Hc y v Hy Hin). lia.
  - pose proof (core_done_le _ _ _ Hc v y Hv Hout Hy). lia.
Qed.

(** The whole predecessor array is a tree of shortest paths. *)
Lemma bfs_search_tree :
  ∃ found st,
    bfs_search g source target = Some (found, st)
    ∧ ∀ v, rd (-1) (parent st) v ≠ -1 →
        ∃ l, chain (parent st) source v l
             ∧ (length l ≤ S (Z.to_nat (num_nodes g)))%nat
             ∧ maze_path g l ∧ head l = Some source ∧ last l = Some v
             ∧ hops g source v (length l - 1)
             ∧ ∀ k, hops g source v k → (length l - 1 ≤ k)%nat.
Proof.
  assert (∀ lvl qs st, bfs_core lvl qs st →
            ∀ v, rd (-1) (parent st) v ≠ -1 →
              ∃ l, chain (parent st) source v l
                   ∧ (length l ≤ S (Z.to_nat (num_nodes g)))%nat
                   ∧ maze_path g l ∧ head l = Some source ∧ last l = Some v
                   ∧ hops g source v (length l - 1)
                   ∧ ∀ k, hops g source v k → (length l - 1 ≤ k)%nat) as Hgen.
  { intros lvl qs st Hc v Hp.
    assert (rd false (visited st) v = true) as Hv.
    { destruct (rd false (visited st) v) eqn:Hvv; [done |].
      by apply (core_unvisited _ _ _ Hc) in Hvv. }
    destruct (bfs_chain _ _ _ Hc _ _ Hv eq_refl) as (l & Hch & Hlen & Hpath & Hhd & Hlast).
    exists l. rewrite Hlen. replace (S (lvl v) - 1)%nat with (lvl v) by lia.
    split_and!; try done.
    - pose proof (core_lvl_bound _ _ _ Hc _ Hv). pose proof (count_true_le (visited st)).
      pose proof (core_len_visited _ _ _ Hc). lia.
    - by apply (core_hops _ _ _ Hc).
    - intros k Hk. by eapply bfs_core_least. }
  destruct bfs_search_core as (found & st & lvl & Hrun & [[_ Hc] | [_ Hc]]);
    exists found, st; (split; [exact Hrun | by eapply Hgen]).
Qed.

End bfs.

(** A computable check of the graph invariant. *)
Definition maze_edges_ok (g : Maze.Graph) : bool :=
  forallb (forallb (λ v, (0 <=? v) && (v <? Maze.num_nodes g))) (Maze.adj_lists g).

Lemma maze_edges_ok_sound g : maze_edges_ok g = true → maze_edges_in_range g.
Proof.
  unfold maze_edges_ok, maze_edges_in_range, Maze.adj, rd. intros Hok u v Hv.
  destruct (u <? 0); [by apply elem_of_nil in Hv |].
  destruct (Maze.adj_lists g !! Z.to_nat u) as [l |] eqn:Hl;
    [| by apply elem_of_nil in Hv].
  simpl in Hv. rewrite forallb_forall in Hok.
  apply list_elem_of_lookup_2, list_elem_of_In in Hl. specialize (Hok _ Hl).
  rewrite forallb_forall in Hok. apply list_elem_of_In in Hv. specialize (Hok _ Hv).
  lia.
Qed.

Lemma hops_in_range g s v k :
  maze_edges_in_range g → 0 ≤ s < Maze.num_nodes g → hops g s v k →
  0 ≤ v < Maze.num_nodes g.
Proof. intros Hg Hs. destruct 1; [done | by eapply Hg]. Qed.

(** C2 (amended).  On a graph of at most [MAX_NODES] nodes, when the
    target can be reached from the source, [bfs] leaves its loop the first
    time the target is taken from the queue, with the target as the node
    found, and the path that the loop of [print_path] rebuilds in its buffer
    from the predecessor array is a path of the graph from source to target
    whose number of edges is the least over all paths from source to
    target. *)
Theorem bfs_finds_shortest_path (g : Maze.Graph) (source target : Z) :
  maze_edges_in_range g →
  0 ≤ source < Maze.num_nodes g →
  Maze.num_nodes g ≤ Maze.MAX_NODES →
  maze_reachable g source target →
  (∀ fuel st q, Maze.queue st = target :: q →
     Maze.bfs_loop fuel g target st
     = Some (target, {| Maze.visited := Maze.visited st;
                        Maze.parent := Maze.parent st;
                        Maze.queue := q |}))
  ∧ ∃ st nodes,
      Maze.bfs_search g source target = Some (target, st)
      ∧ MazeRun.path_nodes (Z.to_nat (Maze.num_nodes g)) (Maze.parent st) source target
        = Some (Finished nodes)
      ∧ maze_path g nodes ∧ head nodes = Some source ∧ last nodes = Some target
      ∧ hops g source target (length nodes - 1)
      ∧ ∀ k, hops g source target k → (length nodes - 1 ≤ k)%nat.
Proof.
  intros Hg Hs Hmax Hreach. split.
  { intros fuel st q Hq. destruct fuel; simpl; rewrite Hq; simpl;
      by rewrite Z.eqb_refl. }
  destruct (bfs_search_facts g source target Hg Hs)
    as (found & st & Hrun & _ & _ & [r Hr] & Hyes & _).
  destruct (Hyes Hreach) as (-> & l & Hch & Hlen & Hpath & Hhd & Hlast & Hhops & Hmin).
  assert (0 ≤ target < Maze.num_nodes g) as Ht.
  { destruct Hreach as [k Hk]. by apply (hops_in_range _ _ _ _ Hg Hs Hk). }
  assert (source ≠ -1) as Hsrc by lia.
  destruct (chain_ranked_length _ _ _ _ _ _ Hr Hsrc Ht Hch) as [_ Hn].
  exists st, l. split; [done |]. split; [| done].
  unfold MazeRun.path_nodes. apply fill_path_chain; [done | lia |].
  unfold Maze.MAX_NODES, Maze.MAX_ROWS, Maze.MAX_COLS in *. lia.
Qed.

Definition corridor : Maze.Graph :=
  Maze.add_edge (Maze.add_edge (Maze.create_graph 3) 0 1) 1 2.

Lemma corridor_edges : maze_edges_in_range corridor.
Proof. by apply maze_edges_ok_sound. Qed.

Lemma corridor_reach : maze_reachable corridor 0 2.
Proof.
  exists 2%nat. apply (hops_step _ _ 1); [apply (hops_step _ _ 0); [constructor |] |].
  - by apply list_elem_of_In; left.
  - by apply list_elem_of_In; left.
Qed.

Lemma bfs_finds_shortest_path_witness :
  (∀ fuel st q, Maze.queue st = 2 :: q →
     Maze.bfs_loop fuel corridor 2 st
     = Some (2, {| Maze.visited := Maze.visited st;
                   Maze.parent := Maze.parent st;
                   Maze.queue := q |}))
  ∧ ∃ st nodes,
      Maze.bfs_search corridor 0 2 = Some (2, st)
      ∧ MazeRun.path_nodes (Z.to_nat (Maze.num_nodes corridor)) (Maze.parent st) 0 2
        = Some (Finished nodes)
      ∧ maze_path corridor nodes ∧ head nodes = Some 0 ∧ last nodes = Some 2
      ∧ hops corridor 0 2 (length nodes - 1)
      ∧ ∀ k, hops corridor 0 2 k → (length nodes - 1 ≤ k)%nat.
Proof.
  apply (bfs_finds_shortest_path corridor 0 2).
  - exact corridor_edges.
  - simpl. lia.
  - by vm_compute.
  - exact corridor_reach.
Defined.

(** C2 (as claimed, refuted).  In the maze of 120 cells in a row the last
    cell can be reached from the first and [bfs] finds it, but the path
    back has 120 nodes and the buffer of [print_path] holds 100: the loop
    stores past its end and no path is rebuilt. *)
Lemma bfs_path_overruns_buffer :
  maze_edges_in_range (line_maze 120)
  ∧ maze_reachable (line_maze 120) 0 119
  ∧ ∃ st, Maze.bfs_search (line_maze 120) 0 119 = Some (119, st)
          ∧ Maze.path_nodes 120 (Maze.parent st) 0 119 = Some (Z.of_nat <$> seq 0 120)
          ∧ MazeRun.path_nodes 120 (Maze.parent st) 0 119 = Some PastBuffer.
Proof.
  assert (maze_edges_in_range (line_maze 120)) as Hg
    by (by apply maze_edges_ok_sound; vm_compute).
  assert (0 ≤ 0 < Maze.num_nodes (line_maze 120)) as Hs by (by vm_compute).
  destruct (Maze.bfs_search (line_maze 120) 0 119) as [[found st] |] eqn:Hrun;
    [| by vm_compute in Hrun].
  assert (found = 119) as ->.
  { assert (fst <$> Maze.bfs_search (line_maze 120) 0 119 = Some 119) as Hf
      by (by vm_compute).
    rewrite Hrun in Hf. by injection Hf. }
  assert (Maze.parent st = line_parent 120) as Hp.
  { assert ((Maze.parent ∘ snd) <$> Maze.bfs_search (line_maze 120) 0 119
            = Some (line_parent 120)) as Hf by (by vm_compute).
    rewrite Hrun in Hf. by injection Hf. }
  split; [done |]. split.
  - destruct (bfs_search_decides _ 0 119 Hg Hs)
      as (found' & st' & Hrun' & [[-> _] | (_ & _ & Hreach)]); [| done].
    rewrite Hrun in Hrun'. by injection Hrun'.
  - exists st. rewrite Hp. split; [done |]. split; by vm_compute.
Qed.

(** ** Depth-first search *)
Section dfs.
Import Maze.
Variable g : Graph.
Variables source target : Z.
Hypothesis g_edges : maze_edges_in_range g.
Hypothesis source_valid : 0 ≤ source < num_nodes g.

(** What holds of the arrays whenever a call of [dfs_recursive] has marked
    its node.  [r] numbers the marked nodes in the order they were marked. *)
Record dfs_inv (r : Z → nat) (st : dfs_state) : Prop := {
  dfs_len_visited : Z.of_nat (length (dvisited st)) = num_nodes g;
  dfs_len_parent : Z.of_nat (length (dparent st)) = num_nodes g;
  dfs_source_visited : rd false (dvisited st) source = true;
  dfs_source_parent : rd (-1) (dparent st) source = -1;
  dfs_unvisited : ∀ v, rd false (dvisited st) v = false → rd (-1) (dparent st) v = -1;
  dfs_parent_link : ∀ v, rd false (dvisited st) v = true → v ≠ source →
    rd false (dvisited st) (rd (-1) (dparent st) v) = true
    ∧ v ∈ adj g (rd (-1) (dparent st) v)
    ∧ (r (rd (-1)%Z (dparent st) v) < r v)%nat;
  dfs_rank_bound : ∀ v, rd false (dvisited st) v = true →
    (r v < count_true (dvisited st))%nat;
  dfs_reach : ∀ v, rd false (dvisited st) v = true → maze_reachable g source v
}.

(** Every marked node outside [stack] has all its neighbours marked. *)
Definition closed_but (stack : list Z) (st : dfs_state) : Prop :=
  ∀ v w, rd false (dvisited st) v = true → v ∉ stack → w ∈ adj g v →
    rd false (dvisited st) w = true.

Definition mark (st : dfs_state) (v : Z) : dfs_state :=
  {| dvisited := wr (dvisited st) v true; dparent := dparent st |}.

(** What a call from [current_node] on state [st] delivers. *)
Definition dfs_post (stack : list Z) (st : dfs_state)
    (res : option (bool * dfs_state)) : Prop :=
  ∃ b st' r',
    res = Some (b, st')
    ∧ dfs_inv r' st'
    ∧ (∀ v, rd false (dvisited st) v = true → rd false (dvisited st') v = true)
    ∧ (count_true (dvisited st) ≤ count_true (dvisited st'))%nat
    ∧ (b = true → rd false (dvisited st') target = true)
    ∧ (b = false → rd false (dvisited st') target = false ∧ closed_but stack st').

Lemma dfs_visited_in_range r st v :
  dfs_inv r st → rd false (dvisited st) v = true → 0 ≤ v < num_nodes g.
Proof.
  intros Hi Hv. apply rd_true_in_range in Hv. unfold in_range in Hv.
  by rewrite (dfs_len_visited _ _ Hi) in Hv.
Qed.

(** Descending into a fresh neighbour [nb] of the marked node [cur]. *)
Lemma dfs_descend_inv r st cur nb :
  dfs_inv r st →
  rd false (dvisited st) cur = true →
  nb ∈ adj g cur →
  rd false (dvisited st) nb = false →
  dfs_inv (upd r nb (count_true (dvisited st)))
          (mark {| dvisited := dvisited st; dparent := wr (dparent st) nb cur |} nb).
Proof.
  intros Hi Hcur Hnb Hfresh. pose proof (g_edges cur nb Hnb) as Hr.
  assert (in_range (dvisited st) nb) as Hnv
    by (unfold in_range; rewrite (dfs_len_visited _ _ Hi); done).
  assert (in_range (dparent st) nb) as Hnp
    by (unfold in_range; rewrite (dfs_len_parent _ _ Hi); done).
  assert (∀ v, rd false (wr (dvisited st) nb true) v = true ↔
               v = nb ∨ rd false (dvisited st) v = true) as Hvis.
  { intros v. rewrite rd_wr by done. case_decide; intuition congruence. }
  assert (∀ v, rd false (dvisited st) v = true →
               v ≠ nb ∧ upd r nb (count_true (dvisited st)) v = r v) as Hold.
  { intros v Hv. assert (v ≠ nb) by congruence. split; [done |].
    unfold upd. by case_decide. }
  assert (upd r nb (count_true (dvisited st)) nb = count_true (dvisited st)) as Hnew.
  { unfold upd. by case_decide. }
  pose proof (dfs_source_visited _ _ Hi) as Hsv.
  split; simpl.
  - by rewrite length_wr, (dfs_len_visited _ _ Hi).
  - by rewrite length_wr, (dfs_len_parent _ _ Hi).
  - apply Hvis. by right.
  - rewrite rd_wr_ne; [apply Hi |]. destruct (Hold _ Hsv). congruence.
  - intros v Hv. destruct (decide (v = nb)) as [-> | Hne].
    + rewrite rd_wr_eq in Hv by done. done.
    + rewrite rd_wr_ne in Hv by congruence. rewrite rd_wr_ne by congruence.
      by apply (dfs_unvisited _ _ Hi).
  - intros v Hv Hvs. apply Hvis in Hv as [-> | Hv].
    + rewrite rd_wr_eq by done. rewrite Hnew. destruct (Hold cur Hcur) as [_ ->].
      split_and!; [apply Hvis; by right | done |].
      apply (dfs_rank_bound _ _ Hi cur Hcur).
    + destruct (Hold v Hv) as [Hne ->].
      rewrite (rd_wr_ne (-1) (dparent st) nb v) by congruence.
      destruct (dfs_parent_link _ _ Hi v Hv Hvs) as (Hp & He & Hl).
      destruct (Hold _ Hp) as [_ ->]. split; [apply Hvis; by right | done].
  - intros v Hv. rewrite count_true_wr by done. apply Hvis in Hv as [-> | Hv].
    + rewrite Hnew. lia.
    + destruct (Hold v Hv) as [_ ->]. pose proof (dfs_rank_bound _ _ Hi v Hv). lia.
  - intros v Hv. apply Hvis in Hv as [-> | Hv]; [| by apply (dfs_reach _ _ Hi)].
    destruct (dfs_reach _ _ Hi cur Hcur) as [k Hk]. exists (S k). by eapply hops_step.
Qed.

Lemma mark_visited st cur v :
  in_range (dvisited st) cur →
  rd false (dvisited (mark st cur)) v = true ↔ v = cur ∨ rd false (dvisited st) v = true.
Proof. intros Hc. simpl. rewrite rd_wr by done. case_decide; intuition congruence. Qed.

(** The fuel suffices for a call when it is at least the number of
    unmarked nodes. *)
Definition dfs_fuel_ok (fuel : nat) (st : dfs_state) : Prop :=
  (length (dvisited st) ≤ fuel + count_true (dvisited st))%nat.

Definition dfs_call_ok (fuel : nat) : Prop :=
  ∀ cur st r stack,
    rd false (dvisited st) cur = false →
    0 ≤ cur < num_nodes g →
    dfs_inv r (mark st cur) →
    closed_but (cur :: stack) (mark st cur) →
    (cur ≠ target → rd false (dvisited st) target = false) →
    dfs_fuel_ok fuel st →
    dfs_post stack (mark st cur) (dfs_recursive fuel g cur target st).

(** The loop over the neighbours of the marked node [cur], given that the
    calls it makes behave. *)
Lemma dfs_neighbors_post f cur stack temp :
  dfs_call_ok f →
  (∀ w, w ∈ temp → w ∈ adj g cur) →
  ∀ st r,
    dfs_inv r st →
    rd false (dvisited st) cur = true →
    closed_but (cur :: stack) st →
    rd false (dvisited st) target = false →
    dfs_fuel_ok f st →
    ∃ b st' r',
      dfs_neighbors (λ n s, dfs_recursive f g n target s) cur temp st = Some (b, st')
      ∧ dfs_inv r' st'
      ∧ (∀ v, rd false (dvisited st) v = true → rd false (dvisited st') v = true)
      ∧ (count_true (dvisited st) ≤ count_true (dvisited st'))%nat
      ∧ (b = true → rd false (dvisited st') target = true)
      ∧ (b = false →
           rd false (dvisited st') target = false
           ∧ closed_but (cur :: stack) st'
           ∧ ∀ w, w ∈ temp → rd false (dvisited st') w = true).
Proof.
  intros Hrec. induction temp as [| nb rest IH]; intros Htemp st r Hi Hcur Hcl Ht Hfuel.
  { exists false, st, r. split_and!; try done. intros _. split_and!; try done.
    intros w Hw. by apply elem_of_nil in Hw. }
  assert (nb ∈ adj g cur) as Hnb by (apply Htemp; left).
  assert (∀ w, w ∈ rest → w ∈ adj g cur) as Hrest by (intros w Hw; apply Htemp; by right).
  simpl. destruct (rd false (dvisited st) nb) eqn:Hvnb.
  - destruct (IH Hrest st r Hi Hcur Hcl Ht Hfuel)
      as (b & st' & r' & Hres & Hi' & Hmono & Hcount & Htrue & Hfalse).
    exists b, st', r'. split_and!; try done. intros Hb.
    destruct (Hfalse Hb) as (? & ? & Hall). split_and!; try done.
    intros w Hw. apply elem_of_cons in Hw as [-> | Hw]; [by apply Hmono | by apply Hall].
  - set (st_a := {| dvisited := dvisited st; dparent := wr (dparent st) nb cur |}).
    pose proof (g_edges cur nb Hnb) as Hnr.
    assert (in_range (dvisited st) nb) as Hnv
      by (unfold in_range; rewrite (dfs_len_visited _ _ Hi); done).
    destruct (Hrec nb st_a (upd r nb (count_true (dvisited st))) (cur :: stack))
      as (b1 & st1 & r1 & Hres & Hi1 & Hmono1 & Hcount1 & Htrue1 & Hfalse1);
      try done.
    { by apply dfs_descend_inv. }
    { intros v w Hv Hnot Hw. rewrite !not_elem_of_cons in Hnot.
      apply mark_visited in Hv as [-> | Hv]; [tauto | | done].
      apply mark_visited; [done |]. right. apply (Hcl v w); [done | | done].
      rewrite not_elem_of_cons. tauto. }
    rewrite Hres.
    assert (∀ v, rd false (dvisited st) v = true → rd false (dvisited st1) v = true)
      as Hmono.
    { intros v Hv. apply Hmono1. apply mark_visited; [done | by right]. }
    assert (count_true (dvisited st) ≤ count_true (dvisited st1))%nat as Hcount.
    { simpl in Hcount1. rewrite count_true_wr in Hcount1 by done. lia. }
    destruct b1.
    + exists true, st1, r1. split_and!; done.
    + destruct (Hfalse1 eq_refl) as [Ht1 Hcl1].
      destruct (IH Hrest st1 r1 Hi1 (Hmono _ Hcur) Hcl1 Ht1)
        as (b & st' & r' & Hres' & Hi' & Hmono' & Hcount' & Htrue' & Hfalse').
      { unfold dfs_fuel_ok in *.
        assert (length (dvisited st1) = length (dvisited st)) as ->; [| lia].
        apply Nat2Z.inj. by rewrite (dfs_len_visited _ _ Hi1), (dfs_len_visited _ _ Hi). }
      exists b, st', r'. split_and!; try done.
      * intros v Hv. by apply Hmono', Hmono.
      * lia.
      * intros Hb. destruct (Hfalse' Hb) as (? & ? & Hall). split_and!; try done.
        intros w Hw. apply elem_of_cons in Hw as [-> | Hw]; [| by apply Hall].
        apply Hmono', Hmono1. apply mark_visited; [done | by left].
Qed.

Lemma dfs_recursive_post fuel : dfs_call_ok fuel.
Proof.
  induction fuel as [| f IH]; intros cur st r stack Hfresh Hr Hi Hcl Ht Hfuel.
  { unfold dfs_fuel_ok in Hfuel.
    assert (in_range (dvisited st) cur) as Hin.
    { unfold in_range. pose proof (dfs_len_visited _ _ Hi) as Hl. simpl in Hl.
      rewrite length_wr in Hl. lia. }
    pose proof (count_true_unmarked _ _ Hin Hfresh). lia. }
  assert (in_range (dvisited st) cur) as Hin.
  { unfold in_range. pose proof (dfs_len_visited _ _ Hi) as Hl. simpl in Hl.
    rewrite length_wr in Hl. lia. }
  simpl. fold (mark st cur). destruct (Z.eqb_spec cur target) as [-> | Hne].
  { exists true, (mark st target), r. split_and!; try done.
    intros _. apply mark_visited; [done | by left]. }
  destruct (dfs_neighbors_post f cur stack (adj g cur) IH (λ _ H, H) (mark st cur) r)
    as (b & st' & r' & Hres & Hi' & Hmono & Hcount & Htrue & Hfalse); try done.
  { apply mark_visited; [done | by left]. }
  { simpl. rewrite rd_wr_ne by done. by apply Ht. }
  { unfold dfs_fuel_ok in *. simpl. rewrite length_wr, count_true_wr by done. lia. }
  exists b, st', r'. split_and!; try done. intros Hb.
  destruct (Hfalse Hb) as (Ht' & Hcl' & Hall). split; [done |].
  intros v w Hv Hnot Hw. destruct (decide (v = cur)) as [-> | Hvc]; [by apply Hall |].
  apply (Hcl' v w); [done | | done]. rewrite not_elem_of_cons. tauto.
Qed.

Lemma dfs_init_inv : dfs_inv (λ _, 0%nat) (mark (dfs_init g) source).
Proof.
  assert (in_range (replicate (Z.to_nat (num_nodes g)) false) source) as Hin.
  { unfold in_range. rewrite length_replicate. lia. }
  assert (∀ v, rd false (dvisited (dfs_init g)) v = false) as Hnone.
  { intros v. simpl. destruct (decide (0 ≤ v < Z.of_nat (Z.to_nat (num_nodes g)))).
    - by rewrite rd_replicate.
    - rewrite rd_out; [done |]. unfold in_range. by rewrite length_replicate. }
  assert (∀ v, rd (-1) (dparent (dfs_init g)) v = -1) as Hpar.
  { intros v. simpl. destruct (decide (0 ≤ v < Z.of_nat (Z.to_nat (num_nodes g)))).
    - by rewrite rd_replicate.
    - rewrite rd_out; [done |]. unfold in_range. by rewrite length_replicate. }
  assert (∀ v, rd false (dvisited (mark (dfs_init g) source)) v = true → v = source)
    as Hvis.
  { intros v Hv. apply mark_visited in Hv as [-> | Hv]; [done | | done].
    by rewrite Hnone in Hv. }
  split; try (intros v Hv; apply Hvis in Hv as ->).
  - simpl. rewrite length_wr, length_replicate. lia.
  - simpl. rewrite length_replicate. lia.
  - apply mark_visited; [done | by left].
  - apply Hpar.
  - intros v _. apply Hpar.
  - done.
  - simpl. rewrite count_true_wr, count_true_replicate; [lia | done | apply Hnone].
  - exists 0%nat. constructor.
Qed.

Lemma closed_reachable st v :
  closed_but [] st → rd false (dvisited st) source = true →
  maze_reachable g source v → rd false (dvisited st) v = true.
Proof.
  intros Hcl Hs [k Hk]. induction Hk as [| u v k _ IH Hv]; [done |].
  apply (Hcl u v); [done | apply not_elem_of_nil | done].
Qed.

Lemma dfs_inv_ranked r st :
  dfs_inv r st →
  ranked (num_nodes g) (dparent st) (λ v, if rd false (dvisited st) v then r v else 0%nat).
Proof.
  intros Hi v Hv. pose proof (count_true_le (dvisited st)) as Hcount.
  pose proof (dfs_len_visited _ _ Hi) as Hlen.
  destruct (rd false (dvisited st) v) eqn:Hvis.
  - split; [pose proof (dfs_rank_bound _ _ Hi v Hvis); lia |].
    destruct (decide (v = source)) as [-> | Hne]; [left; apply Hi |].
    destruct (dfs_parent_link _ _ Hi v Hvis Hne) as (Hp & _ & Hl).
    right. rewrite Hp. split; [by eapply dfs_visited_in_range | lia].
  - split; [lia |]. left. by apply (dfs_unvisited _ _ Hi).
Qed.

(** Everything the later theorems need about one run of the search. *)
Lemma dfs_search_facts :
  ∃ b st,
    dfs_search g source target = Some (b, st)
    ∧ rd (-1) (dparent st) source = -1
    ∧ (∃ r, ranked (num_nodes g) (dparent st) r)
    ∧ (b = true ↔ maze_reachable g source target)
    ∧ (b = true → 0 ≤ target < num_nodes g)
    ∧ (b = false → rd (-1) (dparent st) target = -1).
Proof.
  assert (in_range (dvisited (dfs_init g)) source) as Hin.
  { unfold in_range. simpl. rewrite length_replicate. lia. }
  assert (∀ v, rd false (dvisited (dfs_init g)) v = false) as Hnone.
  { intros v. simpl. destruct (decide (0 ≤ v < Z.of_nat (Z.to_nat (num_nodes g)))).
    - by rewrite rd_replicate.
    - rewrite rd_out; [done |]. unfold in_range. by rewrite length_replicate. }
  destruct (dfs_recursive_post (Z.to_nat (num_nodes g)) source (dfs_init g) (λ _, 0%nat) [])
    as (b & st & r & Hres & Hi & Hmono & _ & Htrue & Hfalse); try done.
  { apply dfs_init_inv. }
  { intros v w Hv Hnot. apply mark_visited in Hv as [-> | Hv]; [| | done].
    - exfalso. apply Hnot. left.
    - by rewrite Hnone in Hv. }
  { unfold dfs_fuel_ok. simpl. rewrite length_replicate. lia. }
  exists b, st. split; [done |]. split; [apply Hi |].
  split; [eexists; by apply dfs_inv_ranked |].
  assert (rd false (dvisited st) source = true) as Hs by apply Hi.
  split_and!.
  - split.
    + intros Hb. by apply (dfs_reach _ _ Hi), Htrue.
    + intros Hreach. destruct b; [done |]. destruct (Hfalse eq_refl) as [Ht Hcl].
      apply (closed_reachable st target Hcl Hs) in Hreach. congruence.
  - intros Hb. by apply (dfs_visited_in_range r st), Htrue.
  - intros Hb. apply (dfs_unvisited _ _ Hi). by apply Hfalse.
Qed.


(** The predecessor links of a marked node lead back to the source along
    edges of the graph, through nodes marked ever earlier. *)
Lemma dfs_chain r st :
  dfs_inv r st →
  ∀ k v, (r v ≤ k)%nat → rd false (dvisited st) v = true →
    ∃ l, chain (dparent st) source v l
         ∧ maze_path g l ∧ head l = Some source ∧ last l = Some v
         ∧ hops g source v (length l - 1)
         ∧ (length l ≤ S (r v))%nat.
Proof.
  intros Hi. induction k as [| k IH]; intros v Hk Hv.
  - destruct (decide (v = source)) as [-> | Hne].
    + exists [source]. split_and!; [constructor | done | done | done | constructor | simpl; lia].
    + destruct (dfs_parent_link _ _ Hi v Hv Hne) as (_ & _ & ?). lia.
  - destruct (decide (v = source)) as [-> | Hne].
    + exists [source]. split_and!; [constructor | done | done | done | constructor | simpl; lia].
    + destruct (dfs_parent_link _ _ Hi v Hv Hne) as (Hp & He & Hlt).
      destruct (IH (rd (-1) (dparent st) v) ltac:(lia) Hp)
        as (l & Hch & Hpath & Hhd & Hlast & Hhops & Hlen).
      assert (l ≠ []) as Hnil by (by destruct l).
      exists (l ++ [v]). split_and!.
      * constructor; [done | | done]. pose proof (dfs_visited_in_range _ _ _ Hi Hv). lia.
      * by eapply maze_path_snoc.
      * by destruct l.
      * by rewrite last_snoc.
      * rewrite length_app. simpl.
        replace (length l + 1 - 1)%nat with (S (length l - 1)) by (destruct l; simpl; [done | lia]).
        by eapply hops_step.
      * rewrite length_app. simpl. lia.
Qed.

(** When the search succeeds, its links give a path to the target. *)
Lemma dfs_search_path :
  ∃ b st,
    dfs_search g source target = Some (b, st)
    ∧ (b = true →
       ∃ l, chain (dparent st) source target l
            ∧ maze_path g l ∧ head l = Some source ∧ last l = Some target
            ∧ hops g source target (length l - 1)
            ∧ (length l ≤ Z.to_nat (num_nodes g))%nat).
Proof.
  assert (in_range (dvisited (dfs_init g)) source) as Hin.
  { unfold in_range. simpl. rewrite length_replicate. lia. }
  assert (∀ v, rd false (dvisited (dfs_init g)) v = false) as Hnone
    by (intros v; apply rd_replicate_default).
  destruct (dfs_recursive_post (Z.to_nat (num_nodes g)) source (dfs_init g) (λ _, 0%nat) [])
    as (b & st & r & Hres & Hi & _ & _ & Htrue & _); try done.
  { apply dfs_init_inv. }
  { intros v w Hv Hnot. apply mark_visited in Hv as [-> | Hv]; [| | done].
    - exfalso. apply Hnot. left.
    - by rewrite Hnone in Hv. }
  { unfold dfs_fuel_ok. simpl. rewrite length_replicate. lia. }
  exists b, st. split; [done |]. intros Hb. specialize (Htrue Hb).
  destruct (dfs_chain r st Hi (r target) target (le_n _) Htrue)
    as (l & Hch & Hpath & Hhd & Hlast & Hhops & Hlen).
  exists l. split_and!; try done.
  pose proof (dfs_rank_bound _ _ Hi _ Htrue). pose proof (count_true_le (dvisited st)).
  pose proof (dfs_len_visited _ _ Hi). lia.
Qed.

End dfs.

Lemma maze_print_path_ranked n parent r start_node end_node num_cols :
  ranked n parent r → 0 ≤ end_node < n →
  ∃ out, Maze.print_path (Z.to_nat n) parent start_node end_node num_cols = Some out.
Proof.
  intros Hr He. unfold Maze.print_path, Maze.path_nodes.
  destruct (end_node =? -1); [by eexists |].
  destruct (walk_ranked n parent r start_node Hr (Z.to_nat n) end_node [] He)
    as (path & -> & _); [apply Hr, He | by eexists].
Qed.

(** C7.  The search of [dfs], its call of [dfs_recursive] on the fresh
    arrays, returns, and it returns true exactly when the target can be
    reached from the source.  In the loop over the neighbours of a node, as
    soon as the call on an unmarked neighbour reports success the loop
    returns success with the state that call left, whatever neighbours
    remain in the list. *)
Theorem dfs_finds_iff_reachable (g : Maze.Graph) (source target : Z) :
  maze_edges_in_range g →
  0 ≤ source < Maze.num_nodes g →
  (∃ found st, Maze.dfs_search g source target = Some (found, st)
               ∧ (found = true ↔ maze_reachable g source target))
  ∧ (∀ recur current_node neighbor rest st st',
       rd false (Maze.dvisited st) neighbor = false →
       recur neighbor {| Maze.dvisited := Maze.dvisited st;
                         Maze.dparent := wr (Maze.dparent st) neighbor current_node |}
       = Some (true, st') →
       Maze.dfs_neighbors recur current_node (neighbor :: rest) st = Some (true, st')).
Proof.
  intros Hg Hs. split.
  - destruct (dfs_search_facts g source target Hg Hs)
      as (b & st & Hrun & _ & _ & Hiff & _).
    by exists b, st.
  - intros recur cur nb rest st st' Hfresh Hcall. simpl. by rewrite Hfresh, Hcall.
Qed.

Lemma dfs_finds_iff_reachable_witness :
  (∃ found st, Maze.dfs_search corridor 0 2 = Some (found, st)
               ∧ (found = true ↔ maze_reachable corridor 0 2))
  ∧ (∀ recur current_node neighbor rest st st',
       rd false (Maze.dvisited st) neighbor = false →
       recur neighbor {| Maze.dvisited := Maze.dvisited st;
                         Maze.dparent := wr (Maze.dparent st) neighbor current_node |}
       = Some (true, st') →
       Maze.dfs_neighbors recur current_node (neighbor :: rest) st = Some (true, st')).
Proof.
  apply (dfs_finds_iff_reachable corridor 0 2).
  - exact corridor_edges.
  - simpl. lia.
Defined.

(** ** Dijkstra: what holds on every graph *)

Definition transit_edges_in_range (g : Transit.Graph) : Prop :=
  ∀ u v w, (v, w) ∈ Transit.adj g u → 0 ≤ v < Transit.num_nodes g.

(** [route g s v d]: some directed path from [s] to [v] has edge weights
    summing to [d]. *)
Inductive route (g : Transit.Graph) (s : Z) : Z → Z → Prop :=
| route_here : route g s s 0
| route_step u v d w : route g s u d → (v, w) ∈ Transit.adj g u → route g s v (d + w).

Definition transit_reachable (g : Transit.Graph) (s v : Z) : Prop := ∃ d, route g s v d.

(** [d] is the least weight of a path from [s] to [v]. *)
Definition least_route (g : Transit.Graph) (s v d : Z) : Prop :=
  route g s v d ∧ ∀ d', route g s v d' → d ≤ d'.

Lemma fold_left_prefix_inv {A B} (f : A → B → A) (l : list B)
    (Q : list B → A → Prop) (a : A) :
  Q [] a →
  (∀ done x todo a', l = done ++ x :: todo → Q done a' → Q (done ++ [x]) (f a' x)) →
  Q l (fold_left f l a).
Proof.
  intros Hinit Hstep.
  assert (∀ todo done a', l = done ++ todo → Q done a' → Q l (fold_left f todo a')) as Hgen.
  { induction todo as [| x todo IH]; intros done a' Hl Hq; simpl.
    - by rewrite Hl, app_nil_r.
    - apply (IH (done ++ [x])); [by rewrite <- app_assoc | by eapply Hstep]. }
  by apply (Hgen l []).
Qed.


(** [along g l d]: the nodes of [l] are joined, each to the next, by edges
    of the graph whose weights sum to [d]. *)
Inductive along (g : Transit.Graph) : list Z → Z → Prop :=
| along_start u : along g [u] 0
| along_step l u v w d :
    along g l d → last l = Some u → (v, w) ∈ Transit.adj g u →
    along g (l ++ [v]) (d + w).

Lemma chain_last parent s v l : chain parent s v l → last l = Some v.
Proof. destruct 1; [done | by rewrite last_snoc]. Qed.

Section dijkstra_structure.
Import Transit.
Variable g : Graph.
Variable source : Z.
Hypothesis g_edges : transit_edges_in_range g.
Hypothesis source_valid : 0 ≤ source < num_nodes g.

(** Nothing settled yet: the state [dijkstra] starts its loop in. *)
Definition fresh (st : state) : Prop :=
  ∀ v, rd false (visited st) v = false
       ∧ (v ≠ source → 0 ≤ v < num_nodes g → rd 0 (dist st) v = INFINITY).

(** [r] numbers the settled nodes in the order they were settled. *)
Record dij_inv (r : Z → nat) (st : state) : Prop := {
  dij_len_dist : Z.of_nat (length (dist st)) = num_nodes g;
  dij_len_visited : Z.of_nat (length (visited st)) = num_nodes g;
  dij_len_parent : Z.of_nat (length (parent st)) = num_nodes g;
  dij_started : rd false (visited st) source = true ∨ fresh st;
  dij_source_dist : rd 0 (dist st) source = 0;
  dij_source_parent : rd (-1) (parent st) source = -1;
  dij_dist_int : ∀ v, 0 ≤ v < num_nodes g → rd 0 (dist st) v ≤ INFINITY;
  dij_parent_link : ∀ v, rd (-1) (parent st) v ≠ -1 →
    rd false (visited st) (rd (-1) (parent st) v) = true
    ∧ rd 0 (dist st) v ≠ INFINITY
    ∧ (rd false (visited st) v = true → (r (rd (-1)%Z (parent st) v) < r v)%nat);
  dij_reach : ∀ v, 0 ≤ v < num_nodes g → rd 0 (dist st) v ≠ INFINITY →
    transit_reachable g source v;
  dij_rank_bound : ∀ v, rd false (visited st) v = true →
    (r v < count_true (visited st))%nat
}.

Definition settled (st : state) (u : Z) : state :=
  {| dist := dist st; visited := wr (visited st) u true; parent := parent st |}.

Lemma init_inv : dij_inv (λ _, 0%nat) (init g source).
Proof.
  assert (∀ A (x d : A) v, rd d (replicate (Z.to_nat (num_nodes g)) x) v = x
                           ∨ rd d (replicate (Z.to_nat (num_nodes g)) x) v = d) as Hrep.
  { intros A x d v. destruct (decide (0 ≤ v < Z.of_nat (Z.to_nat (num_nodes g)))).
    - left. by rewrite rd_replicate.
    - right. rewrite rd_out; [done |]. unfold in_range. by rewrite length_replicate. }
  assert (in_range (replicate (Z.to_nat (num_nodes g)) INFINITY) source) as Hin.
  { unfold in_range. rewrite length_replicate. lia. }
  assert (∀ v, rd false (visited (init g source)) v = false) as Hnone.
  { intros v. simpl. by destruct (Hrep bool false false v). }
  split; simpl.
  - rewrite length_wr, length_replicate. lia.
  - rewrite length_replicate. lia.
  - rewrite length_replicate. lia.
  - right. intros v. split; [apply Hnone |]. intros Hne Hv. simpl.
    rewrite rd_wr_ne by congruence. rewrite rd_replicate; [done | lia].
  - by rewrite rd_wr_eq.
  - by destruct (Hrep Z (-1) (-1) source).
  - intros v Hv. rewrite rd_wr by done. case_decide; [done |].
    rewrite rd_replicate; [done | lia].
  - intros v Hv. by destruct (Hrep Z (-1) (-1) v).
  - intros v Hv. rewrite rd_wr by done. case_decide as Heq.
    + intros _. subst v. exists 0. constructor.
    + rewrite rd_replicate; [done | lia].
  - intros v Hv. pose proof (Hnone v) as Hn. simpl in Hn. congruence.
Qed.

Lemma select_cases st :
  0 ≤ num_nodes g →
  (∀ v, 0 ≤ v < num_nodes g → rd 0 (dist st) v ≤ INFINITY) →
  (select g st = -1 ∧ ∀ v, 0 ≤ v < num_nodes g → rd false (visited st) v = true)
  ∨ (unsettled g st (select g st)
     ∧ ∀ v, unsettled g st v → rd 0 (dist st) (select g st) ≤ rd 0 (dist st) v).
Proof.
  intros Hn Hint. pose proof (scan_scanned g st Hint Hn) as Hs. unfold select.
  destruct (scan g st) as [m u]. simpl in *.
  destruct Hs as [_ [(-> & _ & Hall) | (Hu & Hvu & _ & Hall)]]; [by left | right].
  split; [done |]. intros v [Hv Hvv]. destruct (Hall v Hv Hvv); lia.
Qed.

Lemma fresh_select r st : dij_inv r st → fresh st → select g st = source.
Proof.
  intros Hi Hf. destruct (select_cases st) as [[_ Hall] | [[Hu Huv] Hmin]];
    [lia | apply Hi | |].
  - destruct (Hf source) as [Hs _]. rewrite Hall in Hs by done. done.
  - destruct (decide (select g st = source)) as [| Hne]; [done |].
    assert (unsettled g st source) as Hsrc by (split; [done | apply Hf]).
    specialize (Hmin _ Hsrc). rewrite (dij_source_dist _ _ Hi) in Hmin.
    destruct (Hf (select g st)) as [_ Hinf]. rewrite Hinf in Hmin by done.
    unfold INFINITY, INT_MAX in Hmin. lia.
Qed.

Lemma settled_inv r st u :
  dij_inv r st →
  unsettled g st u →
  rd false (visited st) source = true ∨ u = source →
  dij_inv (upd r u (count_true (visited st))) (settled st u).
Proof.
  intros Hi [Hu Hfresh] Hsrc.
  assert (in_range (visited st) u) as Hin
    by (unfold in_range; rewrite (dij_len_visited _ _ Hi); done).
  assert (∀ v, rd false (wr (visited st) u true) v = true ↔
               v = u ∨ rd false (visited st) v = true) as Hvis.
  { intros v. rewrite rd_wr by done. case_decide; intuition congruence. }
  assert (∀ v, rd false (visited st) v = true →
               upd r u (count_true (visited st)) v = r v) as Hold.
  { intros v Hv. unfold upd. case_decide; [congruence | done]. }
  split; simpl; try apply Hi.
  - by rewrite length_wr, (dij_len_visited _ _ Hi).
  - left. apply Hvis. destruct Hsrc as [? | ->]; [by right | by left].
  - intros v Hv. destruct (dij_parent_link _ _ Hi v Hv) as (Hp & Hd & Hr).
    split_and!; [apply Hvis; by right | done |]. intros Hvv.
    rewrite (Hold _ Hp). apply Hvis in Hvv as [-> | Hvv].
    + unfold upd. case_decide; [| done]. apply (dij_rank_bound _ _ Hi _ Hp).
    + rewrite (Hold _ Hvv). by apply Hr.
  - intros v Hv. rewrite count_true_wr by done. apply Hvis in Hv as [-> | Hv].
    + unfold upd. case_decide; [lia | done].
    + rewrite (Hold _ Hv). pose proof (dij_rank_bound _ _ Hi v Hv). lia.
Qed.

Lemma relax_cases u st v w :
  (relax u st (v, w) = st
   ∧ (rd false (visited st) v = true
      ∨ rd 0 (dist st) u = INFINITY
      ∨ rd 0 (dist st) v ≤ wrap_int (rd 0 (dist st) u + w)))
  ∨ (rd false (visited st) v = false
     ∧ rd 0 (dist st) u ≠ INFINITY
     ∧ wrap_int (rd 0 (dist st) u + w) < rd 0 (dist st) v
     ∧ relax u st (v, w)
       = {| dist := wr (dist st) v (wrap_int (rd 0 (dist st) u + w));
            visited := visited st;
            parent := wr (parent st) v u |}).
Proof.
  unfold relax. destruct (rd false (visited st) v); [left; split; [done | by left] |].
  destruct (Z.eqb_spec (rd 0 (dist st) u) INFINITY);
    [left; split; [done | right; by left] |].
  destruct (Z.ltb_spec (wrap_int (rd 0 (dist st) u + w)) (rd 0 (dist st) v));
    [by right | left; split; [done | right; by right]].
Qed.

Lemma relax_inv r st u v w :
  dij_inv r st →
  rd false (visited st) u = true →
  rd false (visited st) source = true →
  (v, w) ∈ adj g u →
  dij_inv r (relax u st (v, w)).
Proof.
  intros Hi Hu Hsrc He.
  destruct (relax_cases u st v w) as [[-> _] | (Hv & Hdu & Hlt & ->)]; [done |].
  pose proof (g_edges u v w He) as Hvr.
  assert (in_range (dist st) v) as Hvd
    by (unfold in_range; rewrite (dij_len_dist _ _ Hi); done).
  assert (in_range (parent st) v) as Hvp
    by (unfold in_range; rewrite (dij_len_parent _ _ Hi); done).
  assert (v ≠ source) as Hvs by congruence.
  assert (v ≠ u) as Hvu by congruence.
  pose proof (dij_dist_int _ _ Hi v Hvr) as Hvint.
  split; simpl; try apply Hi.
  - by rewrite length_wr, (dij_len_dist _ _ Hi).
  - by rewrite length_wr, (dij_len_parent _ _ Hi).
  - by left.
  - rewrite rd_wr_ne by done. apply Hi.
  - rewrite rd_wr_ne by done. apply Hi.
  - intros x Hx. rewrite rd_wr by done. case_decide; [lia | by apply Hi].
  - intros x. rewrite !(rd_wr _ _ v x) by done. case_decide as Hxv.
    + subst x. intros _. split_and!; [done | lia | congruence].
    + intros Hx. by apply (dij_parent_link _ _ Hi x Hx).
  - intros x Hx. rewrite rd_wr by done. case_decide as Hxv; [| by apply Hi].
    intros _. subst x.
    destruct (dij_reach _ _ Hi u) as [d Hd]; [| done |].
    + apply rd_true_in_range in Hu. unfold in_range in Hu.
      by rewrite (dij_len_visited _ _ Hi) in Hu.
    + exists (d + w). by eapply route_step.
Qed.

Lemma settle_inv r st u :
  dij_inv r (settled st u) →
  rd false (visited (settled st u)) u = true →
  rd false (visited (settled st u)) source = true →
  dij_inv r (settle g u st) ∧ visited (settle g u st) = visited (settled st u).
Proof.
  intros Hi Hu Hsrc. unfold settle. fold (settled st u).
  apply (fold_left_prefix_inv (relax u) (adj g u)
           (λ _ st', dij_inv r st' ∧ visited st' = visited (settled st u))); [done |].
  intros done [v w] todo st' Hadj [Hi' Hv']. split.
  - apply relax_inv; [done | by rewrite Hv' | by rewrite Hv' |].
    rewrite Hadj. apply elem_of_app. right. left.
  - by destruct (relax_cases u st' v w) as [[-> _] | (_ & _ & _ & ->)].
Qed.

(** One iteration of the main loop that does not take the [break]. *)
Lemma iteration_inv r st :
  dij_inv r st → select g st ≠ -1 →
  unsettled g st (select g st)
  ∧ ∃ r', dij_inv r' (settle g (select g st) st)
          ∧ visited (settle g (select g st) st) = wr (visited st) (select g st) true.
Proof.
  intros Hi Hsel.
  destruct (select_cases st) as [[? _] | [Hu Hmin]]; [lia | apply Hi | done |].
  split; [done |].
  assert (rd false (visited st) source = true ∨ select g st = source) as Hsrc.
  { destruct (dij_started _ _ Hi) as [? | Hf]; [by left | right].
    by eapply fresh_select. }
  pose proof (settled_inv r st _ Hi Hu Hsrc) as Hi1.
  assert (in_range (visited st) (select g st)) as Hin.
  { destruct Hu as [Hu _]. unfold in_range. by rewrite (dij_len_visited _ _ Hi). }
  destruct (settle_inv _ st (select g st) Hi1) as [Hi2 Hv2].
  - simpl. by apply rd_wr_eq.
  - simpl. rewrite rd_wr by done. case_decide; [done |]. destruct Hsrc; [done | congruence].
  - eexists. split; [exact Hi2 | exact Hv2].
Qed.

Lemma main_loop_inv k : ∀ r st, dij_inv r st → ∃ r', dij_inv r' (main_loop k g st).
Proof.
  induction k as [| k IH]; intros r st Hi; simpl; [by exists r |].
  destruct (Z.eqb_spec (select g st) (-1)) as [| Hsel]; [by exists r |].
  destruct (iteration_inv r st Hi Hsel) as (_ & r' & Hi' & _). by apply (IH r').
Qed.

Lemma dij_inv_ranked r st :
  dij_inv r st →
  ranked (num_nodes g) (parent st)
         (λ v, if rd false (visited st) v then r v else count_true (visited st)).
Proof.
  intros Hi v Hv. pose proof (count_true_le (visited st)) as Hcount.
  pose proof (dij_len_visited _ _ Hi) as Hlen.
  assert (in_range (visited st) v) as Hin by (unfold in_range; lia).
  split.
  - destruct (rd false (visited st) v) eqn:Hvis.
    + pose proof (dij_rank_bound _ _ Hi v Hvis). lia.
    + pose proof (count_true_unmarked _ _ Hin Hvis). lia.
  - destruct (decide (rd (-1) (parent st) v = -1)) as [| Hp]; [by left | right].
    destruct (dij_parent_link _ _ Hi v Hp) as (Hpv & _ & Hr). rewrite Hpv. split.
    + apply rd_true_in_range in Hpv. unfold in_range in Hpv. lia.
    + pose proof (dij_rank_bound _ _ Hi _ Hpv).
      destruct (rd false (visited st) v); [by apply Hr | done].
Qed.

(** Everything the later theorems need about one run, on any graph. *)
Lemma dijkstra_facts :
  let st := dijkstra_state g source in
  rd 0 (dist st) source = 0
  ∧ rd (-1) (parent st) source = -1
  ∧ (∃ r, ranked (num_nodes g) (parent st) r)
  ∧ ∀ v, 0 ≤ v < num_nodes g → ¬ transit_reachable g source v →
      rd 0 (dist st) v = INFINITY ∧ rd (-1) (parent st) v = -1.
Proof.
  destruct (main_loop_inv (Z.to_nat (num_nodes g - 1)) _ _ init_inv) as [r Hi].
  fold (dijkstra_state g source) in Hi. simpl. split_and!; try apply Hi.
  - eexists. by apply dij_inv_ranked.
  - intros v Hv Hun.
    assert (rd 0 (dist (dijkstra_state g source)) v = INFINITY) as Hd.
    { destruct (decide (rd 0 (dist (dijkstra_state g source)) v = INFINITY)); [done |].
      exfalso. apply Hun. by apply (dij_reach _ _ Hi). }
    split; [done |].
    destruct (decide (rd (-1) (parent (dijkstra_state g source)) v = -1)) as [| Hp]; [done |].
    by destruct (dij_parent_link _ _ Hi v Hp) as (_ & ? & _).
Qed.


(** ** Dijkstra: least distances *)
(** A finite distance is only ever given to a node that can be reached. *)
Lemma dijkstra_reached v :
  0 ≤ v < num_nodes g → rd 0 (dist (dijkstra_state g source)) v ≠ INFINITY →
  transit_reachable g source v.
Proof.
  destruct (main_loop_inv (Z.to_nat (num_nodes g - 1)) _ _ init_inv) as [r Hi].
  apply (dij_reach _ _ Hi).
Qed.

Section optimal.
Hypothesis weights_nonneg : ∀ u v w, (v, w) ∈ adj g u → 0 ≤ w.
Hypothesis no_overflow :
  ∀ u d v w, least_route g source u d → (v, w) ∈ adj g u → d + w < INT_MAX.

(** What the distances mean once the structural invariant holds. *)
Record dij_opt (st : state) : Prop := {
  opt_route : ∀ v, 0 ≤ v < num_nodes g → rd 0 (dist st) v ≠ INFINITY →
    route g source v (rd 0 (dist st) v);
  opt_relaxed : ∀ u v w, rd false (visited st) u = true → rd 0 (dist st) u ≠ INFINITY →
    (v, w) ∈ adj g u → rd 0 (dist st) v ≤ rd 0 (dist st) u + w;
  opt_settled_le : ∀ u v, rd false (visited st) u = true → unsettled g st v →
    rd 0 (dist st) u ≤ rd 0 (dist st) v
}.

Lemma route_nonneg v d : route g source v d → 0 ≤ d.
Proof.
  induction 1 as [| u v d w _ IH He]; [done |]. pose proof (weights_nonneg _ _ _ He). lia.
Qed.

Lemma route_in_range v d : route g source v d → 0 ≤ v < num_nodes g.
Proof. destruct 1; [done | by eapply g_edges]. Qed.

Lemma wrap_int_small z : 0 ≤ z ≤ INT_MAX → wrap_int z = z.
Proof.
  unfold wrap_int, INT_MAX. intros Hz.
  rewrite Z.mod_small by lia. lia.
Qed.

Lemma init_opt : dij_opt (init g source).
Proof.
  assert (in_range (replicate (Z.to_nat (num_nodes g)) INFINITY) source) as Hin.
  { unfold in_range. rewrite length_replicate. lia. }
  assert (∀ v, rd false (visited (init g source)) v = false) as Hnone.
  { intros v. simpl. apply rd_replicate_default. }
  split.
  - intros v Hv. simpl. rewrite rd_wr by done. case_decide as Heq.
    + intros _. subst v. constructor.
    + rewrite rd_replicate; [done | lia].
  - intros u v w Hu. by rewrite Hnone in Hu.
  - intros u v Hu. by rewrite Hnone in Hu.
Qed.

(** A path from the source either ends in a settled node whose distance is
    at most its weight, or passes an unsettled node with that property. *)
Lemma dij_frontier r st v d :
  dij_inv r st → dij_opt st → route g source v d →
  (rd false (visited st) v = true ∧ rd 0 (dist st) v ≤ d)
  ∨ (∃ y, unsettled g st y ∧ rd 0 (dist st) y ≤ d).
Proof.
  intros Hi Ho. induction 1 as [| u v d w Hroute IH He].
  - pose proof (dij_source_dist _ _ Hi) as H0.
    destruct (dij_started _ _ Hi) as [Hs | Hf]; [left; split; [done | lia] | right].
    exists source. split; [| lia]. split; [done | apply Hf].
  - pose proof (weights_nonneg _ _ _ He) as Hw. pose proof (g_edges _ _ _ He) as Hv.
    assert (rd 0 (dist st) v ≤ d + w →
            (rd false (visited st) v = true ∧ rd 0 (dist st) v ≤ d + w)
            ∨ (∃ y, unsettled g st y ∧ rd 0 (dist st) y ≤ d + w)) as Hsplit.
    { intros Hle. destruct (rd false (visited st) v) eqn:Hvv; [by left | right].
      exists v. by split. }
    destruct IH as [[Hu Hle] | (y & Hy & Hle)]; [| right; exists y; split; [done | lia]].
    apply Hsplit. destruct (decide (rd 0 (dist st) u = INFINITY)) as [Hinf | Hfin].
    + pose proof (dij_dist_int _ _ Hi v Hv). lia.
    + pose proof (opt_relaxed _ Ho u v w Hu Hfin He). lia.
Qed.

(** The node the scan chooses already has its least distance. *)
Lemma select_least r st u :
  dij_inv r st → dij_opt st →
  unsettled g st u →
  (∀ v, unsettled g st v → rd 0 (dist st) u ≤ rd 0 (dist st) v) →
  rd 0 (dist st) u ≠ INFINITY →
  least_route g source u (rd 0 (dist st) u).
Proof.
  intros Hi Ho [Hu Huv] Hmin Hfin. split; [by apply (opt_route _ Ho) |].
  intros d Hd. destruct (dij_frontier _ _ _ _ Hi Ho Hd) as [[Hv _] | (y & Hy & Hle)].
  - congruence.
  - specialize (Hmin y Hy). lia.
Qed.


(** While the edges of the node [u] just settled are relaxed: [du] is its
    distance and [done] the part of its list already looked at. *)
Record relaxing (u du : Z) (done : list AdjListNode) (st : state) : Prop := {
  rel_dist : rd 0 (dist st) u = du;
  rel_route : ∀ v, 0 ≤ v < num_nodes g → rd 0 (dist st) v ≠ INFINITY →
    route g source v (rd 0 (dist st) v);
  rel_relaxed : ∀ x v w, rd false (visited st) x = true → x ≠ u →
    rd 0 (dist st) x ≠ INFINITY → (v, w) ∈ adj g x →
    rd 0 (dist st) v ≤ rd 0 (dist st) x + w;
  rel_done : du ≠ INFINITY → ∀ v w, (v, w) ∈ done → rd 0 (dist st) v ≤ du + w;
  rel_settled_le : ∀ x v, rd false (visited st) x = true → unsettled g st v →
    rd 0 (dist st) x ≤ rd 0 (dist st) v;
  rel_older : ∀ x, rd false (visited st) x = true → rd 0 (dist st) x ≤ du
}.

Lemma relaxing_start r st u :
  dij_inv r st → dij_opt st →
  unsettled g st u →
  (∀ v, unsettled g st v → rd 0 (dist st) u ≤ rd 0 (dist st) v) →
  relaxing u (rd 0 (dist st) u) [] (settled st u).
Proof.
  intros Hi Ho [Hu Huv] Hmin.
  assert (in_range (visited st) u) as Hin
    by (unfold in_range; rewrite (dij_len_visited _ _ Hi); done).
  assert (∀ v, rd false (visited (settled st u)) v = true ↔
               v = u ∨ rd false (visited st) v = true) as Hvis.
  { intros v. simpl. rewrite rd_wr by done. case_decide; intuition congruence. }
  assert (∀ v, unsettled g (settled st u) v → unsettled g st v) as Hun.
  { intros v [Hv Hvv]. split; [done |].
    destruct (rd false (visited st) v) eqn:Hold; [| done].
    assert (rd false (visited (settled st u)) v = true) by (apply Hvis; by right).
    congruence. }
  split.
  - done.
  - apply Ho.
  - intros x v w Hx Hne. apply Hvis in Hx as [-> | Hx]; [done |]. by apply Ho.
  - intros _ v w Hv. by apply elem_of_nil in Hv.
  - intros x v Hx Hv. apply Hun in Hv. apply Hvis in Hx as [-> | Hx].
    + by apply Hmin.
    + by apply (opt_settled_le _ Ho).
  - intros x Hx. apply Hvis in Hx as [-> | Hx]; [simpl; lia |].
    by apply (opt_settled_le _ Ho).
Qed.

Lemma relaxing_step r st u du done v w :
  dij_inv r st →
  relaxing u du done st →
  rd false (visited st) u = true →
  (v, w) ∈ adj g u →
  (du ≠ INFINITY → least_route g source u du) →
  relaxing u du (done ++ [(v, w)]) (relax u st (v, w)).
Proof.
  intros Hi Hr Hu He Hleast.
  pose proof (weights_nonneg _ _ _ He) as Hw. pose proof (g_edges _ _ _ He) as Hvr.
  pose proof (rel_dist _ _ _ _ Hr) as Hdu.
  assert (du ≠ INFINITY → wrap_int (du + w) = du + w ∧ 0 ≤ du) as Hwrap.
  { intros Hfin. destruct (Hleast Hfin) as [Hroute Hmin].
    pose proof (route_nonneg _ _ Hroute). pose proof (no_overflow u du v w (Hleast Hfin) He).
    split; [apply wrap_int_small; lia | done]. }
  destruct (relax_cases u st v w) as [[-> Hwhy] | (Hv & Hfin & Hlt & ->)].
  - split; try apply Hr. intros Hfin v0 w0 Hin.
    apply elem_of_app in Hin as [Hin | Hin]; [by apply (rel_done _ _ _ _ Hr) |].
    apply list_elem_of_singleton in Hin. inversion Hin; subst v0 w0.
    destruct (Hwrap Hfin) as [Hwr _]. rewrite Hdu, Hwr in Hwhy.
    destruct Hwhy as [Hvv | [? | ?]]; [| done | done].
    pose proof (rel_older _ _ _ _ Hr v Hvv). lia.
  - rewrite Hdu in Hfin, Hlt |- *. destruct (Hwrap Hfin) as [Hwr Hdu0].
    rewrite Hwr in Hlt |- *.
    assert (in_range (dist st) v) as Hvd
      by (unfold in_range; rewrite (dij_len_dist _ _ Hi); done).
    assert (v ≠ u) as Hvu by congruence.
    assert (∀ y, rd 0 (wr (dist st) v (du + w)) y
                 = if decide (y = v) then du + w else rd 0 (dist st) y) as Hd'
      by (intros y; by apply rd_wr).
    assert (∀ x, rd false (visited st) x = true →
                 rd 0 (wr (dist st) v (du + w)) x = rd 0 (dist st) x) as Hsame.
    { intros x Hx. rewrite Hd'. case_decide; [congruence | done]. }
    assert (∀ y, rd 0 (wr (dist st) v (du + w)) y ≤ rd 0 (dist st) y) as Hdec.
    { intros y. rewrite Hd'. case_decide; [subst; lia | lia]. }
    split; simpl.
    + by rewrite Hsame.
    + intros x Hx. rewrite Hd'. case_decide as Hxv; [| by apply (rel_route _ _ _ _ Hr)].
      intros _. subst x. eapply route_step; [| exact He].
      rewrite <- Hdu. apply (rel_route _ _ _ _ Hr); [| by rewrite Hdu].
      apply rd_true_in_range in Hu. unfold in_range in Hu.
      by rewrite (dij_len_visited _ _ Hi) in Hu.
    + intros x v0 w0 Hx Hxu. rewrite (Hsame x Hx). intros Hxfin Hin.
      pose proof (rel_relaxed _ _ _ _ Hr x v0 w0 Hx Hxu Hxfin Hin).
      specialize (Hdec v0). lia.
    + intros _ v0 w0 Hin. apply elem_of_app in Hin as [Hin | Hin].
      * pose proof (rel_done _ _ _ _ Hr Hfin v0 w0 Hin). specialize (Hdec v0). lia.
      * apply list_elem_of_singleton in Hin. inversion Hin; subst v0 w0.
        rewrite Hd'. case_decide; [lia | done].
    + intros x v0 Hx Hv0. rewrite (Hsame x Hx). rewrite Hd'. case_decide.
      * pose proof (rel_older _ _ _ _ Hr x Hx). lia.
      * by apply (rel_settled_le _ _ _ _ Hr).
    + intros x Hx. rewrite (Hsame x Hx). by apply (rel_older _ _ _ _ Hr).
Qed.

Lemma relaxing_end u du st :
  relaxing u du (adj g u) st → dij_opt st.
Proof.
  intros Hr. split.
  - apply Hr.
  - intros x v w Hx Hfin Hin. destruct (decide (x = u)) as [-> | Hne].
    + rewrite (rel_dist _ _ _ _ Hr) in Hfin |- *. by apply (rel_done _ _ _ _ Hr).
    + by apply (rel_relaxed _ _ _ _ Hr).
  - apply Hr.
Qed.


Lemma iteration_opt r st :
  dij_inv r st → dij_opt st → select g st ≠ -1 →
  ∃ r', dij_inv r' (settle g (select g st) st)
        ∧ dij_opt (settle g (select g st) st)
        ∧ count_true (visited (settle g (select g st) st)) = S (count_true (visited st)).
Proof.
  intros Hi Ho Hsel.
  destruct (select_cases st) as [[? _] | [Hu Hmin]]; [lia | apply Hi | done |].
  set (u := select g st) in *.
  assert (rd false (visited st) source = true ∨ u = source) as Hsrc.
  { destruct (dij_started _ _ Hi) as [? | Hf]; [by left | right].
    by eapply fresh_select. }
  pose proof (settled_inv r st _ Hi Hu Hsrc) as Hi1.
  assert (in_range (visited st) u) as Hin.
  { destruct Hu as [Hu _]. unfold in_range. by rewrite (dij_len_visited _ _ Hi). }
  assert (rd false (visited (settled st u)) u = true) as Huv
    by (simpl; by apply rd_wr_eq).
  assert (rd false (visited (settled st u)) source = true) as Hsv.
  { simpl. rewrite rd_wr by done. case_decide; [done |]. destruct Hsrc; [done | congruence]. }
  set (r1 := upd r u (count_true (visited st))) in *.
  assert (dij_inv r1 (settle g u st)
          ∧ visited (settle g u st) = visited (settled st u)
          ∧ relaxing u (rd 0 (dist st) u) (adj g u) (settle g u st)) as (Hi2 & Hv2 & Hr2).
  { unfold settle. fold (settled st u).
    apply (fold_left_prefix_inv (relax u) (adj g u)
             (λ done st', dij_inv r1 st'
                          ∧ visited st' = visited (settled st u)
                          ∧ relaxing u (rd 0 (dist st) u) done st')).
    - split_and!; [done | done | by eapply relaxing_start].
    - intros done [v w] todo st' Hadj (Hi' & Hv' & Hr').
      assert ((v, w) ∈ adj g u) as He
        by (rewrite Hadj; apply elem_of_app; right; left).
      split_and!.
      + apply relax_inv; [done | by rewrite Hv' | by rewrite Hv' | done].
      + by destruct (relax_cases u st' v w) as [[-> _] | (_ & _ & _ & ->)].
      + eapply relaxing_step; [done | done | by rewrite Hv' | done |].
        intros Hfin. by eapply select_least. }
  exists r1. split_and!; [done | by eapply relaxing_end |].
  rewrite Hv2. simpl. apply count_true_wr; [done | apply Hu].
Qed.

Lemma main_loop_opt k :
  ∀ r st, dij_inv r st → dij_opt st →
    ∃ r', dij_inv r' (main_loop k g st)
          ∧ dij_opt (main_loop k g st)
          ∧ ((∀ v, 0 ≤ v < num_nodes g → rd false (visited (main_loop k g st)) v = true)
             ∨ count_true (visited (main_loop k g st)) = (count_true (visited st) + k)%nat).
Proof.
  induction k as [| k IH]; intros r st Hi Ho; simpl.
  { exists r. split_and!; [done | done | right; lia]. }
  destruct (Z.eqb_spec (select g st) (-1)) as [Hnone | Hsel].
  { exists r. split_and!; [done | done | left].
    destruct (select_cases st) as [[_ Hall] | [[Hu _] _]]; [lia | apply Hi | done | lia]. }
  destruct (iteration_opt r st Hi Ho Hsel) as (r1 & Hi1 & Ho1 & Hc1).
  destruct (IH r1 _ Hi1 Ho1) as (r' & Hi' & Ho' & Hc').
  exists r'. split_and!; [done | done |]. destruct Hc' as [? | Hc']; [by left | right]. lia.
Qed.

Lemma count_true_two l (i j : nat) :
  i ≠ j → l !! i = Some false → l !! j = Some false →
  (count_true l + 2 ≤ length l)%nat.
Proof.
  revert i j. induction l as [| b l IH]; intros [| i] [| j] Hne Hi Hj;
    simpl in *; try done.
  - inversion Hi; subst. pose proof (count_true_lt l j Hj). lia.
  - inversion Hj; subst. pose proof (count_true_lt l i Hi). lia.
  - assert (i ≠ j) as Hne' by congruence. specialize (IH i j Hne' Hi Hj).
    destruct b; lia.
Qed.

(** What the run has established when [dijkstra] returns. *)
Lemma dijkstra_final :
  ∃ r, dij_inv r (dijkstra_state g source)
       ∧ dij_opt (dijkstra_state g source)
       ∧ ∀ y y', unsettled g (dijkstra_state g source) y →
                 unsettled g (dijkstra_state g source) y' → y = y'.
Proof.
  destruct (main_loop_opt (Z.to_nat (num_nodes g - 1)) _ _ init_inv init_opt)
    as (r & Hi & Ho & Hcount).
  fold (dijkstra_state g source) in *. exists r. split_and!; [done | done |].
  intros y y' [Hy Hyv] [Hy' Hyv']. destruct Hcount as [Hall | Hcount].
  { rewrite Hall in Hyv by done. done. }
  destruct (decide (y = y')) as [| Hne]; [done | exfalso].
  simpl in Hcount. rewrite count_true_replicate in Hcount.
  pose proof (dij_len_visited _ _ Hi) as Hlen.
  assert (in_range (visited (dijkstra_state g source)) y) as Hin by (unfold in_range; lia).
  assert (in_range (visited (dijkstra_state g source)) y') as Hin' by (unfold in_range; lia).
  pose proof (count_true_two _ (Z.to_nat y) (Z.to_nat y') ltac:(lia)
                (rd_false_lookup _ _ Hin Hyv) (rd_false_lookup _ _ Hin' Hyv')).
  lia.
Qed.

Lemma dijkstra_least v :
  transit_reachable g source v →
  least_route g source v (rd 0 (dist (dijkstra_state g source)) v).
Proof.
  destruct dijkstra_final as (r & Hi & Ho & Hone).
  set (st := dijkstra_state g source) in *.
  assert (∀ x d, route g source x d → rd 0 (dist st) x ≤ d) as Hle.
  { intros x d Hd. pose proof (route_in_range _ _ Hd) as Hx.
    destruct (dij_frontier _ _ _ _ Hi Ho Hd) as [[_ ?] | (y & Hy & Hyd)]; [done |].
    destruct (rd false (visited st) x) eqn:Hxv.
    - pose proof (opt_settled_le _ Ho x y Hxv Hy). lia.
    - assert (x = y) as -> by (apply Hone; [by split | done]). done. }
  assert (∀ x d, route g source x d → rd 0 (dist st) x ≠ INFINITY) as Hfin.
  { intros x d. induction 1 as [| u x d w Hroute IH He].
    - rewrite (dij_source_dist _ _ Hi). done.
    - pose proof (route_in_range _ _ Hroute) as Hu. pose proof (g_edges _ _ _ He) as Hx.
      assert (least_route g source u (rd 0 (dist st) u)) as Hleast.
      { split; [by apply (opt_route _ Ho) | intros d' Hd'; by eapply Hle]. }
      pose proof (no_overflow _ _ _ _ Hleast He) as Hno.
      pose proof (weights_nonneg _ _ _ He) as Hw.
      pose proof (dij_dist_int _ _ Hi u Hu) as Huint.
      unfold INFINITY in *.
      destruct (rd false (visited st) u) eqn:Huv.
      + pose proof (opt_relaxed _ Ho u x w Huv IH He). lia.
      + destruct (rd false (visited st) x) eqn:Hxv.
        * pose proof (opt_settled_le _ Ho x u Hxv ltac:(by split)). lia.
        * assert (x = u) as -> by (apply Hone; by split). done. }
  intros [d Hd]. split.
  - apply (opt_route _ Ho); [by eapply route_in_range | by eapply Hfin].
  - intros d' Hd'. by eapply Hle.
Qed.


(** *** The predecessor links as a tree of least routes *)

(** Each link is an edge that accounts for the distance of its node. *)
Record dij_tree (st : state) : Prop := {
  tree_link : ∀ v, rd (-1) (parent st) v ≠ -1 →
    rd 0 (dist st) (rd (-1) (parent st) v) ≠ INFINITY
    ∧ ∃ w, (v, w) ∈ adj g (rd (-1) (parent st) v)
           ∧ rd 0 (dist st) v = rd 0 (dist st) (rd (-1) (parent st) v) + w;
  tree_root : ∀ v, 0 ≤ v < num_nodes g → rd 0 (dist st) v ≠ INFINITY → v ≠ source →
    rd (-1) (parent st) v ≠ -1
}.

Lemma init_tree : dij_tree (init g source).
Proof.
  assert (in_range (replicate (Z.to_nat (num_nodes g)) INFINITY) source) as Hin.
  { unfold in_range. rewrite length_replicate. lia. }
  split; simpl.
  - intros v Hv. by rewrite rd_replicate_default in Hv.
  - intros v Hv Hfin Hne. rewrite rd_wr_ne in Hfin by congruence.
    rewrite rd_replicate in Hfin; [done | lia].
Qed.

Lemma relax_tree r st u v w :
  dij_inv r st → dij_tree st →
  rd false (visited st) u = true →
  (v, w) ∈ adj g u →
  (rd 0 (dist st) u ≠ INFINITY →
     wrap_int (rd 0 (dist st) u + w) = rd 0 (dist st) u + w) →
  dij_tree (relax u st (v, w)).
Proof.
  intros Hi Ht Hu He Hwrap.
  destruct (relax_cases u st v w) as [[-> _] | (Hv & Hfin & Hlt & ->)]; [done |].
  rewrite (Hwrap Hfin) in *. pose proof (g_edges _ _ _ He) as Hvr.
  assert (in_range (dist st) v) as Hvd
    by (unfold in_range; rewrite (dij_len_dist _ _ Hi); done).
  assert (in_range (parent st) v) as Hvp
    by (unfold in_range; rewrite (dij_len_parent _ _ Hi); done).
  assert (∀ x, rd false (visited st) x = true →
               rd 0 (wr (dist st) v (rd 0 (dist st) u + w)) x = rd 0 (dist st) x) as Hsame.
  { intros x Hx. apply rd_wr_ne. congruence. }
  assert (0 ≤ u) as Hu0.
  { apply rd_true_in_range in Hu. unfold in_range in Hu. lia. }
  split; simpl.
  - intros x. rewrite (rd_wr (-1) (parent st)) by done. case_decide as Hxv.
    + subst x. intros _. rewrite (Hsame u Hu). split; [done |]. exists w.
      split; [done |]. by rewrite rd_wr_eq.
    + intros Hx. destruct (dij_parent_link _ _ Hi x Hx) as (Hp & _ & _).
      destruct (tree_link _ Ht x Hx) as (Hpfin & w' & He' & Hd').
      rewrite (Hsame _ Hp). split; [done |]. exists w'. split; [done |].
      rewrite rd_wr_ne by congruence. done.
  - intros x Hx. rewrite (rd_wr (-1) (parent st)) by done. rewrite rd_wr by done.
    case_decide; [intros; lia | by apply (tree_root _ Ht)].
Qed.

Lemma iteration_tree r st :
  dij_inv r st → dij_opt st → dij_tree st → select g st ≠ -1 →
  dij_tree (settle g (select g st) st).
Proof.
  intros Hi Ho Ht Hsel.
  destruct (select_cases st) as [[? _] | [Hu Hmin]]; [lia | apply Hi | done |].
  set (u := select g st) in *.
  assert (rd false (visited st) source = true ∨ u = source) as Hsrc.
  { destruct (dij_started _ _ Hi) as [? | Hf]; [by left | right].
    by eapply fresh_select. }
  pose proof (settled_inv r st _ Hi Hu Hsrc) as Hi1.
  assert (in_range (visited st) u) as Hin.
  { destruct Hu as [Hu _]. unfold in_range. by rewrite (dij_len_visited _ _ Hi). }
  assert (rd false (visited (settled st u)) u = true) as Huv
    by (simpl; by apply rd_wr_eq).
  assert (rd false (visited (settled st u)) source = true) as Hsv.
  { simpl. rewrite rd_wr by done. case_decide; [done |]. destruct Hsrc; [done | congruence]. }
  set (r1 := upd r u (count_true (visited st))) in *.
  assert (∀ v w, (v, w) ∈ adj g u → rd 0 (dist st) u ≠ INFINITY →
            wrap_int (rd 0 (dist st) u + w) = rd 0 (dist st) u + w) as Hwrap.
  { intros v w He Hfin. pose proof (select_least r st u Hi Ho Hu Hmin Hfin) as Hleast.
    pose proof (no_overflow _ _ _ _ Hleast He). pose proof (weights_nonneg _ _ _ He).
    destruct Hleast as [Hroute _]. pose proof (route_nonneg _ _ Hroute).
    apply wrap_int_small. lia. }
  unfold settle. fold (settled st u).
  apply (fold_left_prefix_inv (relax u) (adj g u)
           (λ _ st', dij_tree st'
                     ∧ dij_inv r1 st'
                     ∧ visited st' = visited (settled st u)
                     ∧ rd 0 (dist st') u = rd 0 (dist st) u)).
  - split_and!; [| done | done | done]. split; simpl; apply Ht.
  - intros done [v w] todo st' Hadj (Ht' & Hi' & Hv' & Hd').
    assert ((v, w) ∈ adj g u) as He
      by (rewrite Hadj; apply elem_of_app; right; left).
    split_and!.
    + eapply relax_tree; [done | done | by rewrite Hv' | done |].
      rewrite Hd'. by apply (Hwrap v).
    + apply relax_inv; [done | by rewrite Hv' | by rewrite Hv' | done].
    + by destruct (relax_cases u st' v w) as [[-> _] | (_ & _ & _ & ->)].
    + destruct (relax_cases u st' v w) as [[-> _] | (Hvv & _ & _ & ->)]; [done |].
      simpl. rewrite rd_wr_ne; [done |]. rewrite Hv' in Hvv. congruence.
Qed.

Lemma main_loop_tree k :
  ∀ r st, dij_inv r st → dij_opt st → dij_tree st → dij_tree (main_loop k g st).
Proof.
  induction k as [| k IH]; intros r st Hi Ho Ht; simpl; [done |].
  destruct (Z.eqb_spec (select g st) (-1)) as [Hnone | Hsel]; [done |].
  destruct (iteration_opt r st Hi Ho Hsel) as (r1 & Hi1 & Ho1 & _).
  apply (IH r1); [done | done | by eapply iteration_tree].
Qed.

(** From every node at a finite distance the links lead back to the source
    along edges whose weights sum to that distance. *)
Lemma dij_chain r st :
  dij_inv r st → dij_tree st →
  ∀ v, 0 ≤ v < num_nodes g → rd 0 (dist st) v ≠ INFINITY →
    ∃ l, chain (parent st) source v l
         ∧ along g l (rd 0 (dist st) v)
         ∧ head l = Some source
         ∧ (length l ≤ Z.to_nat (num_nodes g))%nat.
Proof.
  intros Hi Ht. pose proof (dij_inv_ranked r st Hi) as Hr.
  unfold ranked in Hr. cbv beta in Hr.
  set (rk := λ v, if rd false (visited st) v then r v else count_true (visited st)).
  assert (∀ v, 0 ≤ v < num_nodes g →
            (rk v < Z.to_nat (num_nodes g))%nat
            ∧ (rd (-1) (parent st) v = -1
               ∨ (0 ≤ rd (-1) (parent st) v < num_nodes g
                  ∧ (rk (rd (-1)%Z (parent st) v) < rk v)%nat))) as Hr' by exact Hr.
  clear Hr. rename Hr' into Hr.
  assert (∀ k v, (rk v ≤ k)%nat → 0 ≤ v < num_nodes g → rd 0 (dist st) v ≠ INFINITY →
            ∃ l, chain (parent st) source v l
                 ∧ along g l (rd 0 (dist st) v)
                 ∧ head l = Some source
                 ∧ (length l ≤ S (rk v))%nat) as Hgen.
  { induction k as [| k IH]; intros v Hk Hv Hfin.
    - destruct (decide (v = source)) as [-> | Hne].
      + exists [source]. rewrite (dij_source_dist _ _ Hi).
        split_and!; [constructor | constructor | done | simpl; lia].
      + pose proof (tree_root _ Ht v Hv Hfin Hne) as Hp.
        destruct (Hr v Hv) as [_ [? | [_ ?]]]; [done | lia].
    - destruct (decide (v = source)) as [-> | Hne].
      + exists [source]. rewrite (dij_source_dist _ _ Hi).
        split_and!; [constructor | constructor | done | simpl; lia].
      + pose proof (tree_root _ Ht v Hv Hfin Hne) as Hp.
        destruct (Hr v Hv) as [_ [? | [Hpr Hlt]]]; [done |].
        destruct (tree_link _ Ht v Hp) as (Hpfin & w & He & Hd).
        destruct (IH (rd (-1) (parent st) v) ltac:(lia) Hpr Hpfin)
          as (l & Hch & Hal & Hhd & Hlen).
        exists (l ++ [v]). rewrite Hd. split_and!.
        * constructor; [done | lia | done].
        * eapply along_step; [done | by eapply chain_last | done].
        * by destruct l.
        * rewrite length_app. simpl. lia. }
  intros v Hv Hfin. destruct (Hgen (rk v) v (le_n _) Hv Hfin) as (l & ? & ? & ? & Hlen).
  exists l. split_and!; try done. destruct (Hr v Hv) as [? _]. lia.
Qed.

(** A least distance is below the sentinel. *)
Lemma dijkstra_finite v :
  transit_reachable g source v → rd 0 (dist (dijkstra_state g source)) v ≠ INFINITY.
Proof.
  intros Hreach. pose proof (dijkstra_least v Hreach) as [Hroute Hmin].
  remember (rd 0 (dist (dijkstra_state g source)) v) as d eqn:Hd.
  destruct Hroute as [| u v d w Hu He]; [done |].
  pose proof (dijkstra_least u (ex_intro _ _ Hu)) as Hleast.
  pose proof (no_overflow _ _ _ _ Hleast He) as Hno.
  destruct Hleast as [Hru _].
  specialize (Hmin _ (route_step _ _ _ _ _ _ Hru He)). unfold INFINITY. lia.
Qed.

Lemma dijkstra_tree :
  ∃ r, dij_inv r (dijkstra_state g source) ∧ dij_tree (dijkstra_state g source).
Proof.
  destruct dijkstra_final as (r & Hi & _). exists r. split; [done |].
  eapply main_loop_tree; [apply init_inv | apply init_opt | apply init_tree].
Qed.

(** What [print_path] makes of the arrays of [dijkstra]. *)
Lemma dijkstra_route v :
  transit_reachable g source v →
  ∃ out l,
    print_path (Z.to_nat (num_nodes g)) (parent (dijkstra_state g source)) source v
    = Some out
    ∧ named_route out = Some l
    ∧ along g l (rd 0 (dist (dijkstra_state g source)) v)
    ∧ head l = Some source ∧ last l = Some v.
Proof.
  intros Hreach. destruct dijkstra_tree as (r & Hi & Ht).
  pose proof (dijkstra_finite v Hreach) as Hfin.
  assert (0 ≤ v < num_nodes g) as Hv by (destruct Hreach; by eapply route_in_range).
  destruct (dij_chain r _ Hi Ht v Hv Hfin) as (l & Hch & Hal & Hhd & Hlen).
  unfold print_path. destruct (Z.eqb_spec v source) as [-> | Hne].
  - do 2 eexists. split; [done |]. simpl. split; [done |].
    rewrite (dij_source_dist _ _ Hi). split_and!; [constructor | done | done].
  - pose proof (tree_root _ Ht v Hv Hfin Hne) as Hp.
    destruct (Z.eqb_spec (rd (-1) (parent (dijkstra_state g source)) v) (-1)); [done |].
    simpl. pose proof (rev_walk_chain _ _ _ _ (Z.to_nat (num_nodes g)) Hch ltac:(lia)) as Hw.
    destruct (walk _ _ _ _ _) as [path |]; [| done]. inversion Hw as [Hl].
    subst l. eexists. exists (rev (path ++ [source])). split; [done |].
    split_and!; [done | done | done | by eapply chain_last].
Qed.

(** The same route from the printer as it runs, when the buffer holds it. *)
Lemma dijkstra_route_run v :
  num_nodes g ≤ MAX_NODES →
  transit_reachable g source v →
  ∃ out l,
    TransitRun.print_path (Z.to_nat (num_nodes g)) (parent (dijkstra_state g source))
                          source v
    = Some (Finished out)
    ∧ named_route out = Some l
    ∧ along g l (rd 0 (dist (dijkstra_state g source)) v)
    ∧ head l = Some source ∧ last l = Some v.
Proof.
  intros Hmax Hreach. destruct dijkstra_tree as (r & Hi & Ht).
  pose proof (dijkstra_finite v Hreach) as Hfin.
  assert (0 ≤ v < num_nodes g) as Hv by (destruct Hreach; by eapply route_in_range).
  destruct (dij_chain r _ Hi Ht v Hv Hfin) as (l & Hch & Hal & Hhd & Hlen).
  unfold TransitRun.print_path. destruct (Z.eqb_spec v source) as [-> | Hne].
  - do 2 eexists. split; [done |]. simpl. split; [done |].
    rewrite (dij_source_dist _ _ Hi). split_and!; [constructor | done | done].
  - pose proof (tree_root _ Ht v Hv Hfin Hne) as Hp.
    destruct (Z.eqb_spec (rd (-1) (parent (dijkstra_state g source)) v) (-1)); [done |].
    simpl. rewrite (fill_path_chain _ _ _ _ _ _ Hch) by lia. simpl.
    eexists. exists l. split; [done |].
    split_and!; [done | done | done | by eapply chain_last].
Qed.

End optimal.

End dijkstra_structure.

(** ** The three searches side by side *)

Definition transit_edges_ok (g : Transit.Graph) : bool :=
  forallb (forallb (λ e : Z * Z, (0 <=? e.1) && (e.1 <? Transit.num_nodes g)))
          (Transit.adj_lists g).

Lemma transit_edges_ok_sound g : transit_edges_ok g = true → transit_edges_in_range g.
Proof.
  unfold transit_edges_ok, transit_edges_in_range, Transit.adj, rd. intros Hok u v w Hv.
  destruct (u <? 0); [by apply elem_of_nil in Hv |].
  destruct (Transit.adj_lists g !! Z.to_nat u) as [l |] eqn:Hl;
    [| by apply elem_of_nil in Hv].
  simpl in Hv. rewrite forallb_forall in Hok.
  apply list_elem_of_lookup_2, list_elem_of_In in Hl. specialize (Hok _ Hl).
  rewrite forallb_forall in Hok. apply list_elem_of_In in Hv. specialize (Hok _ Hv).
  simpl in Hok. lia.
Qed.

(** [bfs] always returns, with the arrays of its search. *)
Lemma maze_bfs_returns g source target num_rows num_cols :
  maze_edges_in_range g → 0 ≤ source < Maze.num_nodes g →
  ∃ found st out,
    Maze.bfs_search g source target = Some (found, st)
    ∧ Maze.bfs g source target num_rows num_cols
      = Some {| Maze.bfs_found := found; Maze.bfs_parent := Maze.parent st;
                Maze.bfs_printed := out |}
    ∧ (found = -1 → out = Maze.NoPathFound).
Proof.
  intros Hg Hs.
  destruct (bfs_search_facts g source target Hg Hs)
    as (found & st & Hrun & Hfound & _ & [r Hr] & _).
  exists found, st. unfold Maze.bfs. rewrite Hrun.
  destruct Hfound as [-> | [-> Ht]]; [by eexists |].
  destruct (Z.eqb_spec target (-1)); [lia |]. simpl.
  destruct (maze_print_path_ranked _ _ r source target num_cols Hr Ht) as [out ->].
  exists out. split_and!; [done | done | lia].
Qed.

(** [dfs] always returns, with the arrays of its search. *)
Lemma maze_dfs_returns g source target num_rows num_cols :
  maze_edges_in_range g → 0 ≤ source < Maze.num_nodes g →
  ∃ b st out,
    Maze.dfs_search g source target = Some (b, st)
    ∧ Maze.dfs g source target num_rows num_cols
      = Some {| Maze.dfs_found := b; Maze.dfs_parent := Maze.dparent st;
                Maze.dfs_printed := out |}
    ∧ (b = false → out = Maze.NoPathFound).
Proof.
  intros Hg Hs.
  destruct (dfs_search_facts g source target Hg Hs)
    as (b & st & Hrun & _ & [r Hr] & _ & Hrange & _).
  exists b, st. unfold Maze.dfs. rewrite Hrun. destruct b; [| by eexists].
  destruct (maze_print_path_ranked _ _ r source target num_cols Hr (Hrange eq_refl))
    as [out ->].
  by exists out.
Qed.

(** C10.  After the search of [bfs], after that of [dfs] and after
    [dijkstra], the predecessor of the source is still -1. *)
Theorem source_keeps_no_predecessor (gm : Maze.Graph) (gt : Transit.Graph)
    (source target start_node : Z) :
  maze_edges_in_range gm → 0 ≤ source < Maze.num_nodes gm →
  transit_edges_in_range gt → 0 ≤ start_node < Transit.num_nodes gt →
  (∃ found st, Maze.bfs_search gm source target = Some (found, st)
               ∧ rd (-1) (Maze.parent st) source = -1)
  ∧ (∃ found st, Maze.dfs_search gm source target = Some (found, st)
                 ∧ rd (-1) (Maze.dparent st) source = -1)
  ∧ rd (-1) (snd (Transit.dijkstra gt start_node)) start_node = -1.
Proof.
  intros Hgm Hs Hgt Hst. split; [| split].
  - destruct (bfs_search_facts gm source target Hgm Hs) as (found & st & Hrun & _ & Hp & _).
    by exists found, st.
  - destruct (dfs_search_facts gm source target Hgm Hs) as (b & st & Hrun & Hp & _).
    by exists b, st.
  - destruct (dijkstra_facts gt start_node Hgt Hst) as (_ & Hp & _). exact Hp.
Qed.

(** The transit network of the specification's example: A to B in 10,
    B to C in 5, A to C in 20. *)
Definition triangle : Transit.Graph :=
  Transit.add_edge (Transit.add_edge (Transit.add_edge
    (Transit.create_graph 3) 0 1 10) 1 2 5) 0 2 20.

Lemma triangle_edges : transit_edges_in_range triangle.
Proof. by apply transit_edges_ok_sound. Qed.

Lemma source_keeps_no_predecessor_witness :
  (∃ found st, Maze.bfs_search corridor 0 2 = Some (found, st)
               ∧ rd (-1) (Maze.parent st) 0 = -1)
  ∧ (∃ found st, Maze.dfs_search corridor 0 2 = Some (found, st)
                 ∧ rd (-1) (Maze.dparent st) 0 = -1)
  ∧ rd (-1) (snd (Transit.dijkstra triangle 0)) 0 = -1.
Proof.
  apply (source_keeps_no_predecessor corridor triangle 0 2 0).
  - exact corridor_edges.
  - simpl. lia.
  - exact triangle_edges.
  - simpl. lia.
Defined.

(** C4.  For a target that cannot be reached from the source: [bfs] ends
    with nothing found, the predecessor of the target still -1, and reports
    no path; [dfs] reports nothing found and no path; [dijkstra] leaves the
    target at distance [INFINITY] with predecessor -1, and [print_path] on its
    result reports that no path is available. *)
Theorem unreachable_reports_no_path (gm : Maze.Graph) (gt : Transit.Graph)
    (source target num_rows num_cols start_node end_node : Z) (fuel : nat) :
  maze_edges_in_range gm → 0 ≤ source < Maze.num_nodes gm →
  ¬ maze_reachable gm source target →
  transit_edges_in_range gt → 0 ≤ start_node < Transit.num_nodes gt →
  0 ≤ end_node < Transit.num_nodes gt →
  ¬ transit_reachable gt start_node end_node →
  (∃ res, Maze.bfs gm source target num_rows num_cols = Some res
          ∧ Maze.bfs_found res = -1
          ∧ rd (-1) (Maze.bfs_parent res) target = -1
          ∧ Maze.bfs_printed res = Maze.NoPathFound)
  ∧ (∃ res, Maze.dfs gm source target num_rows num_cols = Some res
            ∧ Maze.dfs_found res = false
            ∧ rd (-1) (Maze.dfs_parent res) target = -1
            ∧ Maze.dfs_printed res = Maze.NoPathFound)
  ∧ rd 0 (fst (Transit.dijkstra gt start_node)) end_node = Transit.INFINITY
  ∧ rd (-1) (snd (Transit.dijkstra gt start_node)) end_node = -1
  ∧ Transit.print_path fuel (snd (Transit.dijkstra gt start_node)) start_node end_node
    = Some (Transit.NoPathAvailable start_node end_node).
Proof.
  intros Hgm Hs Hun Hgt Hst Hen Htun.
  assert (rd 0 (fst (Transit.dijkstra gt start_node)) end_node = Transit.INFINITY
          ∧ rd (-1) (snd (Transit.dijkstra gt start_node)) end_node = -1) as [Hd Hp].
  { destruct (dijkstra_facts gt start_node Hgt Hst) as (_ & _ & _ & Hall).
    by apply Hall. }
  split_and!; try done.
  - destruct (bfs_search_facts gm source target Hgm Hs)
      as (found & st & Hrun & _ & _ & _ & _ & Hno).
    destruct (maze_bfs_returns gm source target num_rows num_cols Hgm Hs)
      as (found' & st' & out & Hrun' & -> & Hout).
    assert (found' = found ∧ st' = st) as [-> ->] by (split; congruence).
    destruct (Hno Hun) as [Hfound Hpar].
    eexists. split; [done |]. simpl. split_and!; [done | done | by apply Hout].
  - destruct (dfs_search_facts gm source target Hgm Hs)
      as (b & st & Hrun & _ & _ & Hiff & _ & Hpar).
    destruct (maze_dfs_returns gm source target num_rows num_cols Hgm Hs)
      as (b' & st' & out & Hrun' & -> & Hout).
    assert (b' = b ∧ st' = st) as [-> ->] by (split; congruence).
    assert (b = false) as Hb by (destruct b; [by destruct Hun; apply Hiff | done]).
    eexists. split; [done |]. simpl.
    split_and!; [done | by apply Hpar | by apply Hout].
  - unfold Transit.print_path.
    assert (end_node ≠ start_node) as Hne.
    { intros ->. apply Htun. exists 0. constructor. }
    destruct (Z.eqb_spec end_node start_node); [done |]. by rewrite Hp.
Qed.

Lemma maze_adj_create n u : Maze.adj (Maze.create_graph n) u = [].
Proof. apply rd_replicate_default. Qed.

Lemma transit_adj_create n u : Transit.adj (Transit.create_graph n) u = [].
Proof. apply rd_replicate_default. Qed.

(** Two cells with a wall between them. *)
Definition walled : Maze.Graph := Maze.create_graph 2.

Lemma walled_edges : maze_edges_in_range walled.
Proof. by apply maze_edges_ok_sound. Qed.

Lemma walled_apart : ¬ maze_reachable walled 0 1.
Proof.
  intros [k Hk]. inversion Hk as [| u v k' _ Hv]; subst.
  unfold walled in Hv. rewrite maze_adj_create in Hv. by apply elem_of_nil in Hv.
Qed.

Lemma islands_edges : transit_edges_in_range islands.
Proof. by apply transit_edges_ok_sound. Qed.

Lemma islands_apart : ¬ transit_reachable islands 0 1.
Proof.
  intros [d Hd]. inversion Hd as [| u v d' w _ Hv]; subst.
  unfold islands in Hv. rewrite transit_adj_create in Hv. by apply elem_of_nil in Hv.
Qed.

Lemma unreachable_reports_no_path_witness :
  (∃ res, Maze.bfs walled 0 1 1 2 = Some res
          ∧ Maze.bfs_found res = -1
          ∧ rd (-1) (Maze.bfs_parent res) 1 = -1
          ∧ Maze.bfs_printed res = Maze.NoPathFound)
  ∧ (∃ res, Maze.dfs walled 0 1 1 2 = Some res
            ∧ Maze.dfs_found res = false
            ∧ rd (-1) (Maze.dfs_parent res) 1 = -1
            ∧ Maze.dfs_printed res = Maze.NoPathFound)
  ∧ rd 0 (fst (Transit.dijkstra islands 0)) 1 = Transit.INFINITY
  ∧ rd (-1) (snd (Transit.dijkstra islands 0)) 1 = -1
  ∧ Transit.print_path 3 (snd (Transit.dijkstra islands 0)) 0 1
    = Some (Transit.NoPathAvailable 0 1).
Proof.
  apply (unreachable_reports_no_path walled islands 0 1 1 2 0 1 3).
  - exact walled_edges.
  - simpl. lia.
  - exact walled_apart.
  - exact islands_edges.
  - simpl. lia.
  - simpl. lia.
  - exact islands_apart.
Defined.

(** C8 (amended).  On a graph of at most [MAX_NODES] nodes (100 in the
    maze solver, 20 in the transit router), the predecessor array that the
    search of [bfs], that of [dfs] or [dijkstra] leaves has links only to
    nodes of lower rank, so they form no cycle, and the loop of
    [print_path] started at any node, whatever its stop node, ends within
    [num_nodes] executions of its body, having stored at most [num_nodes]
    nodes, all of them inside the buffer. *)
Theorem predecessor_walk_terminates (gm : Maze.Graph) (gt : Transit.Graph)
    (source target start_node : Z) :
  maze_edges_in_range gm → 0 ≤ source < Maze.num_nodes gm →
  Maze.num_nodes gm ≤ Maze.MAX_NODES →
  transit_edges_in_range gt → 0 ≤ start_node < Transit.num_nodes gt →
  Transit.num_nodes gt ≤ Transit.MAX_NODES →
  (∃ found st r, Maze.bfs_search gm source target = Some (found, st)
      ∧ ranked (Maze.num_nodes gm) (Maze.parent st) r
      ∧ ∀ v stop, 0 ≤ v < Maze.num_nodes gm →
          ∃ path, walk_buffer (Z.to_nat Maze.MAX_NODES) (Z.to_nat (Maze.num_nodes gm))
                              (Maze.parent st) stop v []
                  = Some (Finished path)
                  ∧ (length path ≤ Z.to_nat (Maze.num_nodes gm))%nat)
  ∧ (∃ found st r, Maze.dfs_search gm source target = Some (found, st)
      ∧ ranked (Maze.num_nodes gm) (Maze.dparent st) r
      ∧ ∀ v stop, 0 ≤ v < Maze.num_nodes gm →
          ∃ path, walk_buffer (Z.to_nat Maze.MAX_NODES) (Z.to_nat (Maze.num_nodes gm))
                              (Maze.dparent st) stop v []
                  = Some (Finished path)
                  ∧ (length path ≤ Z.to_nat (Maze.num_nodes gm))%nat)
  ∧ (∃ r, ranked (Transit.num_nodes gt) (snd (Transit.dijkstra gt start_node)) r
      ∧ ∀ v stop, 0 ≤ v < Transit.num_nodes gt →
          ∃ path, walk_buffer (Z.to_nat Transit.MAX_NODES)
                              (Z.to_nat (Transit.num_nodes gt))
                              (snd (Transit.dijkstra gt start_node)) stop v []
                  = Some (Finished path)
                  ∧ (length path ≤ Z.to_nat (Transit.num_nodes gt))%nat).
Proof.
  intros Hgm Hs Hmm Hgt Hst Hmt.
  assert (∀ n capacity parent r, ranked n parent r → n ≤ capacity →
            ∀ v stop, 0 ≤ v < n →
              ∃ path, walk_buffer (Z.to_nat capacity) (Z.to_nat n) parent stop v []
                      = Some (Finished path)
                      ∧ (length path ≤ Z.to_nat n)%nat) as Hwalk.
  { intros n capacity parent r Hr Hcap v stop Hv. destruct (Hr v Hv) as [Hlt _].
    destruct (walk_ranked n parent r stop Hr (Z.to_nat n) v [] Hv Hlt) as (path & Hp & Hlen).
    simpl in Hlen. exists path. split; [| lia]. apply walk_buffer_walk; [done | lia]. }
  split; [| split].
  - destruct (bfs_search_facts gm source target Hgm Hs)
      as (found & st & Hrun & _ & _ & [r Hr] & _).
    exists found, st, r. split; [done |]. split; [done | by eapply Hwalk].
  - destruct (dfs_search_facts gm source target Hgm Hs)
      as (b & st & Hrun & _ & [r Hr] & _).
    exists b, st, r. split; [done |]. split; [done | by eapply Hwalk].
  - destruct (dijkstra_facts gt start_node Hgt Hst) as (_ & _ & [r Hr] & _).
    exists r. split; [done | by eapply Hwalk].
Qed.

Lemma predecessor_walk_terminates_witness :
  (∃ found st r, Maze.bfs_search corridor 0 2 = Some (found, st)
      ∧ ranked (Maze.num_nodes corridor) (Maze.parent st) r
      ∧ ∀ v stop, 0 ≤ v < Maze.num_nodes corridor →
          ∃ path, walk_buffer (Z.to_nat Maze.MAX_NODES) (Z.to_nat (Maze.num_nodes corridor))
                              (Maze.parent st) stop v []
                  = Some (Finished path)
                  ∧ (length path ≤ Z.to_nat (Maze.num_nodes corridor))%nat)
  ∧ (∃ found st r, Maze.dfs_search corridor 0 2 = Some (found, st)
      ∧ ranked (Maze.num_nodes corridor) (Maze.dparent st) r
      ∧ ∀ v stop, 0 ≤ v < Maze.num_nodes corridor →
          ∃ path, walk_buffer (Z.to_nat Maze.MAX_NODES) (Z.to_nat (Maze.num_nodes corridor))
                              (Maze.dparent st) stop v []
                  = Some (Finished path)
                  ∧ (length path ≤ Z.to_nat (Maze.num_nodes corridor))%nat)
  ∧ (∃ r, ranked (Transit.num_nodes triangle) (snd (Transit.dijkstra triangle 0)) r
      ∧ ∀ v stop, 0 ≤ v < Transit.num_nodes triangle →
          ∃ path, walk_buffer (Z.to_nat Transit.MAX_NODES)
                              (Z.to_nat (Transit.num_nodes triangle))
                              (snd (Transit.dijkstra triangle 0)) stop v []
                  = Some (Finished path)
                  ∧ (length path ≤ Z.to_nat (Transit.num_nodes triangle))%nat).
Proof.
  apply (predecessor_walk_terminates corridor triangle 0 2 0).
  - exact corridor_edges.
  - simpl. lia.
  - by vm_compute.
  - exact triangle_edges.
  - simpl. lia.
  - by vm_compute.
Defined.

(** C8 (as claimed, refuted).  On the line of 25 stops [dijkstra] from
    stop 0 leaves each stop the one before it as predecessor; the walk back
    from the last stop comes to stop 0 after 24 steps, but the buffer of
    [print_path] holds 20 nodes and the loop stores past its end. *)
Lemma dijkstra_walk_overruns_buffer :
  transit_edges_in_range (line_transit 25)
  ∧ snd (Transit.dijkstra (line_transit 25) 0) = line_parent 25
  ∧ walk 25 (snd (Transit.dijkstra (line_transit 25) 0)) 0 24 []
    = Some (rev (Z.of_nat <$> seq 1 24))
  ∧ walk_buffer (Z.to_nat Transit.MAX_NODES) 25
                (snd (Transit.dijkstra (line_transit 25) 0)) 0 24 []
    = Some PastBuffer.
Proof.
  split; [by apply transit_edges_ok_sound; vm_compute |]. split_and!; by vm_compute.
Qed.

(** ** Dijkstra: the distances it returns *)

Definition transit_weights_ok (g : Transit.Graph) : bool :=
  forallb (forallb (λ e : Z * Z, 0 <=? e.2)) (Transit.adj_lists g).

Lemma transit_weights_ok_sound g :
  transit_weights_ok g = true → ∀ u v w, (v, w) ∈ Transit.adj g u → 0 ≤ w.
Proof.
  unfold transit_weights_ok, Transit.adj, rd. intros Hok u v w Hv.
  destruct (u <? 0); [by apply elem_of_nil in Hv |].
  destruct (Transit.adj_lists g !! Z.to_nat u) as [l |] eqn:Hl;
    [| by apply elem_of_nil in Hv].
  simpl in Hv. rewrite forallb_forall in Hok.
  apply list_elem_of_lookup_2, list_elem_of_In in Hl. specialize (Hok _ Hl).
  rewrite forallb_forall in Hok. apply list_elem_of_In in Hv. specialize (Hok _ Hv).
  simpl in Hok. lia.
Qed.

(** Two legs of 2^30 each: their sum does not fit an [int]. *)
Definition long_haul : Transit.Graph :=
  Transit.add_edge (Transit.add_edge (Transit.create_graph 3) 0 1 1073741824)
                   1 2 1073741824.

(** C1 (as claimed, refuted).  On [long_haul] every weight is non-negative
    and stop 2 is reached from stop 0 by a path of weight 2^31, yet
    [dijkstra] leaves a negative number in [dist[2]], which is the weight of
    no path at all. *)
Lemma dijkstra_wraps_around :
  (∀ u v w, (v, w) ∈ Transit.adj long_haul u → 0 ≤ w)
  ∧ route long_haul 0 2 2147483648
  ∧ rd 0 (fst (Transit.dijkstra long_haul 0)) 2 = -2147483648
  ∧ ¬ least_route long_haul 0 2 (rd 0 (fst (Transit.dijkstra long_haul 0)) 2).
Proof.
  assert (∀ u v w, (v, w) ∈ Transit.adj long_haul u → 0 ≤ w) as Hw
    by (by apply transit_weights_ok_sound).
  split_and!; [done | | done |].
  - change 2147483648 with (0 + 1073741824 + 1073741824).
    eapply route_step; [eapply route_step; [apply route_here |] |].
    + apply list_elem_of_In. by left.
    + apply list_elem_of_In. by left.
  - intros [Hroute _].
    assert (∀ v d, route long_haul 0 v d → 0 ≤ d) as Hpos.
    { induction 1 as [| u v d w _ IH He]; [done |]. specialize (Hw _ _ _ He). lia. }
    apply Hpos in Hroute. vm_compute in Hroute. by apply Hroute.
Qed.

(** C1 (amended).  On a graph whose edges stay in range, [dijkstra] leaves
    [dist[source] = 0].  If moreover the weights are non-negative and no
    relaxation can reach [INT_MAX] (a least distance plus the weight of an
    edge leaving that node stays below it), then for every node reachable
    from the source [dist] holds the least weight of a path from the source
    to it. *)
Theorem dijkstra_least_distances (g : Transit.Graph) (source : Z) :
  transit_edges_in_range g →
  0 ≤ source < Transit.num_nodes g →
  rd 0 (fst (Transit.dijkstra g source)) source = 0
  ∧ ((∀ u v w, (v, w) ∈ Transit.adj g u → 0 ≤ w) →
     (∀ u d v w, least_route g source u d → (v, w) ∈ Transit.adj g u → d + w < INT_MAX) →
     ∀ v, transit_reachable g source v →
       least_route g source v (rd 0 (fst (Transit.dijkstra g source)) v)).
Proof.
  intros Hg Hs. split.
  - by destruct (dijkstra_facts g source Hg Hs) as (? & _).
  - intros Hw Hno v Hv. by apply dijkstra_least.
Qed.

Lemma triangle_adj u :
  Transit.adj triangle u
  = if decide (u = 0) then [(2, 20); (1, 10)]
    else if decide (u = 1) then [(2, 5)] else [].
Proof.
  unfold Transit.adj, rd. destruct (Z.ltb_spec u 0).
  { repeat case_decide; (done || lia). }
  destruct (Z.to_nat u) as [| [| [| k]]] eqn:Hu; repeat case_decide; (done || lia).
Qed.

Lemma triangle_no_overflow u d v w :
  least_route triangle 0 u d → (v, w) ∈ Transit.adj triangle u → d + w < INT_MAX.
Proof.
  intros [_ Hmin] He. rewrite triangle_adj in He. unfold INT_MAX.
  repeat case_decide; subst.
  - assert (d ≤ 0) by (apply Hmin; constructor).
    apply list_elem_of_In in He. simpl in He.
    destruct He as [He | [He | []]]; inversion He; lia.
  - assert (d ≤ 0 + 10).
    { apply Hmin. eapply route_step; [constructor |]. rewrite triangle_adj. simpl.
      apply list_elem_of_In. right. by left. }
    apply list_elem_of_In in He. simpl in He.
    destruct He as [He | []]; inversion He; lia.
  - by apply elem_of_nil in He.
Qed.

Lemma dijkstra_least_distances_witness :
  rd 0 (fst (Transit.dijkstra triangle 0)) 0 = 0
  ∧ ∀ v, transit_reachable triangle 0 v →
      least_route triangle 0 v (rd 0 (fst (Transit.dijkstra triangle 0)) v).
Proof.
  destruct (dijkstra_least_distances triangle 0) as [H0 Hleast].
  - exact triangle_edges.
  - simpl. lia.
  - split; [exact H0 |]. apply Hleast.
    + by apply transit_weights_ok_sound.
    + exact triangle_no_overflow.
Defined.

(** The specification's scenario: C is at distance 15, through B. *)
Example triangle_via_b :
  Transit.dijkstra triangle 0 = ([0; 10; 15], [-1; 0; 1])
  ∧ least_route triangle 0 2 15.
Proof.
  split; [done |].
  apply (dijkstra_least triangle 0 triangle_edges ltac:(simpl; lia)
           (transit_weights_ok_sound triangle eq_refl) triangle_no_overflow 2).
  exists (0 + 20). eapply route_step; [constructor |]. rewrite triangle_adj. left.
Qed.

(** * Further properties of the transit router *)

(** ** Weights under a bound cannot overflow *)

(** [trail g u l v d]: from [u], taking the edges [l] in turn leads to [v],
    and their weights sum to [d]. *)
Inductive trail (g : Transit.Graph) : Z → list (Z * Z) → Z → Z → Prop :=
| trail_nil u : trail g u [] u 0
| trail_cons u v w l t d :
    (v, w) ∈ Transit.adj g u → trail g v l t d → trail g u ((v, w) :: l) t (w + d).

Section bounded_weights.
Variable g : Transit.Graph.
Variable source : Z.
Variable W : Z.
Hypothesis g_edges : transit_edges_in_range g.
Hypothesis source_valid : 0 ≤ source < Transit.num_nodes g.
Hypothesis weights_bounded : ∀ u v w, (v, w) ∈ Transit.adj g u → 0 ≤ w ≤ W.
Hypothesis sum_fits : Transit.num_nodes g * W < INT_MAX.

Lemma trail_snoc u l x d v w :
  trail g u l x d → (v, w) ∈ Transit.adj g x → trail g u (l ++ [(v, w)]) v (d + w).
Proof.
  induction 1 as [u | u y w' l t d He _ IH]; intros Hv; simpl.
  - replace (0 + w) with (w + 0) by lia. by repeat constructor.
  - replace (w' + d + w) with (w' + (d + w)) by lia. constructor; [done | by apply IH].
Qed.

Lemma route_trail v d : route g source v d → ∃ l, trail g source l v d.
Proof.
  induction 1 as [| u v d w _ [l Hl] He]; [exists []; constructor |].
  exists (l ++ [(v, w)]). by eapply trail_snoc.
Qed.

Lemma trail_route u l v d :
  trail g u l v d → ∀ d0, route g source u d0 → route g source v (d0 + d).
Proof.
  induction 1 as [u | u y w l t d He _ IH]; intros d0 Hu.
  - by rewrite Z.add_0_r.
  - replace (d0 + (w + d)) with (d0 + w + d) by lia. apply IH. by eapply route_step.
Qed.

Lemma trail_nonneg u l v d : trail g u l v d → 0 ≤ d.
Proof.
  induction 1 as [| u y w l t d He _ IH]; [done |].
  pose proof (weights_bounded _ _ _ He). lia.
Qed.

(** Starting later on a trail costs no more. *)
Lemma trail_from x l v d u :
  trail g x l v d → u ∈ x :: (l.*1) → NoDup (x :: l.*1) →
  ∃ l' d', trail g u l' v d' ∧ d' ≤ d ∧ NoDup (u :: l'.*1).
Proof.
  induction 1 as [x | x y w l t d He Hl IH]; intros Hu Hnd.
  - apply list_elem_of_singleton in Hu as ->. exists [], 0. split_and!; [constructor | done | done].
  - destruct (decide (u = x)) as [-> | Hne].
    + exists ((y, w) :: l), (w + d). split_and!; [by constructor | done | done].
    + apply elem_of_cons in Hu as [? | Hu]; [done |].
      apply NoDup_cons in Hnd as [_ Hnd].
      destruct (IH Hu Hnd) as (l' & d' & Hl' & Hd' & Hnd').
      exists l', d'. split_and!; [done | | done].
      pose proof (weights_bounded _ _ _ He). lia.
Qed.

(** Every trail can be cut down to one that meets no node twice. *)
Lemma trail_simple u l v d :
  trail g u l v d → ∃ l' d', trail g u l' v d' ∧ d' ≤ d ∧ NoDup (u :: l'.*1).
Proof.
  induction 1 as [u | u y w l t d He Hl (l1 & d1 & Hl1 & Hd1 & Hnd1)].
  - exists [], 0. split_and!; [constructor | done |]. apply NoDup_singleton.
  - pose proof (weights_bounded _ _ _ He) as Hw.
    destruct (decide (u ∈ y :: l1.*1)) as [Hin | Hout].
    + destruct (trail_from _ _ _ _ u Hl1 Hin Hnd1) as (l' & d' & Hl' & Hd' & Hnd').
      exists l', d'. split_and!; [done | lia | done].
    + exists ((y, w) :: l1), (w + d1). split_and!; [by constructor | lia |].
      simpl. by apply NoDup_cons.
Qed.

Lemma trail_in_range u l v d :
  trail g u l v d → ∀ x, x ∈ l.*1 → 0 ≤ x < Transit.num_nodes g.
Proof.
  induction 1 as [| u y w l t d He _ IH]; intros x Hx; simpl in Hx.
  - by apply elem_of_nil in Hx.
  - apply elem_of_cons in Hx as [-> | Hx]; [by eapply g_edges | by apply IH].
Qed.

Lemma trail_weight u l v d : trail g u l v d → d ≤ Z.of_nat (length l) * W.
Proof.
  induction 1 as [| u y w l t d He _ IH]; [simpl; lia |].
  pose proof (weights_bounded _ _ _ He). simpl length. lia.
Qed.

Lemma nodup_in_range (l : list Z) n :
  NoDup l → (∀ x, x ∈ l → 0 ≤ x < n) → (length l ≤ Z.to_nat n)%nat.
Proof.
  intros Hnd Hr. rewrite <- (length_seqZ 0 n).
  apply submseteq_length. apply NoDup_submseteq; [done |].
  intros x Hx. apply elem_of_seqZ. specialize (Hr x Hx). lia.
Qed.

(** The condition of [dijkstra_least] follows from the bound. *)
Lemma bounded_no_overflow u d v w :
  least_route g source u d → (v, w) ∈ Transit.adj g u → d + w < INT_MAX.
Proof.
  intros [Hroute Hmin] He. destruct (route_trail _ _ Hroute) as [l Hl].
  destruct (trail_simple _ _ _ _ Hl) as (l' & d' & Hl' & Hd' & Hnd).
  pose proof (trail_route _ _ _ _ Hl' 0 (route_here g source)) as Hr'.
  rewrite Z.add_0_l in Hr'. specialize (Hmin _ Hr').
  pose proof (trail_weight _ _ _ _ Hl') as Hlen.
  pose proof (weights_bounded _ _ _ He) as Hw.
  assert (length (source :: l'.*1) ≤ Z.to_nat (Transit.num_nodes g))%nat as Hn.
  { apply nodup_in_range; [done |]. intros x Hx.
    apply elem_of_cons in Hx as [-> | Hx]; [done | by eapply trail_in_range]. }
  simpl in Hn. rewrite length_fmap in Hn. nia.
Qed.

Lemma bounded_nonneg u v w : (v, w) ∈ Transit.adj g u → 0 ≤ w.
Proof. intros He. pose proof (weights_bounded _ _ _ He). lia. Qed.

End bounded_weights.

(** A computable form of the bound. *)
Definition transit_weights_within (g : Transit.Graph) (W : Z) : bool :=
  forallb (forallb (λ e : Z * Z, (0 <=? e.2) && (e.2 <=? W))) (Transit.adj_lists g).

Lemma transit_weights_within_sound g W :
  transit_weights_within g W = true →
  ∀ u v w, (v, w) ∈ Transit.adj g u → 0 ≤ w ≤ W.
Proof.
  unfold transit_weights_within, Transit.adj, rd. intros Hok u v w Hv.
  destruct (u <? 0); [by apply elem_of_nil in Hv |].
  destruct (Transit.adj_lists g !! Z.to_nat u) as [l |] eqn:Hl;
    [| by apply elem_of_nil in Hv].
  simpl in Hv. rewrite forallb_forall in Hok.
  apply list_elem_of_lookup_2, list_elem_of_In in Hl. specialize (Hok _ Hl).
  rewrite forallb_forall in Hok. apply list_elem_of_In in Hv. specialize (Hok _ Hv).
  simpl in Hok. lia.
Qed.

(** ** What [dijkstra] and [print_path] deliver together *)

(** X1.  On a graph of at most [MAX_NODES] nodes with its edges in range,
    no negative weight and no relaxation sum that reaches [INT_MAX], for a
    valid source and a destination that can be reached from it,
    [print_path] on the arrays of [dijkstra] keeps inside its buffer and
    names a sequence of nodes that starts at the source, ends at the
    destination and is joined by edges of the graph whose weights sum to
    [dist] of the destination, the least weight of any path. *)
Theorem dijkstra_prints_least_route (g : Transit.Graph) (source target : Z) :
  transit_edges_in_range g →
  0 ≤ source < Transit.num_nodes g →
  Transit.num_nodes g ≤ Transit.MAX_NODES →
  (∀ u v w, (v, w) ∈ Transit.adj g u → 0 ≤ w) →
  (∀ u d v w, least_route g source u d → (v, w) ∈ Transit.adj g u → d + w < INT_MAX) →
  transit_reachable g source target →
  ∃ out l,
    TransitRun.print_path (Z.to_nat (Transit.num_nodes g))
                          (snd (Transit.dijkstra g source)) source target
    = Some (Finished out)
    ∧ Transit.named_route out = Some l
    ∧ head l = Some source ∧ last l = Some target
    ∧ along g l (rd 0 (fst (Transit.dijkstra g source)) target)
    ∧ least_route g source target (rd 0 (fst (Transit.dijkstra g source)) target).
Proof.
  intros Hg Hs Hmax Hw Hno Hreach.
  destruct (dijkstra_route_run g source Hg Hs Hw Hno target Hmax Hreach)
    as (out & l & Hout & Hl & Hal & Hhd & Hlast).
  exists out, l. split_and!; try done. by apply dijkstra_least.
Qed.

Lemma triangle_reach_2 : transit_reachable triangle 0 2.
Proof.
  exists (0 + 20). eapply route_step; [constructor |]. rewrite triangle_adj. left.
Qed.

Lemma dijkstra_prints_least_route_witness :
  ∃ out l,
    TransitRun.print_path (Z.to_nat (Transit.num_nodes triangle))
                          (snd (Transit.dijkstra triangle 0)) 0 2
    = Some (Finished out)
    ∧ Transit.named_route out = Some l
    ∧ head l = Some 0 ∧ last l = Some 2
    ∧ along triangle l (rd 0 (fst (Transit.dijkstra triangle 0)) 2)
    ∧ least_route triangle 0 2 (rd 0 (fst (Transit.dijkstra triangle 0)) 2).
Proof.
  apply (dijkstra_prints_least_route triangle 0 2).
  - exact triangle_edges.
  - simpl. lia.
  - by vm_compute.
  - by apply transit_weights_ok_sound.
  - exact triangle_no_overflow.
  - exact triangle_reach_2.
Defined.

(** X2.  On a graph with its edges in range, no negative weight and no
    relaxation sum that reaches [INT_MAX], [dijkstra] from a valid source
    leaves a node of the graph at distance [INFINITY] exactly when no path
    leads to it from the source: the test [dist[end] == INFINITY] of [main]
    tells the two cases apart. *)
Theorem dijkstra_infinity_iff_unreachable (g : Transit.Graph) (source v : Z) :
  transit_edges_in_range g →
  0 ≤ source < Transit.num_nodes g →
  (∀ u v w, (v, w) ∈ Transit.adj g u → 0 ≤ w) →
  (∀ u d v w, least_route g source u d → (v, w) ∈ Transit.adj g u → d + w < INT_MAX) →
  0 ≤ v < Transit.num_nodes g →
  rd 0 (fst (Transit.dijkstra g source)) v = Transit.INFINITY
  ↔ ¬ transit_reachable g source v.
Proof.
  intros Hg Hs Hw Hno Hv. split.
  - intros Hinf Hreach. by apply (dijkstra_finite g source Hg Hs Hw Hno v Hreach).
  - intros Hun. destruct (dijkstra_facts g source Hg Hs) as (_ & _ & _ & Hall).
    by apply Hall.
Qed.

Lemma dijkstra_infinity_iff_unreachable_witness :
  rd 0 (fst (Transit.dijkstra triangle 0)) 2 = Transit.INFINITY
  ↔ ¬ transit_reachable triangle 0 2.
Proof.
  apply (dijkstra_infinity_iff_unreachable triangle 0 2).
  - exact triangle_edges.
  - simpl. lia.
  - by apply transit_weights_ok_sound.
  - exact triangle_no_overflow.
  - simpl. lia.
Defined.

(** X3.  On a graph with its edges in range, no negative weight and no
    relaxation sum that reaches [INT_MAX], no edge out of a node that can be
    reached from the source can improve the result of [dijkstra]:
    [dist[v] <= dist[u] + w] for every edge from [u] to [v] of weight
    [w]. *)
Theorem dijkstra_edges_relaxed (g : Transit.Graph) (source u v w : Z) :
  transit_edges_in_range g →
  0 ≤ source < Transit.num_nodes g →
  (∀ u v w, (v, w) ∈ Transit.adj g u → 0 ≤ w) →
  (∀ u d v w, least_route g source u d → (v, w) ∈ Transit.adj g u → d + w < INT_MAX) →
  transit_reachable g source u →
  (v, w) ∈ Transit.adj g u →
  rd 0 (fst (Transit.dijkstra g source)) v
  ≤ rd 0 (fst (Transit.dijkstra g source)) u + w.
Proof.
  intros Hg Hs Hw Hno Hu He.
  destruct (dijkstra_least g source Hg Hs Hw Hno u Hu) as [Hru _].
  destruct (dijkstra_least g source Hg Hs Hw Hno v) as [_ Hmin].
  { destruct Hu as [d Hd]. exists (d + w). by eapply route_step. }
  apply Hmin. by eapply route_step.
Qed.

Lemma dijkstra_edges_relaxed_witness :
  rd 0 (fst (Transit.dijkstra triangle 0)) 2
  ≤ rd 0 (fst (Transit.dijkstra triangle 0)) 0 + 20.
Proof.
  apply (dijkstra_edges_relaxed triangle 0 0 2 20).
  - exact triangle_edges.
  - simpl. lia.
  - by apply transit_weights_ok_sound.
  - exact triangle_no_overflow.
  - exists 0. constructor.
  - rewrite triangle_adj. left.
Defined.

(** X4.  On a graph with its edges in range, when every weight lies
    between 0 and a bound [W] and [num_nodes * W] is below [INT_MAX], no sum
    of [dijkstra] can overflow: from a valid source every node that can be
    reached gets the least weight of a path to it. *)
Theorem dijkstra_least_under_bound (g : Transit.Graph) (source W v : Z) :
  transit_edges_in_range g →
  0 ≤ source < Transit.num_nodes g →
  (∀ u v w, (v, w) ∈ Transit.adj g u → 0 ≤ w ≤ W) →
  Transit.num_nodes g * W < INT_MAX →
  transit_reachable g source v →
  least_route g source v (rd 0 (fst (Transit.dijkstra g source)) v).
Proof.
  intros Hg Hs Hw Hfit Hv. apply dijkstra_least; try done.
  - by eapply bounded_nonneg.
  - by eapply bounded_no_overflow.
Qed.

Lemma dijkstra_least_under_bound_witness :
  least_route triangle 0 2 (rd 0 (fst (Transit.dijkstra triangle 0)) 2).
Proof.
  apply (dijkstra_least_under_bound triangle 0 20 2).
  - exact triangle_edges.
  - simpl. lia.
  - by apply transit_weights_within_sound.
  - by vm_compute.
  - exact triangle_reach_2.
Defined.

(** ** The program around [dijkstra] *)

(** The stations of [main] (accents, where the source has any, left out). *)
Definition station_names : list string :=
  [ "Centro"; "Rodoviaria"; "Shopping"; "Parque"; "Hospital";
    "Aeroporto"; "Praia"; "Bairro Norte"; "Bairro Sul"; "Terminal Central" ]%string.

Definition num_stations : Z := 10.

(** The graph as [main] builds it: the names first, then the connections.
    Every allocation is taken to succeed. *)
Definition name_station (g : Transit.Graph) (i : nat) (name : string) : Transit.Graph :=
  match Transit.set_node_name true g (Z.of_nat i) name with
  | Transit.Returned (g', _) => g'
  | Transit.Exited => g
  end.

Definition main_graph : Transit.Graph :=
  fold_left (λ g '(src, dest, weight), Transit.add_edge g src dest weight)
    [ (0, 1, 10); (0, 2, 15); (1, 0, 12); (1, 3, 20); (2, 4, 8);
      (3, 5, 25); (4, 1, 7); (4, 6, 18); (5, 9, 30); (6, 9, 22);
      (7, 0, 5); (8, 0, 8); (9, 5, 28); (9, 6, 20); (3, 8, 10) ]
    (fold_left (λ g '(i, name), name_station g i name)
               (imap (λ i name, (i, name)) station_names)
               (Transit.create_graph num_stations)).

(** What a run of [main] writes after its greeting, and how it returns:
    [BadStart] and [BadEnd] are the two "indice invalido" exits with status
    1; [Trip] is the result block (the two station names, the minutes or -1,
    and what [print_path] wrote when it was called) with status 0. *)
Inductive main_outcome :=
| BadStart
| BadEnd
| Trip (from to : option string) (minutes : Z) (path : option Transit.printed).

Definition exit_status (o : main_outcome) : Z :=
  match o with
  | BadStart | BadEnd => 1
  | Trip _ _ _ _ => 0
  end.

(** [main] on the two numbers [scanf] stores.  The result is [None] only if
    the loop of [print_path] is cut short by its fuel. *)
Definition transit_main (start_index end_index : Z) : option main_outcome :=
  let graph := main_graph in
  if (start_index <? 0) || (start_index >=? num_stations) then Some BadStart
  else if (end_index <? 0) || (end_index >=? num_stations) then Some BadEnd
  else
    let '(dist, parent) := Transit.dijkstra graph start_index in
    let minutes :=
      if rd 0 dist end_index =? Transit.INFINITY then -1 else rd 0 dist end_index in
    let from := rd None (Transit.node_names graph) start_index in
    let to := rd None (Transit.node_names graph) end_index in
    if negb (rd 0 dist end_index =? Transit.INFINITY) then
      match Transit.print_path (Z.to_nat (Transit.num_nodes graph)) parent
                               start_index end_index with
      | Some out => Some (Trip from to minutes (Some out))
      | None => None
      end
    else Some (Trip from to minutes None).

Example main_graph_built :
  Transit.num_nodes main_graph = 10
  ∧ Transit.adj_lists main_graph = Transit.adj_lists city
  ∧ Transit.node_names main_graph = map Some station_names.
Proof. by vm_compute. Qed.

Example transit_main_runs :
  transit_main 0 9
  = Some (Trip (Some "Centro"%string) (Some "Terminal Central"%string) 63
               (Some (Transit.BestRoute [0; 2; 4; 6; 9])))
  ∧ transit_main 9 0
    = Some (Trip (Some "Terminal Central"%string) (Some "Centro"%string) (-1) None)
  ∧ transit_main 10 0 = Some BadStart
  ∧ transit_main 3 (-1) = Some BadEnd.
Proof. by vm_compute. Qed.

Lemma main_graph_edges : transit_edges_in_range main_graph.
Proof. by apply transit_edges_ok_sound. Qed.

Lemma main_graph_weights u v w : (v, w) ∈ Transit.adj main_graph u → 0 ≤ w ≤ 30.
Proof. by apply transit_weights_within_sound. Qed.

Lemma main_graph_named i :
  0 ≤ i < 10 → is_Some (rd None (Transit.node_names main_graph) i).
Proof.
  intros Hi. replace (Transit.node_names main_graph) with (Some <$> station_names)
    by (by vm_compute).
  unfold rd. destruct (Z.ltb_spec i 0); [lia |]. rewrite list_lookup_fmap.
  destruct (lookup_lt_is_Some_2 station_names (Z.to_nat i)) as [name ->]; [simpl; lia |].
  by eexists.
Qed.

(** X5.  [main] on any two numbers: a start outside 0..9 ends the run with
    status 1, and so does a destination outside 0..9; otherwise the run ends
    with status 0 and reports either -1 minutes and no route, exactly when
    the destination cannot be reached on the network, or the least travel
    time together with a route from start to destination over connections of
    the network that add up to it. *)
Theorem transit_main_reports (start_index end_index : Z) :
  (¬ 0 ≤ start_index < 10 → transit_main start_index end_index = Some BadStart)
  ∧ (0 ≤ start_index < 10 → ¬ 0 ≤ end_index < 10 →
       transit_main start_index end_index = Some BadEnd)
  ∧ (0 ≤ start_index < 10 → 0 ≤ end_index < 10 →
       ∃ from to minutes path,
         transit_main start_index end_index = Some (Trip (Some from) (Some to) minutes path)
         ∧ exit_status (Trip (Some from) (Some to) minutes path) = 0
         ∧ ((¬ transit_reachable main_graph start_index end_index
             ∧ minutes = -1 ∧ path = None)
            ∨ (least_route main_graph start_index end_index minutes
               ∧ ∃ out l, path = Some out
                          ∧ Transit.named_route out = Some l
                          ∧ head l = Some start_index ∧ last l = Some end_index
                          ∧ along main_graph l minutes))).
Proof.
  unfold transit_main, num_stations. split_and!.
  - intros Hs. destruct (Z.ltb_spec start_index 0), (Z.geb_spec start_index 10);
      simpl orb; cbv iota; (done || lia).
  - intros Hs He. destruct (Z.ltb_spec start_index 0), (Z.geb_spec start_index 10);
      simpl orb; cbv iota; try lia.
    destruct (Z.ltb_spec end_index 0), (Z.geb_spec end_index 10);
      simpl orb; cbv iota; (done || lia).
  - intros Hs He. destruct (Z.ltb_spec start_index 0), (Z.geb_spec start_index 10);
      simpl orb; cbv iota; try lia.
    destruct (Z.ltb_spec end_index 0), (Z.geb_spec end_index 10);
      simpl orb; cbv iota; try lia.
    destruct (main_graph_named start_index Hs) as [from ->].
    destruct (main_graph_named end_index He) as [to ->].
    assert (∀ u v w, (v, w) ∈ Transit.adj main_graph u → 0 ≤ w) as Hw
      by (intros u v w Hin; pose proof (main_graph_weights _ _ _ Hin); lia).
    assert (∀ u d v w, least_route main_graph start_index u d →
              (v, w) ∈ Transit.adj main_graph u → d + w < INT_MAX) as Hno.
    { apply (bounded_no_overflow main_graph start_index 30 main_graph_edges);
        [done | exact main_graph_weights | by vm_compute]. }
    unfold Transit.dijkstra. cbv beta iota zeta.
    set (st := Transit.dijkstra_state main_graph start_index).
    destruct (Z.eqb_spec (rd 0 (Transit.dist st) end_index) Transit.INFINITY)
      as [Hinf | Hfin]; cbv beta iota zeta delta [negb].
    + do 4 eexists. split; [done |]. split; [done |]. left. split_and!; try done.
      intros Hreach.
      by apply (dijkstra_finite main_graph start_index main_graph_edges Hs Hw Hno
                  end_index Hreach).
    + assert (transit_reachable main_graph start_index end_index) as Hreach
        by (by apply (dijkstra_reached main_graph start_index main_graph_edges Hs)).
      destruct (dijkstra_route main_graph start_index main_graph_edges Hs Hw Hno
                  end_index Hreach) as (out & l & Hout & Hl & Hal & Hhd & Hlast).
      fold st in Hout, Hal. rewrite Hout.
      do 4 eexists. split; [done |]. split; [done |]. right. split.
      * exact (dijkstra_least main_graph start_index main_graph_edges Hs Hw Hno
                 end_index Hreach).
      * exists out, l. done.
Qed.

(** ** Building a transit graph *)

(** The graph after [create_graph n] and one [add_edge] per entry
    ([src], [dest], [weight]) of [calls], in order. *)
Definition transit_build (n : Z) (calls : list (Z * Z * Z)) : Transit.Graph :=
  fold_left (λ g '(src, dest, weight), Transit.add_edge g src dest weight)
            calls (Transit.create_graph n).

(** The list nodes that the calls with source [u] ask for, in call order. *)
Definition asked_from (u : Z) (calls : list (Z * Z * Z)) : list (Z * Z) :=
  (λ c : Z * Z * Z, (c.1.2, c.2)) <$> filter (λ c : Z * Z * Z, c.1.1 = u) calls.

Lemma transit_add_edge_adj g src dest weight u :
  in_range (Transit.adj_lists g) src →
  Transit.adj (Transit.add_edge g src dest weight) u
  = if decide (u = src) then (dest, weight) :: Transit.adj g u else Transit.adj g u.
Proof.
  intros Hs. unfold Transit.adj, Transit.add_edge. simpl.
  rewrite rd_wr by done. by case_decide; subst.
Qed.

Lemma transit_build_snoc n calls src dest weight :
  transit_build n (calls ++ [(src, dest, weight)])
  = Transit.add_edge (transit_build n calls) src dest weight.
Proof. unfold transit_build. by rewrite fold_left_app. Qed.

Lemma transit_build_shape n calls :
  Transit.num_nodes (transit_build n calls) = n
  ∧ length (Transit.adj_lists (transit_build n calls)) = Z.to_nat n
  ∧ Transit.node_names (transit_build n calls) = replicate (Z.to_nat n) None.
Proof.
  induction calls as [| [[s d] w] calls IH] using rev_ind.
  - split_and!; [done | apply length_replicate | done].
  - rewrite transit_build_snoc. simpl. by rewrite length_wr.
Qed.

(** X6.  After [create_graph n] and any sequence of [add_edge] calls whose
    sources are nodes of the graph, the list of a node holds exactly the
    edges asked for from that node, the latest first, duplicates included;
    the node count is [n] and no name is set. *)
Theorem transit_build_adjacency (n : Z) (calls : list (Z * Z * Z)) (u : Z) :
  (∀ c, c ∈ calls → 0 ≤ c.1.1 < n) →
  Transit.adj (transit_build n calls) u = rev (asked_from u calls)
  ∧ Transit.num_nodes (transit_build n calls) = n
  ∧ Transit.node_names (transit_build n calls) = replicate (Z.to_nat n) None.
Proof.
  intros Hsrc. split; [| by destruct (transit_build_shape n calls) as (? & _ & ?)].
  induction calls as [| [[s d] w] calls IH] using rev_ind.
  - unfold transit_build. simpl. apply transit_adj_create.
  - rewrite transit_build_snoc, transit_add_edge_adj.
    + unfold asked_from in *. rewrite filter_app, fmap_app, rev_app_distr.
      rewrite IH by (intros c Hc; apply Hsrc, elem_of_app; by left).
      rewrite filter_cons, filter_nil. simpl.
      case_decide; case_decide; (done || congruence).
    + unfold in_range. destruct (transit_build_shape n calls) as (_ & -> & _).
      assert (0 ≤ s < n) as Hs
        by (apply (Hsrc (s, d, w)), elem_of_app; right; by apply list_elem_of_singleton).
      lia.
Qed.

Lemma transit_build_adjacency_witness :
  Transit.adj (transit_build 3 [(0, 1, 10); (0, 1, 10); (1, 2, 5); (0, 2, 20)]) 0
  = rev (asked_from 0 [(0, 1, 10); (0, 1, 10); (1, 2, 5); (0, 2, 20)])
  ∧ Transit.num_nodes (transit_build 3 [(0, 1, 10); (0, 1, 10); (1, 2, 5); (0, 2, 20)]) = 3
  ∧ Transit.node_names (transit_build 3 [(0, 1, 10); (0, 1, 10); (1, 2, 5); (0, 2, 20)])
    = replicate (Z.to_nat 3) None.
Proof.
  apply (transit_build_adjacency 3 [(0, 1, 10); (0, 1, 10); (1, 2, 5); (0, 2, 20)] 0).
  intros c Hc. apply list_elem_of_In in Hc. simpl in Hc.
  destruct Hc as [<- | [<- | [<- | [<- | []]]]]; simpl; lia.
Defined.

Example transit_build_keeps_duplicates :
  Transit.adj (transit_build 3 [(0, 1, 10); (0, 1, 10); (1, 2, 5); (0, 2, 20)]) 0
  = [(2, 20); (1, 10); (1, 10)].
Proof. reflexivity. Qed.

(** * Further properties of the maze solver *)

(** ** Cells and node indices *)

Lemma is_valid_spec r c num_rows num_cols :
  Maze.is_valid r c num_rows num_cols = true ↔ 0 ≤ r < num_rows ∧ 0 ≤ c < num_cols.
Proof. unfold Maze.is_valid. lia. Qed.

Lemma cell_index_plain r c num_rows num_cols :
  0 ≤ r < num_rows → 0 ≤ c < num_cols → num_rows * num_cols ≤ INT_MAX →
  Maze.map_coord_to_index r c num_cols = r * num_cols + c
  ∧ 0 ≤ r * num_cols + c < num_rows * num_cols.
Proof.
  intros Hr Hc Hfit. assert (0 ≤ r * num_cols + c < num_rows * num_cols) by nia.
  split; [| done]. unfold Maze.map_coord_to_index. apply wrap_int_small. lia.
Qed.

(** X7.  A cell inside a grid whose cell count fits an [int] gets a node
    index below that count, and [map_index_to_coord] gives the cell back. *)
Theorem maze_cell_to_index_and_back (r c num_rows num_cols : Z) :
  Maze.is_valid r c num_rows num_cols = true →
  num_rows * num_cols ≤ INT_MAX →
  0 ≤ Maze.map_coord_to_index r c num_cols < num_rows * num_cols
  ∧ Maze.map_index_to_coord (Maze.map_coord_to_index r c num_cols) num_cols
    = {| Maze.row := r; Maze.col := c |}.
Proof.
  intros Hv Hfit. apply is_valid_spec in Hv as [Hr Hc].
  destruct (cell_index_plain r c num_rows num_cols Hr Hc Hfit) as [-> Hi].
  split; [done |]. unfold Maze.map_index_to_coord.
  rewrite Z.quot_div_nonneg, Z.rem_mod_nonneg by lia. f_equal.
  - symmetry. apply Z.div_unique_pos with c; lia.
  - symmetry. apply Z.mod_unique_pos with r; lia.
Qed.

Lemma maze_cell_to_index_and_back_witness :
  0 ≤ Maze.map_coord_to_index 2 1 3 < 3 * 3
  ∧ Maze.map_index_to_coord (Maze.map_coord_to_index 2 1 3) 3
    = {| Maze.row := 2; Maze.col := 1 |}.
Proof.
  apply (maze_cell_to_index_and_back 2 1 3 3).
  - reflexivity.
  - by vm_compute.
Defined.

(** X8.  A node index below the cell count of a grid names a cell inside
    the grid, and [map_coord_to_index] gives the index back: cells and
    indices correspond one to one. *)
Theorem maze_index_to_cell_and_back (index num_rows num_cols : Z) :
  0 ≤ index < num_rows * num_cols →
  0 < num_cols →
  num_rows * num_cols ≤ INT_MAX →
  Maze.is_valid (Maze.row (Maze.map_index_to_coord index num_cols))
                (Maze.col (Maze.map_index_to_coord index num_cols))
                num_rows num_cols = true
  ∧ Maze.map_coord_to_index (Maze.row (Maze.map_index_to_coord index num_cols))
                            (Maze.col (Maze.map_index_to_coord index num_cols))
                            num_cols = index.
Proof.
  intros Hi Hc Hfit. unfold Maze.map_index_to_coord. simpl.
  rewrite Z.quot_div_nonneg, Z.rem_mod_nonneg by lia.
  pose proof (Z.div_mod index num_cols ltac:(lia)) as Hdm.
  pose proof (Z.mod_pos_bound index num_cols Hc) as Hm.
  assert (0 ≤ index / num_cols < num_rows) as Hq.
  { split; [apply Z.div_pos; lia |]. apply Z.div_lt_upper_bound; lia. }
  split; [apply is_valid_spec; lia |].
  unfold Maze.map_coord_to_index. rewrite wrap_int_small; lia.
Qed.

Lemma maze_index_to_cell_and_back_witness :
  Maze.is_valid (Maze.row (Maze.map_index_to_coord 7 3))
                (Maze.col (Maze.map_index_to_coord 7 3)) 3 3 = true
  ∧ Maze.map_coord_to_index (Maze.row (Maze.map_index_to_coord 7 3))
                            (Maze.col (Maze.map_index_to_coord 7 3)) 3 = 7.
Proof.
  apply (maze_index_to_cell_and_back 7 3 3).
  - lia.
  - lia.
  - by vm_compute.
Defined.

(** ** Building a maze graph *)

(** The graph after [create_graph n] and one [add_edge] per entry
    ([src], [dest]) of [calls], in order. *)
Definition maze_build (n : Z) (calls : list (Z * Z)) : Maze.Graph :=
  fold_left (λ g '(src, dest), Maze.add_edge g src dest) calls (Maze.create_graph n).

(** The list nodes one call links into the list of [u], first to last. *)
Definition linked_at (u : Z) (call : Z * Z) : list Z :=
  (if decide (u = call.1) then [call.2] else [])
  ++ (if decide (u = call.2) then [call.1] else []).

Lemma maze_add_edge_adj g src dest u :
  in_range (Maze.adj_lists g) src → in_range (Maze.adj_lists g) dest →
  Maze.adj (Maze.add_edge g src dest) u = rev (linked_at u (src, dest)) ++ Maze.adj g u.
Proof.
  intros Hs Hd. unfold Maze.adj, Maze.add_edge, linked_at. simpl.
  assert (in_range (wr (Maze.adj_lists g) src (dest :: rd [] (Maze.adj_lists g) src)) dest)
    as Hd' by (unfold in_range; by rewrite length_wr).
  rewrite (rd_wr _ _ dest u) by done. rewrite !(rd_wr _ _ src) by done.
  repeat case_decide; subst; (done || congruence).
Qed.

Lemma maze_build_snoc n calls src dest :
  maze_build n (calls ++ [(src, dest)]) = Maze.add_edge (maze_build n calls) src dest.
Proof. unfold maze_build. by rewrite fold_left_app. Qed.

Lemma maze_build_shape n calls :
  Maze.num_nodes (maze_build n calls) = n
  ∧ length (Maze.adj_lists (maze_build n calls)) = Z.to_nat n.
Proof.
  induction calls as [| [s d] calls IH] using rev_ind.
  - split; [done | apply length_replicate].
  - rewrite maze_build_snoc. simpl. by rewrite !length_wr.
Qed.

Definition calls_in_range (n : Z) (calls : list (Z * Z)) : Prop :=
  ∀ c, c ∈ calls → 0 ≤ c.1 < n ∧ 0 ≤ c.2 < n.

Lemma maze_build_adj n calls u :
  calls_in_range n calls →
  Maze.adj (maze_build n calls) u = rev (calls ≫= linked_at u).
Proof.
  intros Hr. induction calls as [| [s d] calls IH] using rev_ind.
  - unfold maze_build. simpl. apply maze_adj_create.
  - destruct (maze_build_shape n calls) as [_ Hlen].
    destruct (Hr (s, d)) as [Hs Hd]; [apply elem_of_app; right; left |]. simpl in Hs, Hd.
    rewrite maze_build_snoc, maze_add_edge_adj by (unfold in_range; lia).
    rewrite IH by (intros c Hc; apply Hr, elem_of_app; by left).
    rewrite bind_app, rev_app_distr. simpl. by rewrite app_nil_r.
Qed.

Lemma maze_build_elem n calls u v :
  calls_in_range n calls →
  v ∈ Maze.adj (maze_build n calls) u ↔ (u, v) ∈ calls ∨ (v, u) ∈ calls.
Proof.
  intros Hr. rewrite (maze_build_adj n calls u Hr).
  rewrite list_elem_of_In, <- in_rev, <- list_elem_of_In, list_elem_of_bind.
  unfold linked_at. split.
  - intros ([s d] & Hv & Hc). simpl in Hv. apply elem_of_app in Hv as [Hv | Hv];
      case_decide; try (by apply elem_of_nil in Hv);
      apply list_elem_of_singleton in Hv; subst; [by left | by right].
  - intros [Hc | Hc]; eexists; (split; [| exact Hc]); simpl; apply elem_of_app.
    + left. case_decide; [left | done].
    + right. case_decide; [left | done].
Qed.

(** X9.  After [create_graph n] and any sequence of [add_edge] calls on
    nodes of the graph, the list of a node holds, latest first, what each
    call linked into it: the other end of every call that names the node,
    once for each time it is named, repeated calls included. *)
Theorem maze_build_adjacency (n : Z) (calls : list (Z * Z)) (u : Z) :
  calls_in_range n calls →
  Maze.num_nodes (maze_build n calls) = n
  ∧ Maze.adj (maze_build n calls) u = rev (calls ≫= linked_at u).
Proof.
  intros Hr. split; [by destruct (maze_build_shape n calls) | by apply maze_build_adj].
Qed.

Lemma corridor_calls : calls_in_range 3 [(0, 1); (1, 2)].
Proof.
  intros c Hc. apply list_elem_of_In in Hc. simpl in Hc.
  destruct Hc as [<- | [<- | []]]; simpl; lia.
Qed.

Lemma maze_build_adjacency_witness :
  Maze.num_nodes (maze_build 3 [(0, 1); (1, 2)]) = 3
  ∧ Maze.adj (maze_build 3 [(0, 1); (1, 2)]) 1 = rev ([(0, 1); (1, 2)] ≫= linked_at 1).
Proof. apply (maze_build_adjacency 3 [(0, 1); (1, 2)] 1). exact corridor_calls. Defined.

Lemma hops_prepend g v u t k :
  u ∈ Maze.adj g v → hops g u t k → hops g v t (S k).
Proof.
  intros He. induction 1 as [| x y k _ IH Hy].
  - eapply hops_step; [constructor | done].
  - by eapply hops_step.
Qed.

Lemma hops_reverse g s t k :
  (∀ u v, v ∈ Maze.adj g u → u ∈ Maze.adj g v) → hops g s t k → hops g t s k.
Proof.
  intros Hsym. induction 1 as [| u v k _ IH Hv]; [constructor |].
  eapply hops_prepend; [by apply Hsym | done].
Qed.

(** X10.  A graph built by [add_edge] calls on its own nodes keeps every
    edge inside the graph and is undirected: each edge is stored in both
    lists, and whatever can be reached from a node can reach it back in as
    many steps. *)
Theorem maze_build_undirected (n : Z) (calls : list (Z * Z)) :
  calls_in_range n calls →
  maze_edges_in_range (maze_build n calls)
  ∧ (∀ u v, v ∈ Maze.adj (maze_build n calls) u ↔ u ∈ Maze.adj (maze_build n calls) v)
  ∧ (∀ s t k, hops (maze_build n calls) s t k → hops (maze_build n calls) t s k).
Proof.
  intros Hr.
  assert (∀ u v, v ∈ Maze.adj (maze_build n calls) u ↔ u ∈ Maze.adj (maze_build n calls) v)
    as Hsym by (intros u v; rewrite !maze_build_elem by done; tauto).
  split_and!; [| done |].
  - intros u v Hv. destruct (maze_build_shape n calls) as [-> _].
    apply maze_build_elem in Hv as [Hc | Hc]; [| | done]; apply Hr in Hc; simpl in Hc; lia.
  - intros s t k. apply hops_reverse. intros u v. by apply Hsym.
Qed.

Lemma maze_build_undirected_witness :
  maze_edges_in_range (maze_build 3 [(0, 1); (1, 2)])
  ∧ (∀ u v, v ∈ Maze.adj (maze_build 3 [(0, 1); (1, 2)]) u
            ↔ u ∈ Maze.adj (maze_build 3 [(0, 1); (1, 2)]) v)
  ∧ (∀ s t k, hops (maze_build 3 [(0, 1); (1, 2)]) s t k
              → hops (maze_build 3 [(0, 1); (1, 2)]) t s k).
Proof. apply (maze_build_undirected 3 [(0, 1); (1, 2)]). exact corridor_calls. Defined.

(** ** The two searches compared *)

Lemma maze_path_in_range g l s :
  maze_edges_in_range g → 0 ≤ s < Maze.num_nodes g → maze_path g l → head l = Some s →
  Forall (λ i, 0 ≤ i < Maze.num_nodes g) l.
Proof.
  intros Hg. revert s. induction l as [| u l IH]; intros s Hs Hpath Hhd; [constructor |].
  injection Hhd as ->. constructor; [done |]. destruct l as [| v l]; [constructor |].
  destruct Hpath as [Hv Hpath]. apply (IH v); [by eapply Hg | done | done].
Qed.

(** On a graph that fits the buffer, with a divisor that is not 0, the
    printer as it runs prints the cells of the chain. *)
Lemma maze_print_path_run g parent source target l num_cols :
  maze_edges_in_range g → 0 ≤ source < Maze.num_nodes g →
  Maze.num_nodes g ≤ Maze.MAX_NODES → num_cols ≠ 0 → target ≠ -1 →
  chain parent source target l → maze_path g l → head l = Some source →
  (length l ≤ Z.to_nat (Maze.num_nodes g))%nat →
  MazeRun.path_nodes (Z.to_nat (Maze.num_nodes g)) parent source target = Some (Finished l)
  ∧ MazeRun.print_path (Z.to_nat (Maze.num_nodes g)) parent source target num_cols
    = Some (Finished (Maze.PathFound (map (λ i, Maze.map_index_to_coord i num_cols) l))).
Proof.
  intros Hg Hs Hmax Hc Ht Hch Hpath Hhd Hlen.
  assert (MazeRun.path_nodes (Z.to_nat (Maze.num_nodes g)) parent source target
          = Some (Finished l)) as Hnodes.
  { unfold MazeRun.path_nodes. apply fill_path_chain; [done | lia |].
    unfold Maze.MAX_NODES, Maze.MAX_ROWS, Maze.MAX_COLS in *. lia. }
  split; [done |]. unfold MazeRun.print_path.
  destruct (Z.eqb_spec target (-1)); [done |]. rewrite Hnodes.
  rewrite print_cells_defined; [done | done |].
  eapply Forall_impl; [by eapply maze_path_in_range |]. simpl. lia.
Qed.

(** X11.  On the same graph, source and target, the search of [bfs] and
    that of [dfs] both return, and they agree: [bfs] finds the target
    exactly when [dfs_recursive] returns true, and that is exactly when the
    target can be reached. *)
Theorem bfs_dfs_agree (g : Maze.Graph) (source target : Z) :
  maze_edges_in_range g →
  0 ≤ source < Maze.num_nodes g →
  ∃ found stb b std,
    Maze.bfs_search g source target = Some (found, stb)
    ∧ Maze.dfs_search g source target = Some (b, std)
    ∧ (found ≠ -1 ↔ b = true)
    ∧ (found ≠ -1 ↔ maze_reachable g source target).
Proof.
  intros Hg Hs.
  destruct (bfs_search_decides g source target Hg Hs) as (found & stb & Hb & Hdec).
  destruct (dfs_search_facts g source target Hg Hs) as (b & std & Hd & _ & _ & Hiff & _).
  exists found, stb, b, std. split; [done |]. split; [done |].
  assert (found ≠ -1 ↔ maze_reachable g source target) as Hbr.
  { destruct Hdec as [[-> Hun] | (-> & Ht & Hreach)]; [tauto |]. split; [done | lia]. }
  split; [| done]. rewrite Hbr. symmetry. done.
Qed.

Lemma bfs_dfs_agree_witness :
  ∃ found stb b std,
    Maze.bfs_search corridor 0 2 = Some (found, stb)
    ∧ Maze.dfs_search corridor 0 2 = Some (b, std)
    ∧ (found ≠ -1 ↔ b = true)
    ∧ (found ≠ -1 ↔ maze_reachable corridor 0 2).
Proof.
  apply (bfs_dfs_agree corridor 0 2).
  - exact corridor_edges.
  - simpl. lia.
Defined.

(** X12.  On a graph of at most [MAX_NODES] nodes and with [num_cols] not
    0, when [dfs] has found the target its run ends with the cells printed,
    and they are those of a sequence of at most [num_nodes] nodes that
    starts at the source, ends at the target and follows edges of the
    graph. *)
Theorem dfs_prints_a_path (g : Maze.Graph) (source target num_rows num_cols : Z) :
  maze_edges_in_range g →
  0 ≤ source < Maze.num_nodes g →
  Maze.num_nodes g ≤ Maze.MAX_NODES →
  num_cols ≠ 0 →
  ∀ std, Maze.dfs_search g source target = Some (true, std) →
  ∃ nodes,
    MazeRun.path_nodes (Z.to_nat (Maze.num_nodes g)) (Maze.dparent std) source target
    = Some (Finished nodes)
    ∧ MazeRun.dfs g source target num_rows num_cols
      = Some (Finished
                {| Maze.dfs_found := true; Maze.dfs_parent := Maze.dparent std;
                   Maze.dfs_printed :=
                     Maze.PathFound (map (λ i, Maze.map_index_to_coord i num_cols) nodes) |})
    ∧ maze_path g nodes ∧ head nodes = Some source ∧ last nodes = Some target
    ∧ (length nodes ≤ Z.to_nat (Maze.num_nodes g))%nat.
Proof.
  intros Hg Hs Hmax Hc std Hrun.
  destruct (dfs_search_path g source target Hg Hs) as (b & st & Hd & Hpath).
  destruct (dfs_search_facts g source target Hg Hs) as (b' & st' & Hd' & _ & _ & _ & Hrange & _).
  assert (b = true ∧ st = std) as [-> ->] by (split; congruence).
  assert (b' = true ∧ st' = std) as [-> ->] by (split; congruence).
  destruct (Hpath eq_refl) as (l & Hch & Hp & Hhd & Hlast & _ & Hlen).
  specialize (Hrange eq_refl).
  destruct (maze_print_path_run g (Maze.dparent std) source target l num_cols)
    as [Hnodes Hprint]; try done; [lia |].
  exists l. split; [done |]. split; [| done].
  unfold MazeRun.dfs. by rewrite Hrun, Hprint.
Qed.

Lemma dfs_prints_a_path_witness :
  ∃ nodes,
    MazeRun.path_nodes (Z.to_nat (Maze.num_nodes corridor))
                       (Maze.dparent {| Maze.dvisited := [true; true; true];
                                        Maze.dparent := [-1; 0; 1] |}) 0 2
    = Some (Finished nodes)
    ∧ MazeRun.dfs corridor 0 2 1 3
      = Some (Finished
                {| Maze.dfs_found := true;
                   Maze.dfs_parent :=
                     Maze.dparent {| Maze.dvisited := [true; true; true];
                                     Maze.dparent := [-1; 0; 1] |};
                   Maze.dfs_printed :=
                     Maze.PathFound (map (λ i, Maze.map_index_to_coord i 3) nodes) |})
    ∧ maze_path corridor nodes ∧ head nodes = Some 0 ∧ last nodes = Some 2
    ∧ (length nodes ≤ Z.to_nat (Maze.num_nodes corridor))%nat.
Proof.
  apply (dfs_prints_a_path corridor 0 2 1 3).
  - exact corridor_edges.
  - simpl. lia.
  - by vm_compute.
  - lia.
  - reflexivity.
Defined.

(** X13.  On a graph of at most [MAX_NODES] nodes and with [num_cols] not
    0, when the target can be reached the runs of [bfs] and of [dfs] both
    end with a path printed, and the one [bfs] prints is never longer than
    the one [dfs] prints. *)
Theorem bfs_path_no_longer_than_dfs (g : Maze.Graph) (source target num_rows num_cols : Z) :
  maze_edges_in_range g →
  0 ≤ source < Maze.num_nodes g →
  Maze.num_nodes g ≤ Maze.MAX_NODES →
  num_cols ≠ 0 →
  maze_reachable g source target →
  ∃ rb rd lb ld,
    MazeRun.bfs g source target num_rows num_cols = Some (Finished rb)
    ∧ MazeRun.dfs g source target num_rows num_cols = Some (Finished rd)
    ∧ Maze.bfs_printed rb = Maze.PathFound (map (λ i, Maze.map_index_to_coord i num_cols) lb)
    ∧ Maze.dfs_printed rd = Maze.PathFound (map (λ i, Maze.map_index_to_coord i num_cols) ld)
    ∧ (length lb ≤ length ld)%nat.
Proof.
  intros Hg Hs Hmax Hc Hreach.
  destruct (bfs_search_facts g source target Hg Hs)
    as (found & stb & Hb & _ & _ & [r Hr] & Hyes & _).
  destruct (Hyes Hreach) as (-> & lb & Hchb & _ & Hpb & Hhb & _ & _ & Hmin).
  destruct (dfs_search_path g source target Hg Hs) as (b & std & Hd & Hpath).
  destruct (dfs_search_facts g source target Hg Hs) as (b' & std' & Hd' & _ & _ & Hiff & _).
  assert (b' = b ∧ std' = std) as [-> ->] by (split; congruence).
  assert (b = true) as -> by (by apply Hiff).
  destruct (Hpath eq_refl) as (ld & Hchd & Hpd & Hhd & _ & Hhops & Hlend).
  assert (0 ≤ target < Maze.num_nodes g) as Ht.
  { destruct Hreach as [k Hk]. by apply (hops_in_range _ _ _ _ Hg Hs Hk). }
  assert (source ≠ -1) as Hsrc by lia.
  destruct (chain_ranked_length _ _ _ _ _ _ Hr Hsrc Ht Hchb) as [_ Hlenb].
  destruct (maze_print_path_run g (Maze.parent stb) source target lb num_cols)
    as [_ Hprintb]; try done; [lia |].
  destruct (maze_print_path_run g (Maze.dparent std) source target ld num_cols)
    as [_ Hprintd]; try done; [lia |].
  do 2 eexists. exists lb, ld. unfold MazeRun.bfs, MazeRun.dfs.
  rewrite Hb, Hd, Hprintd. destruct (Z.eqb_spec target (-1)); [lia |]. simpl.
  rewrite Hprintb. simpl. split; [done |]. split; [done |]. split; [done |].
  split; [done |]. specialize (Hmin _ Hhops).
  destruct (chain_head _ _ _ _ Hchd) as [ld' ->]. simpl in *. lia.
Qed.

Lemma bfs_path_no_longer_than_dfs_witness :
  ∃ rb rd lb ld,
    MazeRun.bfs corridor 0 2 1 3 = Some (Finished rb)
    ∧ MazeRun.dfs corridor 0 2 1 3 = Some (Finished rd)
    ∧ Maze.bfs_printed rb = Maze.PathFound (map (λ i, Maze.map_index_to_coord i 3) lb)
    ∧ Maze.dfs_printed rd = Maze.PathFound (map (λ i, Maze.map_index_to_coord i 3) ld)
    ∧ (length lb ≤ length ld)%nat.
Proof.
  apply (bfs_path_no_longer_than_dfs corridor 0 2 1 3).
  - exact corridor_edges.
  - simpl. lia.
  - by vm_compute.
  - lia.
  - exact corridor_reach.
Defined.

(** X14.  After the search of [bfs], every node that has been given a
    predecessor is joined to the source by its predecessor links along
    edges of the graph, in the least number of edges any path from the
    source to it can have: the array is a tree of shortest paths, not only
    for the target. *)
Theorem bfs_parent_tree_shortest (g : Maze.Graph) (source target : Z) :
  maze_edges_in_range g →
  0 ≤ source < Maze.num_nodes g →
  ∃ found st,
    Maze.bfs_search g source target = Some (found, st)
    ∧ ∀ v, rd (-1) (Maze.parent st) v ≠ -1 →
        ∃ nodes,
          chain (Maze.parent st) source v nodes
          ∧ maze_path g nodes ∧ head nodes = Some source ∧ last nodes = Some v
          ∧ hops g source v (length nodes - 1)
          ∧ ∀ k, hops g source v k → (length nodes - 1 ≤ k)%nat.
Proof.
  intros Hg Hs.
  destruct (bfs_search_tree g source target Hg Hs) as (found & st & Hb & Htree).
  exists found, st. split; [done |]. intros v Hv.
  destruct (Htree v Hv) as (l & Hch & _ & Hpath & Hhd & Hlast & Hhops & Hmin).
  by exists l.
Qed.

Lemma bfs_parent_tree_shortest_witness :
  ∃ found st,
    Maze.bfs_search corridor 0 2 = Some (found, st)
    ∧ ∀ v, rd (-1) (Maze.parent st) v ≠ -1 →
        ∃ nodes,
          chain (Maze.parent st) 0 v nodes
          ∧ maze_path corridor nodes ∧ head nodes = Some 0 ∧ last nodes = Some v
          ∧ hops corridor 0 v (length nodes - 1)
          ∧ ∀ k, hops corridor 0 v k → (length nodes - 1 ≤ k)%nat.
Proof.
  apply (bfs_parent_tree_shortest corridor 0 2).
  - exact corridor_edges.
  - simpl. lia.
Defined.

(** * The linked queue behind the breadth-first search *)

(** [Maze.Queue] holds the queue of [bfs] as a list.  The program keeps it
    as a singly linked list of [QueueNode]s behind a [Queue] record with a
    [front] and a [rear] pointer; this part models that representation on a
    heap and shows that the list is what it stores. *)
Module LinkedQueue.

(** A pointer: [NULL] or an address. *)
Definition ptr : Type := option nat.

Inductive cell :=
| QueueNode (data : Z) (next : ptr)
| QueueHead (front rear : ptr).

(** What is allocated, by address. *)
Definition heap : Type := nat → option cell.

Definition store (h : heap) (l : nat) (c : option cell) : heap :=
  λ l', if decide (l' = l) then c else h l'.

(** How a call ends: it returns, the program is terminated by
    [exit(EXIT_FAILURE)], or it goes through a pointer that holds no object
    of the expected type. *)
Inductive run (A : Type) :=
| Done (a : A)
| Exited
| Undefined.
Arguments Done {A} a.
Arguments Exited {A}.
Arguments Undefined {A}.

(** [new] is what [malloc] returns in the call. *)
Definition create_queue (new : ptr) (h : heap) : run (heap * nat) :=
  match new with
  | None => Exited
  | Some q => Done (store h q (Some (QueueHead None None)), q)
  end.

Definition enqueue (new : ptr) (h : heap) (q : nat) (data : Z) : run heap :=
  match new with
  | None => Exited
  | Some new_node =>
    let h := store h new_node (Some (QueueNode data None)) in
    match h q with
    | Some (QueueHead front None) =>
      Done (store h q (Some (QueueHead (Some new_node) (Some new_node))))
    | Some (QueueHead front (Some rear)) =>
      match h rear with
      | Some (QueueNode d _) =>
        let h := store h rear (Some (QueueNode d (Some new_node))) in
        Done (store h q (Some (QueueHead front (Some new_node))))
      | _ => Undefined
      end
    | _ => Undefined
    end
  end.

Definition dequeue (h : heap) (q : nat) : run (heap * Z) :=
  match h q with
  | Some (QueueHead None rear) => Done (h, -1)
  | Some (QueueHead (Some temp) rear) =>
    match h temp with
    | Some (QueueNode data next) =>
      let rear := match next with None => None | Some _ => rear end in
      let h := store h q (Some (QueueHead next rear)) in
      Done (store h temp None, data)
    | _ => Undefined
    end
  | _ => Undefined
  end.

Definition is_empty_queue (h : heap) (q : nat) : run bool :=
  match h q with
  | Some (QueueHead None _) => Done true
  | Some (QueueHead (Some _) _) => Done false
  | _ => Undefined
  end.

(** [fuel] bounds the number of turns of the loop. *)
Fixpoint free_queue (fuel : nat) (h : heap) (q : nat) : option (run heap) :=
  match is_empty_queue h q with
  | Done true => Some (Done (store h q None))
  | Done false =>
    match fuel with
    | O => None
    | S f =>
      match dequeue h q with
      | Done (h', _) => free_queue f h' q
      | Exited => Some Exited
      | Undefined => Some Undefined
      end
    end
  | Exited => Some Exited
  | Undefined => Some Undefined
  end.

(** The nodes at addresses [ls], linked in this order from [p] to [NULL],
    hold the values [xs]. *)
Fixpoint nodes_from (h : heap) (p : ptr) (ls : list nat) (xs : list Z) : Prop :=
  match ls, xs with
  | [], [] => p = None
  | l :: ls', x :: xs' =>
    p = Some l ∧ ∃ next, h l = Some (QueueNode x next) ∧ nodes_from h next ls' xs'
  | _, _ => False
  end.

(** The record at [q] is a queue holding [xs], front first, in the nodes
    [ls]: [front] leads through them and [rear] is the last of them. *)
Definition is_queue (h : heap) (q : nat) (ls : list nat) (xs : list Z) : Prop :=
  NoDup ls
  ∧ ∃ front, h q = Some (QueueHead front (last ls)) ∧ nodes_from h front ls xs.

End LinkedQueue.

Section linked_queue.
Import LinkedQueue.

Lemma store_eq h l c : store h l c l = c.
Proof. unfold store. by case_decide. Qed.

Lemma store_ne h l c l' : l' ≠ l → store h l c l' = h l'.
Proof. unfold store. by case_decide. Qed.

Lemma nodes_from_length h p ls xs : nodes_from h p ls xs → length ls = length xs.
Proof.
  revert p xs. induction ls as [| l ls IH]; intros p [| x xs]; simpl; try done.
  intros (_ & next & _ & Hn). f_equal. by eapply IH.
Qed.

Lemma nodes_from_frame h h' p ls xs :
  (∀ l, l ∈ ls → h' l = h l) → nodes_from h p ls xs → nodes_from h' p ls xs.
Proof.
  revert p xs. induction ls as [| l ls IH]; intros p [| x xs] Hsame; simpl; try done.
  intros (-> & next & Hl & Hn). split; [done |]. exists next. split.
  - rewrite Hsame; [done | left].
  - apply IH; [| done]. intros l' Hl'. apply Hsame. by right.
Qed.

Lemma nodes_from_allocated h p ls xs l :
  nodes_from h p ls xs → l ∈ ls → ∃ x next, h l = Some (QueueNode x next).
Proof.
  revert p xs. induction ls as [| l0 ls IH]; intros p [| x xs]; simpl; try done.
  - intros _ Hl. by apply elem_of_nil in Hl.
  - intros (_ & next & Hl0 & Hn) Hl. apply elem_of_cons in Hl as [-> | Hl].
    + by do 2 eexists.
    + by eapply IH.
Qed.

Lemma nodes_from_last h p ls xs r :
  nodes_from h p ls xs → last ls = Some r →
  ∃ d, h r = Some (QueueNode d None) ∧ last xs = Some d.
Proof.
  revert p xs. induction ls as [| l ls IH]; intros p [| x xs]; simpl; try done.
  intros (_ & next & Hl & Hn) Hlast. destruct ls as [| l2 ls].
  - destruct xs; [| done]. simpl in Hn. subst next. inversion Hlast; subst. by exists x.
  - destruct xs as [| x2 xs]; [done |].
    destruct (IH _ _ Hn Hlast) as (d & Hr & Hd). by exists d.
Qed.

Lemma nodes_from_snoc h p ls xs r d n x :
  NoDup ls → n ∉ ls → nodes_from h p ls xs → last ls = Some r →
  h r = Some (QueueNode d None) →
  nodes_from (store (store h n (Some (QueueNode x None))) r (Some (QueueNode d (Some n))))
             p (ls ++ [n]) (xs ++ [x]).
Proof.
  revert p xs. induction ls as [| l ls IH]; intros p [| x0 xs] Hnd Hn; simpl; try done.
  intros (-> & next & Hl & Hnodes) Hlast Hr.
  apply NoDup_cons in Hnd as [Hl_out Hnd].
  apply not_elem_of_cons in Hn as [Hnl Hn].
  destruct ls as [| l2 ls].
  - destruct xs; [| done]. simpl in Hnodes. subst next. inversion Hlast; subst r.
    assert (x0 = d) as -> by congruence. simpl. split; [done |].
    exists (Some n). split; [by rewrite store_eq |]. split; [done |].
    exists None. split; [| done]. rewrite store_ne by done. by rewrite store_eq.
  - destruct xs as [| x2 xs]; [done |].
    assert (r ∈ l2 :: ls) as Hrin by (by apply last_Some_elem_of).
    assert (l ≠ r) by (intros ->; done).
    split; [done |]. exists next. split.
    + rewrite !store_ne by done. done.
    + by apply IH.
Qed.

Lemma is_queue_apart h q ls xs n :
  is_queue h q ls xs → h n = None → n ≠ q ∧ (n ∉ ls) ∧ (q ∉ ls).
Proof.
  intros (_ & front & Hq & Hn) Hfree. split_and!.
  - intros ->. congruence.
  - intros Hin. destruct (nodes_from_allocated _ _ _ _ _ Hn Hin) as (? & ? & ?). congruence.
  - intros Hin. destruct (nodes_from_allocated _ _ _ _ _ Hn Hin) as (? & ? & ?). congruence.
Qed.

Lemma create_queue_empty h q :
  h q = None →
  ∃ h', create_queue (Some q) h = Done (h', q) ∧ is_queue h' q [] Maze.create_queue
        ∧ ∀ l, l ≠ q → h' l = h l.
Proof.
  intros _. eexists. split; [done |]. split.
  - split; [constructor |]. exists None. by rewrite store_eq.
  - intros l Hl. by apply store_ne.
Qed.

Lemma enqueue_queue h q ls xs n data :
  is_queue h q ls xs → h n = None →
  ∃ h', enqueue (Some n) h q data = Done h'
        ∧ is_queue h' q (ls ++ [n]) (Maze.enqueue xs data)
        ∧ ∀ l, l ≠ q → l ≠ n → last ls ≠ Some l → h' l = h l.
Proof.
  intros Hqueue Hfree. destruct (is_queue_apart _ _ _ _ _ Hqueue Hfree) as (Hnq & Hn & Hq).
  destruct Hqueue as (Hnd & front & Hhead & Hnodes).
  assert (NoDup (ls ++ [n])) as Hnd'.
  { apply NoDup_app. split; [done |]. split; [| apply NoDup_singleton].
    intros l Hl Hl'. apply list_elem_of_singleton in Hl'. by subst. }
  unfold enqueue, Maze.enqueue. rewrite store_ne by done. rewrite Hhead.
  destruct (last ls) as [r |] eqn:Hlast.
  - destruct (nodes_from_last _ _ _ _ _ Hnodes Hlast) as (d & Hr & _).
    assert (r ∈ ls) as Hrin by (by apply last_Some_elem_of).
    assert (r ≠ n) by (intros ->; done). assert (r ≠ q) by (intros ->; done).
    rewrite store_ne by done. rewrite Hr. eexists. split; [done |]. split.
    + split; [done |]. exists front. split; [by rewrite store_eq, last_snoc |].
      apply nodes_from_frame
        with (store (store h n (Some (QueueNode data None))) r (Some (QueueNode d (Some n)))).
      * intros l Hl. apply store_ne. intros ->. apply elem_of_app in Hl as [Hl | Hl]; [done |].
        apply list_elem_of_singleton in Hl. by subst.
      * by apply nodes_from_snoc.
    + intros l Hlq Hln Hlr. rewrite !store_ne; (done || congruence).
  - apply last_None in Hlast. subst ls. destruct xs; [| done]. simpl in Hnodes.
    eexists. split; [done |]. split.
    + split; [done |]. exists (Some n). split; [by rewrite store_eq |]. simpl.
      split; [done |]. exists None. split; [| done]. rewrite store_ne by done.
      by rewrite store_eq.
    + intros l Hlq Hln _. by rewrite !store_ne.
Qed.

Lemma dequeue_queue h q ls xs :
  is_queue h q ls xs →
  ∃ h', dequeue h q = Done (h', (Maze.dequeue xs).1)
        ∧ is_queue h' q (tail ls) (Maze.dequeue xs).2
        ∧ is_empty_queue h q = Done (Maze.is_empty_queue xs)
        ∧ (∀ l, l ≠ q → head ls ≠ Some l → h' l = h l)
        ∧ (∀ l, head ls = Some l → h' l = None).
Proof.
  intros Hqueue.
  destruct Hqueue as (Hnd & front & Hhead & Hnodes).
  unfold dequeue, is_empty_queue. rewrite Hhead.
  destruct ls as [| t ls], xs as [| x xs]; simpl in Hnodes; try done.
  - subst front. exists h. split_and!; try done. split; [done |]. by exists None.
  - destruct Hnodes as (-> & next & Ht & Hnodes). rewrite Ht. simpl.
    apply NoDup_cons in Hnd as [Ht_out Hnd].
    assert (t ≠ q) by (intros ->; congruence).
    assert (q ∉ ls) as Hq.
    { intros Hin. destruct (nodes_from_allocated _ _ _ _ _ Hnodes Hin) as (? & ? & ?).
      congruence. }
    eexists. split; [done |]. split_and!; try done.
    + split; [done |]. exists next. split.
      * rewrite store_ne by done. rewrite store_eq. do 2 f_equal.
        destruct ls as [| l2 ls]; destruct xs as [| x2 xs]; simpl in Hnodes; try done.
        -- by subst next.
        -- by destruct Hnodes as (-> & _).
      * apply nodes_from_frame with h; [| done]. intros l Hl.
        rewrite !store_ne; [done | by intros -> | by intros ->].
    + intros l Hlq Hlt. rewrite !store_ne; (done || congruence).
    + intros l [= ->]. by rewrite store_eq.
Qed.

Lemma free_queue_heap h q ls xs :
  is_queue h q ls xs →
  ∃ h', free_queue (length xs) h q = Some (Done h')
        ∧ (∀ l, l = q ∨ l ∈ ls → h' l = None)
        ∧ (∀ l, l ≠ q → l ∉ ls → h' l = h l).
Proof.
  revert h ls. induction xs as [| x xs IH]; intros h ls Hqueue;
    destruct (dequeue_queue _ _ _ _ Hqueue) as (h1 & Hdeq & Hqueue1 & Hempty & Hkeep & Hgone);
    pose proof Hqueue as (Hnd & front & _ & Hnodes);
    pose proof (nodes_from_length _ _ _ _ Hnodes) as Hlen.
  - destruct ls; [| done]. simpl. rewrite Hempty. simpl. eexists. split; [done |]. split.
    + intros l [-> | Hl]; [by rewrite store_eq | by apply elem_of_nil in Hl].
    + intros l Hl _. by apply store_ne.
  - destruct ls as [| t ls]; [done |]. simpl free_queue. rewrite Hempty, Hdeq. simpl.
    simpl in Hqueue1. destruct (IH _ _ Hqueue1) as (h' & Hrun & Hfreed & Hrest).
    exists h'. split; [done |].
    apply NoDup_cons in Hnd as [Ht_out _].
    assert (t ≠ q).
    { intros ->. destruct Hqueue as (_ & ? & Hq & Hn). simpl in Hn.
      destruct Hn as (_ & ? & ? & _). congruence. }
    split.
    + intros l [-> | Hl]; [apply Hfreed; by left |].
      apply elem_of_cons in Hl as [-> | Hl]; [| apply Hfreed; by right].
      rewrite Hrest by done. by apply Hgone.
    + intros l Hlq Hl. apply not_elem_of_cons in Hl as [Hlt Hl].
      rewrite Hrest by done. apply Hkeep; [done |]. simpl. congruence.
Qed.

(** A heap with nothing allocated, a queue created in it at address 0, and
    that queue after 7 and then 9 were enqueued in nodes at 1 and 2. *)
Definition no_cells : heap := λ _, None.

Definition fresh_queue : heap := store no_cells 0%nat (Some (QueueHead None None)).

Definition two_waiting : heap :=
  match enqueue (Some 1%nat) fresh_queue 0 7 with
  | Done h =>
    match enqueue (Some 2%nat) h 0 9 with
    | Done h' => h'
    | _ => no_cells
    end
  | _ => no_cells
  end.

Lemma fresh_queue_empty : is_queue fresh_queue 0 [] [].
Proof. split; [constructor |]. by exists None. Qed.

Lemma two_waiting_queue : is_queue two_waiting 0 [1; 2]%nat [7; 9].
Proof.
  destruct (enqueue_queue fresh_queue 0%nat [] [] 1%nat 7 fresh_queue_empty eq_refl)
    as (h1 & Hrun1 & Hq1 & _).
  destruct (enqueue_queue h1 0%nat _ _ 2%nat 9 Hq1) as (h2 & Hrun2 & Hq2 & _).
  { injection Hrun1 as <-. reflexivity. }
  unfold two_waiting. injection Hrun1 as <-. simpl in Hrun2. injection Hrun2 as <-.
  exact Hq2.
Qed.

End linked_queue.

(** X24.  [create_queue] with its allocation granted leaves a queue record
    with [front] and [rear] both [NULL], the empty queue
    [Maze.create_queue], and writes nothing else; if the allocation fails
    the program exits. *)
Theorem create_queue_allocates (h : LinkedQueue.heap) (q : nat) :
  h q = None →
  (∃ h', LinkedQueue.create_queue (Some q) h = LinkedQueue.Done (h', q)
         ∧ LinkedQueue.is_queue h' q [] Maze.create_queue
         ∧ h' q = Some (LinkedQueue.QueueHead None None)
         ∧ ∀ l, l ≠ q → h' l = h l)
  ∧ LinkedQueue.create_queue None h = LinkedQueue.Exited.
Proof.
  intros Hq. split; [| done].
  destruct (create_queue_empty h q Hq) as (h' & Hrun & Hqueue & Hkeep).
  exists h'. split; [done |]. split; [done |]. split; [| done].
  injection Hrun as <-. apply store_eq.
Qed.

Lemma create_queue_allocates_witness :
  (∃ h', LinkedQueue.create_queue (Some 0%nat) no_cells = LinkedQueue.Done (h', 0%nat)
         ∧ LinkedQueue.is_queue h' 0 [] Maze.create_queue
         ∧ h' 0%nat = Some (LinkedQueue.QueueHead None None)
         ∧ ∀ l, l ≠ 0%nat → h' l = no_cells l)
  ∧ LinkedQueue.create_queue None no_cells = LinkedQueue.Exited.
Proof. apply (create_queue_allocates no_cells 0). reflexivity. Defined.

(** X15.  [enqueue] on a queue record whose nodes hold the values [xs],
    with a node that [malloc] just returned, leaves a queue that holds [xs]
    followed by the new value, as [Maze.enqueue] has it: the new node is
    linked behind the old ones and becomes [rear] (and [front] too when the
    queue was empty).  Only the record, the new node and the old last node
    are written. *)
Theorem enqueue_appends_at_rear (h : LinkedQueue.heap) (q : nat) (ls : list nat)
    (xs : list Z) (n : nat) (data : Z) :
  LinkedQueue.is_queue h q ls xs →
  h n = None →
  ∃ h', LinkedQueue.enqueue (Some n) h q data = LinkedQueue.Done h'
        ∧ LinkedQueue.is_queue h' q (ls ++ [n]) (Maze.enqueue xs data)
        ∧ ∀ l, l ≠ q → l ≠ n → last ls ≠ Some l → h' l = h l.
Proof. apply enqueue_queue. Qed.

Lemma enqueue_appends_at_rear_witness :
  ∃ h', LinkedQueue.enqueue (Some 3%nat) two_waiting 0 4 = LinkedQueue.Done h'
        ∧ LinkedQueue.is_queue h' 0 ([1; 2]%nat ++ [3%nat]) (Maze.enqueue [7; 9] 4)
        ∧ ∀ l, l ≠ 0%nat → l ≠ 3%nat → last [1; 2]%nat ≠ Some l → h' l = two_waiting l.
Proof.
  apply (enqueue_appends_at_rear two_waiting 0 [1; 2]%nat [7; 9] 3 4).
  - exact two_waiting_queue.
  - reflexivity.
Defined.

(** X16.  [dequeue] on a queue record whose nodes hold the values [xs]
    returns what [Maze.dequeue] returns on [xs] (the first value, or -1 when
    there is none) and leaves a queue that holds the rest, as
    [Maze.dequeue] has it; [is_empty_queue] answers as [Maze.is_empty_queue]
    does.  The first node is freed, and nothing but it and the record is
    written. *)
Theorem dequeue_takes_from_front (h : LinkedQueue.heap) (q : nat) (ls : list nat)
    (xs : list Z) :
  LinkedQueue.is_queue h q ls xs →
  ∃ h', LinkedQueue.dequeue h q = LinkedQueue.Done (h', (Maze.dequeue xs).1)
        ∧ LinkedQueue.is_queue h' q (tail ls) (Maze.dequeue xs).2
        ∧ LinkedQueue.is_empty_queue h q = LinkedQueue.Done (Maze.is_empty_queue xs)
        ∧ (∀ l, l ≠ q → head ls ≠ Some l → h' l = h l)
        ∧ (∀ l, head ls = Some l → h' l = None).
Proof. apply dequeue_queue. Qed.

Lemma dequeue_takes_from_front_witness :
  ∃ h', LinkedQueue.dequeue two_waiting 0 = LinkedQueue.Done (h', (Maze.dequeue [7; 9]).1)
        ∧ LinkedQueue.is_queue h' 0 (tail [1; 2]%nat) (Maze.dequeue [7; 9]).2
        ∧ LinkedQueue.is_empty_queue two_waiting 0
          = LinkedQueue.Done (Maze.is_empty_queue [7; 9])
        ∧ (∀ l, l ≠ 0%nat → head [1; 2]%nat ≠ Some l → h' l = two_waiting l)
        ∧ (∀ l, head [1; 2]%nat = Some l → h' l = None).
Proof. apply (dequeue_takes_from_front two_waiting 0 [1; 2]%nat [7; 9]), two_waiting_queue. Defined.

(** X17.  [free_queue] on a queue record whose nodes hold [xs] returns
    after one turn of its loop per value, with the record and every node
    freed and every other address left as it was. *)
Theorem free_queue_releases (h : LinkedQueue.heap) (q : nat) (ls : list nat)
    (xs : list Z) :
  LinkedQueue.is_queue h q ls xs →
  ∃ h', LinkedQueue.free_queue (length xs) h q = Some (LinkedQueue.Done h')
        ∧ (∀ l, l = q ∨ l ∈ ls → h' l = None)
        ∧ (∀ l, l ≠ q → l ∉ ls → h' l = h l).
Proof. apply free_queue_heap. Qed.

Lemma free_queue_releases_witness :
  ∃ h', LinkedQueue.free_queue (length [7; 9]) two_waiting 0 = Some (LinkedQueue.Done h')
        ∧ (∀ l, l = 0%nat ∨ l ∈ [1; 2]%nat → h' l = None)
        ∧ (∀ l, l ≠ 0%nat → l ∉ [1; 2]%nat → h' l = two_waiting l).
Proof. apply (free_queue_releases two_waiting 0 [1; 2]%nat [7; 9]), two_waiting_queue. Defined.

(** * The maze program *)

(** [main] of the maze solver: the graph it builds from the character grid,
    the two markers it looks for, and the two searches it runs.  The grid
    and its size are constants of [main] that the source means to be
    changed; [solve] takes them as arguments and [main] is [solve] on the
    grid of the source. *)
Module MazeMain.

(** The array [maze], by rows. *)
Definition Grid : Type := list (list Ascii.ascii).

(** [maze[r][c]].  A read outside the array is undefined in C; the model
    reads a blank there. *)
Definition at_cell (maze : Grid) (r c : Z) : Ascii.ascii :=
  rd " "%char (rd [] maze r) c.

(** The array has at least [num_rows] rows of at least [num_cols]
    characters: the reads [main] makes are inside it. *)
Definition covers (maze : Grid) (num_rows num_cols : Z) : bool :=
  (num_rows <=? Z.of_nat (length maze))
  && forallb (λ line, num_cols <=? Z.of_nat (length line)) maze.

Definition dr : list Z := [-1; 1; 0; 0].
Definition dc : list Z := [0; 0; -1; 1].

Record build_state := { graph : Maze.Graph; start_node : Z; end_node : Z }.

(** Body of the loop over the four directions, for the cell ([r], [c]) of
    index [u].  [r] and [c] are inside the grid, so [r + dr[i]] and
    [c + dc[i]] stay in range. *)
Definition link (maze : Grid) (num_rows num_cols r c u i : Z) (g : Maze.Graph)
    : Maze.Graph :=
  let nr := r + rd 0 dr i in
  let nc := c + rd 0 dc i in
  if Maze.is_valid nr nc num_rows num_cols
     && negb (Ascii.eqb (at_cell maze nr nc) "#")
  then Maze.add_edge g u (Maze.map_coord_to_index nr nc num_cols)
  else g.

(** Body of the loop over the columns. *)
Definition visit (maze : Grid) (num_rows num_cols r c : Z) (st : build_state)
    : build_state :=
  if Ascii.eqb (at_cell maze r c) "#" then st
  else
    let u := Maze.map_coord_to_index r c num_cols in
    {| graph := for_upto 4 (link maze num_rows num_cols r c u) (graph st);
       start_node := if Ascii.eqb (at_cell maze r c) "S" then u else start_node st;
       end_node := if Ascii.eqb (at_cell maze r c) "S" then end_node st
                   else if Ascii.eqb (at_cell maze r c) "E" then u
                   else end_node st |}.

(** The two nested loops that build the graph. *)
Definition build (maze : Grid) (num_rows num_cols : Z) : build_state :=
  for_upto num_rows
    (λ r, for_upto num_cols (λ c, visit maze num_rows num_cols r c))
    {| graph := Maze.create_graph (wrap_int (num_rows * num_cols));
       start_node := -1; end_node := -1 |}.

(** How a run ends: with the error line about a missing marker, or with
    what the two searches found and printed. *)
Inductive outcome :=
| MarkerMissing
| Searched (by_bfs : Maze.bfs_result) (by_dfs : Maze.dfs_result).


(** The result is [None] only if a search is cut short by its fuel. *)
Definition solve (maze : Grid) (num_rows num_cols : Z) : option outcome :=
  let st := build maze num_rows num_cols in
  if (start_node st =? -1) || (end_node st =? -1) then Some MarkerMissing
  else
    match Maze.bfs (graph st) (start_node st) (end_node st) num_rows num_cols with
    | None => None
    | Some by_bfs =>
      match Maze.dfs (graph st) (start_node st) (end_node st) num_rows num_cols with
      | None => None
      | Some by_dfs => Some (Searched by_bfs by_dfs)
      end
    end.

(** The grid of the source. *)
Definition maze : Grid :=
  map list_ascii_of_string
    [ "##########"; "#S #   #E#"; "#  # # # #"; "# ## #   #"; "#      # #";
      "###### # #"; "#        #"; "# ###### #"; "#        #"; "##########" ]%string.

Definition main : option outcome := solve maze 10 10.

End MazeMain.

(** ** What both searches return, together *)


(** ** The graph of a grid *)

Section maze_program.
Import MazeMain.
Variable maze : Grid.
Variables num_rows num_cols : Z.
Hypothesis cols_pos : 0 < num_cols.
Hypothesis grid_fits : num_rows * num_cols ≤ INT_MAX.

(** The values a [for] loop from 0 below [n] runs through. *)
Definition indices (n : Z) : list Z := Z.of_nat <$> seq 0 (Z.to_nat n).

(** The cells in the order the nested loops of [main] come to them. *)
Definition cells : list (Z * Z) :=
  indices num_rows ≫= λ r, (λ c, (r, c)) <$> indices num_cols.

(** A cell of the grid that is no wall. *)
Definition open_cell (a : Maze.Cell) : Prop :=
  0 ≤ Maze.row a < num_rows ∧ 0 ≤ Maze.col a < num_cols
  ∧ at_cell maze (Maze.row a) (Maze.col a) ≠ "#"%char.

(** [b] is the cell above, below, left or right of [a]. *)
Definition beside (a b : Maze.Cell) : Prop :=
  (Maze.row b = Maze.row a - 1 ∧ Maze.col b = Maze.col a)
  ∨ (Maze.row b = Maze.row a + 1 ∧ Maze.col b = Maze.col a)
  ∨ (Maze.row b = Maze.row a ∧ Maze.col b = Maze.col a - 1)
  ∨ (Maze.row b = Maze.row a ∧ Maze.col b = Maze.col a + 1).

Definition index (a : Maze.Cell) : Z := Maze.row a * num_cols + Maze.col a.



(** The [add_edge] calls that the loop over the directions makes for one
    cell, and those of the whole grid, in order. *)
Definition neighbour_call (r c i : Z) : list (Z * Z) :=
  let nr := r + rd 0 dr i in
  let nc := c + rd 0 dc i in
  if Maze.is_valid nr nc num_rows num_cols
     && negb (Ascii.eqb (at_cell maze nr nc) "#")
  then [(Maze.map_coord_to_index r c num_cols, Maze.map_coord_to_index nr nc num_cols)]
  else [].

Definition cell_calls (a : Z * Z) : list (Z * Z) :=
  if Ascii.eqb (at_cell maze a.1 a.2) "#" then []
  else indices 4 ≫= neighbour_call a.1 a.2.

Definition grid_calls : list (Z * Z) := cells ≫= cell_calls.

Lemma fold_left_fmap_list {A B C} (f : A → C → A) (h : B → C) (l : list B) (s : A) :
  fold_left f (h <$> l) s = fold_left (λ s b, f s (h b)) l s.
Proof. revert s. induction l as [| b l IH]; intros s; simpl; [done | apply IH]. Qed.

Lemma fold_left_bind {A B C} (f : A → C → A) (h : B → list C) (l : list B) (s : A) :
  fold_left f (l ≫= h) s = fold_left (λ s b, fold_left f (h b) s) l s.
Proof.
  revert s. induction l as [| b l IH]; intros s; [done |].
  rewrite bind_cons, fold_left_app. simpl. apply IH.
Qed.

Lemma for_upto_indices {S} (n : Z) (body : Z → S → S) (s : S) :
  for_upto n body s = fold_left (λ s i, body i s) (indices n) s.
Proof. unfold for_upto, indices. by rewrite fold_left_fmap_list. Qed.

Lemma elem_of_indices n i : i ∈ indices n ↔ 0 ≤ i < n.
Proof.
  unfold indices. rewrite list_elem_of_fmap. split.
  - intros (k & -> & Hk). apply elem_of_seq in Hk. lia.
  - intros Hi. exists (Z.to_nat i). split; [lia |]. apply elem_of_seq. lia.
Qed.

Lemma elem_of_cells r c : (r, c) ∈ cells ↔ 0 ≤ r < num_rows ∧ 0 ≤ c < num_cols.
Proof.
  unfold cells. rewrite list_elem_of_bind. split.
  - intros (r' & Hc & Hr). apply list_elem_of_fmap in Hc as (c' & [= -> ->] & Hc).
    by rewrite elem_of_indices in Hr, Hc.
  - intros [Hr Hc]. exists r. rewrite elem_of_indices. split; [| done].
    apply list_elem_of_fmap. exists c. by rewrite elem_of_indices.
Qed.

Lemma for_upto_nested {S} (f : Z → Z → S → S) (s : S) :
  for_upto num_rows (λ r, for_upto num_cols (f r)) s
  = fold_left (λ s a, f a.1 a.2 s) cells s.
Proof.
  rewrite for_upto_indices. unfold cells. rewrite fold_left_bind.
  generalize (indices num_rows). intros l. revert s.
  induction l as [| r l IH]; intros s; simpl; [done |].
  rewrite IH. f_equal. by rewrite for_upto_indices, fold_left_fmap_list.
Qed.

Definition unbuilt : build_state :=
  {| graph := Maze.create_graph (wrap_int (num_rows * num_cols));
     start_node := -1; end_node := -1 |}.

Lemma build_fold :
  build maze num_rows num_cols
  = fold_left (λ st a, visit maze num_rows num_cols a.1 a.2 st) cells unbuilt.
Proof. unfold build. by rewrite for_upto_nested. Qed.

Lemma visit_graph a st :
  graph (visit maze num_rows num_cols a.1 a.2 st)
  = fold_left (λ g '(src, dest), Maze.add_edge g src dest) (cell_calls a) (graph st).
Proof.
  unfold visit, cell_calls. destruct (Ascii.eqb _ "#"); [done |]. cbn [graph].
  rewrite for_upto_indices, fold_left_bind. generalize (indices 4), (graph st).
  intros l. induction l as [| i l IH]; intros g; simpl; [done |].
  rewrite <- IH. f_equal. unfold link, neighbour_call. by destruct (_ && _).
Qed.

Lemma fold_visit_graph l st :
  graph (fold_left (λ st a, visit maze num_rows num_cols a.1 a.2 st) l st)
  = fold_left (λ g '(src, dest), Maze.add_edge g src dest) (l ≫= cell_calls) (graph st).
Proof.
  revert st. induction l as [| a l IH]; intros st; [done |].
  rewrite bind_cons, fold_left_app. simpl. by rewrite IH, visit_graph.
Qed.

Lemma cells_fit : 0 ≤ num_rows * num_cols ≤ INT_MAX ∨ num_rows < 0.
Proof. destruct (decide (0 ≤ num_rows)); [left; nia | right; lia]. Qed.

Lemma build_graph :
  0 ≤ num_rows →
  graph (build maze num_rows num_cols) = maze_build (num_rows * num_cols) grid_calls.
Proof.
  intros Hr. rewrite build_fold, fold_visit_graph. unfold maze_build, grid_calls. simpl.
  rewrite wrap_int_small; [done | nia].
Qed.

Lemma index_of a :
  0 ≤ Maze.row a < num_rows → 0 ≤ Maze.col a < num_cols →
  Maze.map_coord_to_index (Maze.row a) (Maze.col a) num_cols = index a
  ∧ 0 ≤ index a < num_rows * num_cols
  ∧ Maze.map_index_to_coord (index a) num_cols = a.
Proof.
  intros Hr Hc.
  destruct (cell_index_plain _ _ num_rows num_cols Hr Hc grid_fits) as [Hi Hrange].
  split; [done |]. split; [done |]. unfold index, Maze.map_index_to_coord.
  rewrite Z.quot_div_nonneg, Z.rem_mod_nonneg by lia. destruct a as [r c]. simpl in *.
  f_equal.
  - symmetry. apply Z.div_unique_pos with c; lia.
  - symmetry. apply Z.mod_unique_pos with r; lia.
Qed.


Lemma beside_sym a b : beside a b → beside b a.
Proof. unfold beside. lia. Qed.

Lemma wall_or_not r c :
  Ascii.eqb (at_cell maze r c) "#" = false ↔ at_cell maze r c ≠ "#"%char.
Proof. destruct (Ascii.eqb_spec (at_cell maze r c) "#"); split; congruence. Qed.

Lemma grid_calls_elem u v :
  (u, v) ∈ grid_calls
  ↔ ∃ a b, open_cell a ∧ open_cell b ∧ beside a b ∧ u = index a ∧ v = index b.
Proof.
  unfold grid_calls. rewrite list_elem_of_bind. split.
  - intros ([r c] & Hin & Hcell). apply elem_of_cells in Hcell as [Hr Hc].
    unfold cell_calls in Hin. cbn [fst snd] in Hin.
    destruct (Ascii.eqb (at_cell maze r c) "#") eqn:Hwall; [by apply elem_of_nil in Hin |].
    apply wall_or_not in Hwall.
    apply list_elem_of_bind in Hin as (i & Hin & Hi). apply elem_of_indices in Hi.
    unfold neighbour_call in Hin.
    destruct (Maze.is_valid _ _ _ _ && _) eqn:Hok; [| by apply elem_of_nil in Hin].
    apply andb_true_iff in Hok as [Hvalid Hopen]. apply is_valid_spec in Hvalid as [Hnr Hnc].
    apply negb_true_iff, wall_or_not in Hopen.
    apply list_elem_of_singleton in Hin. injection Hin as -> ->.
    exists {| Maze.row := r; Maze.col := c |},
           {| Maze.row := r + rd 0 dr i; Maze.col := c + rd 0 dc i |}.
    destruct (index_of {| Maze.row := r; Maze.col := c |} Hr Hc) as (Ha & _).
    destruct (index_of {| Maze.row := r + rd 0 dr i; Maze.col := c + rd 0 dc i |} Hnr Hnc)
      as (Hb & _).
    simpl in Ha, Hb. split_and!; try done.
    unfold beside. simpl.
    assert (i = 0 ∨ i = 1 ∨ i = 2 ∨ i = 3) as [-> | [-> | [-> | ->]]] by lia;
      vm_compute rd; lia.
  - intros (a & b & (Har & Hac & Ha) & (Hbr & Hbc & Hb) & Hbeside & -> & ->).
    exists (Maze.row a, Maze.col a). split; [| by apply elem_of_cells].
    unfold cell_calls. cbn [fst snd]. apply wall_or_not in Ha. rewrite Ha.
    assert (∃ i, 0 ≤ i < 4 ∧ Maze.row b = Maze.row a + rd 0 dr i
                 ∧ Maze.col b = Maze.col a + rd 0 dc i) as (i & Hi & Hrow & Hcol).
    { destruct Hbeside as [[? ?] | [[? ?] | [[? ?] | [? ?]]]];
        [exists 0 | exists 1 | exists 2 | exists 3]; vm_compute rd; lia. }
    apply list_elem_of_bind. exists i. split; [| by apply elem_of_indices].
    unfold neighbour_call. rewrite <- Hrow, <- Hcol.
    assert (Maze.is_valid (Maze.row b) (Maze.col b) num_rows num_cols = true) as ->
      by (by apply is_valid_spec).
    apply wall_or_not in Hb. rewrite Hb. cbn [andb negb].
    destruct (index_of a Har Hac) as (-> & _). destruct (index_of b Hbr Hbc) as (-> & _).
    left.
Qed.

Lemma grid_calls_in_range : calls_in_range (num_rows * num_cols) grid_calls.
Proof.
  intros [u v] Hc. apply grid_calls_elem in Hc as (a & b & Ha & Hb & _ & -> & ->).
  destruct Ha as (Har & Hac & _), Hb as (Hbr & Hbc & _).
  destruct (index_of a Har Hac) as (_ & ? & _). destruct (index_of b Hbr Hbc) as (_ & ? & _).
  done.
Qed.

(** The edges of the graph are the pairs of open cells beside each other. *)
Lemma build_adj u v :
  0 ≤ num_rows →
  v ∈ Maze.adj (graph (build maze num_rows num_cols)) u
  ↔ ∃ a b, open_cell a ∧ open_cell b ∧ beside a b ∧ u = index a ∧ v = index b.
Proof.
  intros Hr. rewrite (build_graph Hr), (maze_build_elem _ _ _ _ grid_calls_in_range).
  rewrite !grid_calls_elem. split; [| by left].
  intros [Hc | (a & b & Ha & Hb & Hbeside & -> & ->)]; [done |].
  exists b, a. split_and!; try done. by apply beside_sym.
Qed.

Lemma build_edges_in_range :
  0 ≤ num_rows → maze_edges_in_range (graph (build maze num_rows num_cols)).
Proof.
  intros Hr u v Hv. rewrite (build_graph Hr) in *.
  destruct (maze_build_shape (num_rows * num_cols) grid_calls) as [-> _].
  apply (maze_build_elem _ _ _ _ grid_calls_in_range) in Hv as [Hc | Hc];
    apply grid_calls_in_range in Hc; simpl in Hc; lia.
Qed.

(** *** The two markers *)

Definition visit_all (l : list (Z * Z)) (st : build_state) : build_state :=
  fold_left (λ st a, visit maze num_rows num_cols a.1 a.2 st) l st.

Lemma visit_start r c st :
  start_node (visit maze num_rows num_cols r c st)
  = if Ascii.eqb (at_cell maze r c) "S" then Maze.map_coord_to_index r c num_cols
    else start_node st.
Proof.
  unfold visit. destruct (Ascii.eqb_spec (at_cell maze r c) "#") as [-> | _]; done.
Qed.

Lemma visit_end r c st :
  end_node (visit maze num_rows num_cols r c st)
  = if Ascii.eqb (at_cell maze r c) "E" then Maze.map_coord_to_index r c num_cols
    else end_node st.
Proof.
  unfold visit. destruct (Ascii.eqb_spec (at_cell maze r c) "#") as [-> | _]; [done |].
  cbn [end_node]. by destruct (Ascii.eqb_spec (at_cell maze r c) "S") as [-> | _].
Qed.

(** [start_node] after the loops have been over the cells [l]: what it was,
    if none of them holds an 'S', and the index of one that does
    otherwise. *)
Lemma visit_all_start l st :
  (start_node (visit_all l st) = start_node st
   ∧ ∀ a, a ∈ l → at_cell maze a.1 a.2 ≠ "S"%char)
  ∨ (∃ a, a ∈ l ∧ at_cell maze a.1 a.2 = "S"%char
          ∧ start_node (visit_all l st) = Maze.map_coord_to_index a.1 a.2 num_cols).
Proof.
  induction l as [| a l IH] using rev_ind.
  - left. split; [done |]. intros a Ha. by apply elem_of_nil in Ha.
  - unfold visit_all in *. rewrite fold_left_app. cbn [fold_left]. rewrite visit_start.
    destruct (Ascii.eqb_spec (at_cell maze a.1 a.2) "S") as [HS | HS].
    + right. exists a. split; [apply elem_of_app; right; left | done].
    + destruct IH as [[Heq Hnone] | (a' & Ha' & HS' & Heq)].
      * left. split; [done |]. intros a' Ha'.
        apply elem_of_app in Ha' as [Ha' | Ha']; [by apply Hnone |].
        apply list_elem_of_singleton in Ha'. by subst a'.
      * right. exists a'. split; [apply elem_of_app; by left | done].
Qed.

Lemma visit_all_end l st :
  (end_node (visit_all l st) = end_node st
   ∧ ∀ a, a ∈ l → at_cell maze a.1 a.2 ≠ "E"%char)
  ∨ (∃ a, a ∈ l ∧ at_cell maze a.1 a.2 = "E"%char
          ∧ end_node (visit_all l st) = Maze.map_coord_to_index a.1 a.2 num_cols).
Proof.
  induction l as [| a l IH] using rev_ind.
  - left. split; [done |]. intros a Ha. by apply elem_of_nil in Ha.
  - unfold visit_all in *. rewrite fold_left_app. cbn [fold_left]. rewrite visit_end.
    destruct (Ascii.eqb_spec (at_cell maze a.1 a.2) "E") as [HE | HE].
    + right. exists a. split; [apply elem_of_app; right; left | done].
    + destruct IH as [[Heq Hnone] | (a' & Ha' & HE' & Heq)].
      * left. split; [done |]. intros a' Ha'.
        apply elem_of_app in Ha' as [Ha' | Ha']; [by apply Hnone |].
        apply list_elem_of_singleton in Ha'. by subst a'.
      * right. exists a'. split; [apply elem_of_app; by left | done].
Qed.

(** A cell of the grid that holds the character [ch]. *)
Definition marked (ch : Ascii.ascii) (a : Maze.Cell) : Prop :=
  0 ≤ Maze.row a < num_rows ∧ 0 ≤ Maze.col a < num_cols
  ∧ at_cell maze (Maze.row a) (Maze.col a) = ch.

Lemma marked_open ch a : ch ≠ "#"%char → marked ch a → open_cell a.
Proof. intros Hch (Hr & Hc & Hat). split; [done |]. split; [done |]. congruence. Qed.

Lemma build_start :
  (start_node (build maze num_rows num_cols) = -1 ∧ ∀ a, ¬ marked "S" a)
  ∨ (∃ a, marked "S" a ∧ start_node (build maze num_rows num_cols) = index a).
Proof.
  rewrite build_fold. destruct (visit_all_start cells unbuilt)
    as [[Heq Hnone] | ([r c] & Hin & HS & Heq)].
  - left. split; [done |]. intros [r c] (Hr & Hc & HS). simpl in *.
    by apply (Hnone (r, c)); [apply elem_of_cells |].
  - right. apply elem_of_cells in Hin as [Hr Hc].
    exists {| Maze.row := r; Maze.col := c |}. split; [done |].
    destruct (index_of {| Maze.row := r; Maze.col := c |} Hr Hc) as (<- & _). done.
Qed.

Lemma build_end :
  (end_node (build maze num_rows num_cols) = -1 ∧ ∀ a, ¬ marked "E" a)
  ∨ (∃ a, marked "E" a ∧ end_node (build maze num_rows num_cols) = index a).
Proof.
  rewrite build_fold. destruct (visit_all_end cells unbuilt)
    as [[Heq Hnone] | ([r c] & Hin & HS & Heq)].
  - left. split; [done |]. intros [r c] (Hr & Hc & HS). simpl in *.
    by apply (Hnone (r, c)); [apply elem_of_cells |].
  - right. apply elem_of_cells in Hin as [Hr Hc].
    exists {| Maze.row := r; Maze.col := c |}. split; [done |].
    destruct (index_of {| Maze.row := r; Maze.col := c |} Hr Hc) as (<- & _). done.
Qed.

(** *** Walks in the grid and paths in the graph *)





(** *** The run of the program *)

Lemma index_nonneg a : open_cell a → 0 ≤ index a < num_rows * num_cols.
Proof. intros (Hr & Hc & _). by apply index_of. Qed.

Lemma build_markers :
  (start_node (build maze num_rows num_cols) = -1 ↔ ∀ a, ¬ marked "S" a)
  ∧ (start_node (build maze num_rows num_cols) ≠ -1 →
     ∃ a, marked "S" a ∧ start_node (build maze num_rows num_cols) = index a)
  ∧ (end_node (build maze num_rows num_cols) = -1 ↔ ∀ a, ¬ marked "E" a)
  ∧ (end_node (build maze num_rows num_cols) ≠ -1 →
     ∃ a, marked "E" a ∧ end_node (build maze num_rows num_cols) = index a).
Proof.
  assert (∀ ch a, ch ≠ "#"%char → marked ch a → index a ≠ -1) as Hidx.
  { intros ch a Hch Ha. pose proof (index_nonneg a (marked_open ch a Hch Ha)). lia. }
  split; [| split; [| split]].
  - destruct build_start as [[HS HnoS] | (s & Hs & HS)]; [done |]. split.
    + intros Heq. exfalso. apply (Hidx "S"%char s); [done | done | congruence].
    + intros Hno. exfalso. by apply (Hno s).
  - destruct build_start as [[HS HnoS] | (s & Hs & HS)]; [done |]. intros _. by exists s.
  - destruct build_end as [[HE HnoE] | (e & He & HE)]; [done |]. split.
    + intros Heq. exfalso. apply (Hidx "E"%char e); [done | done | congruence].
    + intros Hno. exfalso. by apply (Hno e).
  - destruct build_end as [[HE HnoE] | (e & He & HE)]; [done |]. intros _. by exists e.
Qed.



End maze_program.

(** X18.  The graph that the loops of [main] build from a grid (an array
    that covers [num_rows] by [num_cols] cells, their product an [int]) has
    one node per cell, keeps every edge inside the graph, and joins two nodes
    exactly when they are the indices of two open cells (cells of the grid
    that hold no '#') of which one is directly above, below, left or right
    of the other. *)
Theorem maze_graph_of_grid (maze : MazeMain.Grid) (num_rows num_cols : Z) :
  MazeMain.covers maze num_rows num_cols = true →
  0 ≤ num_rows →
  0 < num_cols →
  num_rows * num_cols ≤ INT_MAX →
  Maze.num_nodes (MazeMain.graph (MazeMain.build maze num_rows num_cols))
  = num_rows * num_cols
  ∧ maze_edges_in_range (MazeMain.graph (MazeMain.build maze num_rows num_cols))
  ∧ ∀ u v,
      v ∈ Maze.adj (MazeMain.graph (MazeMain.build maze num_rows num_cols)) u
      ↔ ∃ a b, open_cell maze num_rows num_cols a ∧ open_cell maze num_rows num_cols b
               ∧ beside a b ∧ u = index num_cols a ∧ v = index num_cols b.
Proof.
  intros _ Hr Hc Hfit. split; [| split].
  - rewrite (build_graph maze num_rows num_cols Hc Hfit Hr).
    by destruct (maze_build_shape (num_rows * num_cols) (grid_calls maze num_rows num_cols)).
  - by apply build_edges_in_range.
  - intros u v. by apply build_adj.
Qed.

Lemma maze_graph_of_grid_witness :
  Maze.num_nodes (MazeMain.graph (MazeMain.build MazeMain.maze 10 10)) = 10 * 10
  ∧ maze_edges_in_range (MazeMain.graph (MazeMain.build MazeMain.maze 10 10))
  ∧ ∀ u v,
      v ∈ Maze.adj (MazeMain.graph (MazeMain.build MazeMain.maze 10 10)) u
      ↔ ∃ a b, open_cell MazeMain.maze 10 10 a ∧ open_cell MazeMain.maze 10 10 b
               ∧ beside a b ∧ u = index 10 a ∧ v = index 10 b.
Proof.
  apply (maze_graph_of_grid MazeMain.maze 10 10); [reflexivity | lia | lia | by vm_compute].
Defined.

(** X19.  After the loops of [main], [start_node] is -1 exactly when no
    cell of the grid holds 'S', and is otherwise the index of a cell that
    holds 'S'; the same for [end_node] and 'E'. *)
Theorem maze_markers_located (maze : MazeMain.Grid) (num_rows num_cols : Z) :
  MazeMain.covers maze num_rows num_cols = true →
  0 < num_cols →
  num_rows * num_cols ≤ INT_MAX →
  (MazeMain.start_node (MazeMain.build maze num_rows num_cols) = -1
   ↔ ∀ a, ¬ marked maze num_rows num_cols "S" a)
  ∧ (MazeMain.start_node (MazeMain.build maze num_rows num_cols) ≠ -1 →
     ∃ a, marked maze num_rows num_cols "S" a
          ∧ MazeMain.start_node (MazeMain.build maze num_rows num_cols) = index num_cols a)
  ∧ (MazeMain.end_node (MazeMain.build maze num_rows num_cols) = -1
     ↔ ∀ a, ¬ marked maze num_rows num_cols "E" a)
  ∧ (MazeMain.end_node (MazeMain.build maze num_rows num_cols) ≠ -1 →
     ∃ a, marked maze num_rows num_cols "E" a
          ∧ MazeMain.end_node (MazeMain.build maze num_rows num_cols) = index num_cols a).
Proof. intros _ Hc Hfit. by apply build_markers. Qed.

Lemma maze_markers_located_witness :
  (MazeMain.start_node (MazeMain.build MazeMain.maze 10 10) = -1
   ↔ ∀ a, ¬ marked MazeMain.maze 10 10 "S" a)
  ∧ (MazeMain.start_node (MazeMain.build MazeMain.maze 10 10) ≠ -1 →
     ∃ a, marked MazeMain.maze 10 10 "S" a
          ∧ MazeMain.start_node (MazeMain.build MazeMain.maze 10 10) = index 10 a)
  ∧ (MazeMain.end_node (MazeMain.build MazeMain.maze 10 10) = -1
     ↔ ∀ a, ¬ marked MazeMain.maze 10 10 "E" a)
  ∧ (MazeMain.end_node (MazeMain.build MazeMain.maze 10 10) ≠ -1 →
     ∃ a, marked MazeMain.maze 10 10 "E" a
          ∧ MazeMain.end_node (MazeMain.build MazeMain.maze 10 10) = index 10 a).
Proof.
  apply (maze_markers_located MazeMain.maze 10 10); [reflexivity | lia | by vm_compute].
Defined.



(** The run of [main] itself: 'S' at (1, 1), 'E' at (1, 8); [bfs] prints a
    walk of 13 moves and [dfs] one of 17. *)
Example maze_main_runs :
  ∃ by_bfs by_dfs wb wd,
    MazeMain.main = Some (MazeMain.Searched by_bfs by_dfs)
    ∧ Maze.bfs_printed by_bfs = Maze.PathFound wb
    ∧ Maze.dfs_printed by_dfs = Maze.PathFound wd
    ∧ head wb = Some {| Maze.row := 1; Maze.col := 1 |}
    ∧ last wb = Some {| Maze.row := 1; Maze.col := 8 |}
    ∧ length wb = 14%nat ∧ length wd = 18%nat.
Proof. do 4 eexists. split; [by vm_compute |]. by vm_compute. Qed.

(** * The linked adjacency lists of the maze graph *)

(** [Maze.Graph] holds each adjacency list as a list of destinations.  The
    program keeps a [Graph] record that points to an array of list heads,
    each list a chain of [AdjListNode]s; this part models that
    representation on a heap and shows that [create_graph] and [add_edge]
    build what [Maze.create_graph] and [Maze.add_edge] say, and that
    [free_graph] gives all of it back. *)
Module LinkedGraph.

(** A pointer: [NULL] or an address. *)
Abbreviation ptr := (option nat).

Inductive cell :=
| AdjListNode (dest : Z) (next : ptr)
| Slots (heads : list ptr)
| GraphRecord (num_nodes : Z) (adj_lists : nat).

Definition heap : Type := nat → option cell.

Definition store (h : heap) (l : nat) (c : option cell) : heap :=
  λ l', if decide (l' = l) then c else h l'.

(** How a call ends: it returns, the program is terminated by
    [exit(EXIT_FAILURE)], or it goes through a pointer or an index that
    holds no object of the expected type. *)
Inductive run (A : Type) :=
| Done (a : A)
| Exited
| Undefined.
Arguments Done {A} a.
Arguments Exited {A}.
Arguments Undefined {A}.

(** [new] is what [malloc] returns in the call. *)
Definition create_adj_list_node (new : ptr) (h : heap) (dest : Z) : run (heap * nat) :=
  match new with
  | None => Exited
  | Some new_node => Done (store h new_node (Some (AdjListNode dest None)), new_node)
  end.

(** [new_graph] and [new_lists] are what the two calls of [malloc] return.
    The array is shown as it is after the loop that sets every head to
    [NULL]. *)
Definition create_graph (new_graph new_lists : ptr) (h : heap) (num_nodes : Z)
    : run (heap * nat) :=
  match new_graph with
  | None => Exited
  | Some graph =>
    match new_lists with
    | None => Exited
    | Some lists =>
      let h := store h graph (Some (GraphRecord num_nodes lists)) in
      Done (store h lists (Some (Slots (replicate (Z.to_nat num_nodes) None))), graph)
    end
  end.

(** One half of [add_edge]: a new node for [dest] becomes the head of the
    list of [src]. *)
Definition link (new : ptr) (h : heap) (graph : nat) (src dest : Z) : run heap :=
  match create_adj_list_node new h dest with
  | Done (h, new_node) =>
    match h graph with
    | Some (GraphRecord _ lists) =>
      match h lists with
      | Some (Slots heads) =>
        if (0 <=? src) && (src <? Z.of_nat (length heads)) then
          let h := store h new_node (Some (AdjListNode dest (rd None heads src))) in
          Done (store h lists (Some (Slots (wr heads src (Some new_node)))))
        else Undefined
      | _ => Undefined
      end
    | _ => Undefined
    end
  | Exited => Exited
  | Undefined => Undefined
  end.

Definition add_edge (new1 new2 : ptr) (h : heap) (graph : nat) (src dest : Z) : run heap :=
  match link new1 h graph src dest with
  | Done h => link new2 h graph dest src
  | Exited => Exited
  | Undefined => Undefined
  end.

(** The [while (current)] loop of [free_graph]; [fuel] bounds its turns. *)
Fixpoint free_list (fuel : nat) (h : heap) (current : ptr) : option (run heap) :=
  match current with
  | None => Some (Done h)
  | Some temp =>
    match h temp with
    | Some (AdjListNode _ next) =>
      match fuel with
      | O => None
      | S f => free_list f (store h temp None) next
      end
    | _ => Some Undefined
    end
  end.

(** Body of the [for] loop of [free_graph]. *)
Definition free_slot (fuel : nat) (graph : nat) (i : Z) (r : option (run heap))
    : option (run heap) :=
  match r with
  | Some (Done h) =>
    match h graph with
    | Some (GraphRecord _ lists) =>
      match h lists with
      | Some (Slots heads) =>
        if i <? Z.of_nat (length heads) then free_list fuel h (rd None heads i)
        else Some Undefined
      | _ => Some Undefined
      end
    | _ => Some Undefined
    end
  | other => other
  end.

Definition free_graph (fuel : nat) (h : heap) (graph : ptr) : option (run heap) :=
  match graph with
  | None => Some (Done h)
  | Some g =>
    match h g with
    | Some (GraphRecord num_nodes _) =>
      match for_upto num_nodes (free_slot fuel g) (Some (Done h)) with
      | Some (Done h) =>
        match h g with
        | Some (GraphRecord _ lists) => Some (Done (store (store h lists None) g None))
        | _ => Some Undefined
        end
      | other => other
      end
    | _ => Some Undefined
    end
  end.

(** The nodes at addresses [ls], linked in this order from [p] to [NULL],
    hold the destinations [ds]. *)
Fixpoint list_at (h : heap) (p : ptr) (ls : list nat) (ds : list Z) : Prop :=
  match ls, ds with
  | [], [] => p = None
  | l :: ls', d :: ds' =>
    p = Some l ∧ ∃ next, h l = Some (AdjListNode d next) ∧ list_at h next ls' ds'
  | _, _ => False
  end.

(** The record at [graph] with its array at [lists] stores the graph [G]:
    list [i] of [G] is held by the nodes at the addresses [lss[i]], and no
    node is in two places. *)
Definition is_graph (h : heap) (graph lists : nat) (G : Maze.Graph)
    (lss : list (list nat)) : Prop :=
  h graph = Some (GraphRecord (Maze.num_nodes G) lists)
  ∧ Z.of_nat (length (Maze.adj_lists G)) = Maze.num_nodes G
  ∧ length lss = length (Maze.adj_lists G)
  ∧ NoDup (concat lss)
  ∧ ∃ heads, h lists = Some (Slots heads)
             ∧ length heads = length (Maze.adj_lists G)
             ∧ ∀ i, list_at h (rd None heads i) (rd [] lss i) (rd [] (Maze.adj_lists G) i).

End LinkedGraph.

Section linked_graph.
Import LinkedGraph.

Lemma graph_store_eq h l c : store h l c l = c.
Proof. unfold store. by case_decide. Qed.

Lemma graph_store_ne h l c l' : l' ≠ l → store h l c l' = h l'.
Proof. unfold store. by case_decide. Qed.

Lemma list_at_frame h h' p ls ds :
  (∀ l, l ∈ ls → h' l = h l) → list_at h p ls ds → list_at h' p ls ds.
Proof.
  revert p ds. induction ls as [| l ls IH]; intros p [| d ds] Hsame; simpl; try done.
  intros (-> & next & Hl & Hn). split; [done |]. exists next. split.
  - rewrite Hsame; [done | left].
  - apply IH; [| done]. intros l' Hl'. apply Hsame. by right.
Qed.

Lemma list_at_allocated h p ls ds l :
  list_at h p ls ds → l ∈ ls → ∃ d next, h l = Some (AdjListNode d next).
Proof.
  revert p ds. induction ls as [| l0 ls IH]; intros p [| d ds]; simpl; try done.
  - intros _ Hl. by apply elem_of_nil in Hl.
  - intros (_ & next & Hl0 & Hn) Hl. apply elem_of_cons in Hl as [-> | Hl].
    + by do 2 eexists.
    + by eapply IH.
Qed.

Lemma list_at_length h p ls ds : list_at h p ls ds → length ls = length ds.
Proof.
  revert p ds. induction ls as [| l ls IH]; intros p [| d ds]; simpl; try done.
  intros (_ & next & _ & Hn). f_equal. by eapply IH.
Qed.

Lemma rd_lookup {A} (d : A) (a : list A) i :
  in_range a i → a !! Z.to_nat i = Some (rd d a i).
Proof.
  unfold in_range, rd. intros Hi. destruct (Z.ltb_spec i 0); [lia |].
  destruct (lookup_lt_is_Some_2 a (Z.to_nat i)) as [x Hx]; [lia |]. by rewrite Hx.
Qed.

Lemma elem_of_concat {A} (x : A) (a : list (list A)) :
  x ∈ concat a ↔ ∃ l, x ∈ l ∧ l ∈ a.
Proof.
  split.
  - intros Hx. apply list_elem_of_In, in_concat in Hx as (l & Hl & Hx).
    exists l. split; by apply list_elem_of_In.
  - intros (l & Hx & Hl). apply list_elem_of_In, in_concat.
    exists l. split; by apply list_elem_of_In.
Qed.

Lemma rd_elem {A} (a : list (list A)) i x : x ∈ rd [] a i → x ∈ concat a.
Proof.
  intros Hx. destruct (decide (in_range a i)) as [Hi | Hi].
  - apply elem_of_concat. exists (rd [] a i). split; [done |].
    eapply list_elem_of_lookup_2. by apply rd_lookup.
  - rewrite rd_out in Hx by done. by apply elem_of_nil in Hx.
Qed.

Lemma concat_elem {A} (a : list (list A)) x : x ∈ concat a → ∃ i, x ∈ rd [] a i.
Proof.
  intros Hx. apply elem_of_concat in Hx as (l & Hx & Hl).
  apply list_elem_of_lookup in Hl as [k Hk]. exists (Z.of_nat k).
  unfold rd. destruct (Z.ltb_spec (Z.of_nat k) 0); [lia |].
  by rewrite Nat2Z.id, Hk.
Qed.

Lemma concat_insert_head {A} (a : list (list A)) k l x :
  a !! k = Some l → concat (<[k := x :: l]> a) ≡ₚ x :: concat a.
Proof.
  revert k. induction a as [| l0 a IH]; intros [| k] Hk; simpl in *; try done.
  - by injection Hk as ->.
  - rewrite (IH _ Hk). by rewrite Permutation_middle.
Qed.

Lemma concat_wr_head {A} (a : list (list A)) i x :
  in_range a i → concat (wr a i (x :: rd [] a i)) ≡ₚ x :: concat a.
Proof.
  intros Hi. pose proof (rd_lookup [] a i Hi) as Hl. unfold wr.
  destruct (Z.ltb_spec i 0); [unfold in_range in Hi; lia |].
  by apply concat_insert_head.
Qed.

Lemma concat_slots_nodup {A} (a : list (list A)) :
  NoDup (concat a) →
  (∀ i, NoDup (rd [] a i))
  ∧ (∀ i j x, i ≠ j → x ∈ rd [] a i → x ∈ rd [] a j → False).
Proof.
  intros Hnd.
  assert (∀ k l, a !! k = Some l → NoDup l) as Hone.
  { clear -Hnd. induction a as [| l0 a IH]; intros [| k] l Hk; simpl in *; try done;
      apply NoDup_app in Hnd as (Hl0 & _ & Ha).
    - by injection Hk as <-.
    - by eapply IH. }
  assert (∀ k k' l l' x, k ≠ k' → a !! k = Some l → a !! k' = Some l' →
            x ∈ l → x ∈ l' → False) as Htwo.
  { clear -Hnd. induction a as [| l0 a IH]; intros [| k] [| k'] l l' x Hne Hk Hk' Hx Hx';
      simpl in *; try done; apply NoDup_app in Hnd as (Hl0 & Hout & Ha).
    - injection Hk as <-. apply (Hout x Hx). apply elem_of_concat. exists l'.
      split; [done |]. by eapply list_elem_of_lookup_2.
    - injection Hk' as <-. apply (Hout x Hx'). apply elem_of_concat. exists l.
      split; [done |]. by eapply list_elem_of_lookup_2.
    - eapply (IH Ha k k'); [congruence | done..]. }
  split.
  - intros i. destruct (decide (in_range a i)) as [Hi | Hi].
    + eapply Hone. by apply rd_lookup.
    + rewrite rd_out by done. constructor.
  - intros i j x Hne Hx Hx'.
    destruct (decide (in_range a i)) as [Hi | Hi];
      [| rewrite rd_out in Hx by done; by apply elem_of_nil in Hx].
    destruct (decide (in_range a j)) as [Hj | Hj];
      [| rewrite rd_out in Hx' by done; by apply elem_of_nil in Hx'].
    apply (Htwo (Z.to_nat i) (Z.to_nat j) (rd [] a i) (rd [] a j) x);
      try done; try (by apply rd_lookup).
    unfold in_range in *. lia.
Qed.

Lemma is_graph_nodes h graph lists G lss l :
  is_graph h graph lists G lss → l ∈ concat lss →
  (∃ d next, h l = Some (AdjListNode d next)) ∧ l ≠ graph ∧ l ≠ lists.
Proof.
  intros (Hg & _ & _ & _ & heads & Hlists & _ & Hall) Hl.
  apply concat_elem in Hl as [i Hl].
  destruct (list_at_allocated _ _ _ _ _ (Hall i) Hl) as (d & next & Hnode).
  split; [by do 2 eexists |]. split; intros ->; congruence.
Qed.

Lemma create_graph_linked h graph lists n :
  0 ≤ n → h graph = None → h lists = None → graph ≠ lists →
  ∃ h', create_graph (Some graph) (Some lists) h n = Done (h', graph)
        ∧ is_graph h' graph lists (Maze.create_graph n) (replicate (Z.to_nat n) [])
        ∧ ∀ l, l ≠ graph → l ≠ lists → h' l = h l.
Proof.
  intros Hn _ _ Hne. eexists. split; [done |]. split.
  - split; [| split; [| split; [| split]]].
    + rewrite graph_store_ne by done. by rewrite graph_store_eq.
    + simpl. rewrite length_replicate. lia.
    + simpl. by rewrite !length_replicate.
    + assert (∀ k, concat (replicate k (@nil nat)) = []) as ->
        by (induction k; simpl; done).
      constructor.
    + eexists. split; [by rewrite graph_store_eq |].
      split; [simpl; by rewrite !length_replicate |].
      intros i. simpl. by rewrite !rd_replicate_default.
  - intros l Hg Hl. by rewrite !graph_store_ne.
Qed.

(** One half of [add_edge] on a stored graph. *)
Lemma link_linked h graph lists G lss src dest n :
  is_graph h graph lists G lss → in_range (Maze.adj_lists G) src → h n = None →
  ∃ h', link (Some n) h graph src dest = Done h'
        ∧ is_graph h' graph lists
            {| Maze.num_nodes := Maze.num_nodes G;
               Maze.adj_lists :=
                 wr (Maze.adj_lists G) src (dest :: rd [] (Maze.adj_lists G) src) |}
            (wr lss src (n :: rd [] lss src))
        ∧ ∀ l, l ≠ n → l ≠ lists → h' l = h l.
Proof.
  intros Hgraph Hsrc Hfree.
  assert (n ∉ concat lss) as Hn.
  { intros Hin. destruct (is_graph_nodes _ _ _ _ _ _ Hgraph Hin) as ((? & ? & ?) & _).
    congruence. }
  pose proof (λ l, is_graph_nodes _ _ _ _ _ l Hgraph) as Hnodes.
  destruct Hgraph as (Hg & Hlen & Hlss & Hnd & heads & Hlists & Hheads & Hall).
  assert (n ≠ graph) by (intros ->; congruence).
  assert (n ≠ lists) by (intros ->; congruence).
  assert (graph ≠ lists) by (intros ->; congruence).
  unfold link, create_adj_list_node. cbv beta iota zeta.
  rewrite graph_store_ne by done. rewrite Hg. cbv beta iota zeta.
  rewrite graph_store_ne by done. rewrite Hlists. cbv beta iota zeta.
  unfold in_range in Hsrc.
  destruct (Z.leb_spec 0 src); [| lia].
  destruct (Z.ltb_spec src (Z.of_nat (length heads))); [| lia]. cbn [andb].
  eexists. split; [done |]. split.
  - split; [| split; [| split; [| split]]]; simpl.
    + by rewrite !graph_store_ne.
    + by rewrite length_wr.
    + by rewrite !length_wr.
    + rewrite concat_wr_head by (unfold in_range; lia). by apply NoDup_cons.
    + eexists. split; [by rewrite graph_store_eq |]. split; [by rewrite !length_wr |].
      intros i.
      assert (∀ j, list_at
                (store (store (store h n (Some (AdjListNode dest None))) n
                          (Some (AdjListNode dest (rd None heads src))))
                       lists (Some (Slots (wr heads src (Some n)))))
                (rd None heads j) (rd [] lss j) (rd [] (Maze.adj_lists G) j)) as Hkept.
      { intros j. apply list_at_frame with h; [| done]. intros l Hl.
        apply rd_elem in Hl. destruct (Hnodes l Hl) as (_ & ? & ?).
        rewrite !graph_store_ne; (done || by intros ->). }
      rewrite !rd_wr by (unfold in_range; lia). case_decide as Hi; [| done].
      subst i. simpl. split; [done |]. eexists. split; [| done].
      rewrite graph_store_ne by done. by rewrite graph_store_eq.
  - intros l Hl Hlists'. by rewrite !graph_store_ne.
Qed.

Lemma add_edge_linked h graph lists G lss src dest n1 n2 :
  is_graph h graph lists G lss →
  in_range (Maze.adj_lists G) src → in_range (Maze.adj_lists G) dest →
  h n1 = None → h n2 = None → n1 ≠ n2 →
  ∃ h', add_edge (Some n1) (Some n2) h graph src dest = Done h'
        ∧ is_graph h' graph lists (Maze.add_edge G src dest)
            (wr (wr lss src (n1 :: rd [] lss src)) dest
                (n2 :: rd [] (wr lss src (n1 :: rd [] lss src)) dest))
        ∧ ∀ l, l ≠ n1 → l ≠ n2 → l ≠ lists → h' l = h l.
Proof.
  intros Hgraph Hsrc Hdest Hfree1 Hfree2 Hne.
  assert (n2 ≠ lists).
  { destruct Hgraph as (_ & _ & _ & _ & heads & Hlists & _). intros ->. congruence. }
  destruct (link_linked _ _ _ _ _ src dest n1 Hgraph Hsrc Hfree1) as (h1 & Hrun1 & Hg1 & Hkeep1).
  destruct (link_linked _ _ _ _ _ dest src n2 Hg1) as (h2 & Hrun2 & Hg2 & Hkeep2).
  { unfold in_range in *. simpl. by rewrite length_wr. }
  { rewrite Hkeep1; [done | by intros -> | done]. }
  exists h2. unfold add_edge. rewrite Hrun1. split; [done |]. split; [exact Hg2 |].
  intros l Hl1 Hl2 Hl. rewrite Hkeep2 by done. by apply Hkeep1.
Qed.

Lemma free_list_linked h p ls ds fuel :
  list_at h p ls ds → NoDup ls → (length ls ≤ fuel)%nat →
  ∃ h', free_list fuel h p = Some (Done h')
        ∧ (∀ l, l ∈ ls → h' l = None) ∧ (∀ l, l ∉ ls → h' l = h l).
Proof.
  revert h p ds fuel. induction ls as [| l ls IH]; intros h p [| d ds] fuel; simpl; try done.
  - intros -> _ _. exists h. split; [by destruct fuel |]. split; [| done].
    intros l Hl. by apply elem_of_nil in Hl.
  - intros (-> & next & Hl & Hnext) Hnd Hfuel. apply NoDup_cons in Hnd as [Hout Hnd].
    destruct fuel as [| fuel]; [lia |]. simpl. rewrite Hl.
    destruct (IH (store h l None) next ds fuel) as (h' & Hrun & Hfreed & Hkept);
      [| done | lia |].
    { apply list_at_frame with h; [| done]. intros l' Hl'. apply graph_store_ne.
      by intros ->. }
    exists h'. split; [done |]. split.
    + intros l' Hl'. apply elem_of_cons in Hl' as [-> | Hl']; [| by apply Hfreed].
      rewrite Hkept by done. apply graph_store_eq.
    + intros l' Hl'. apply not_elem_of_cons in Hl' as [Hne Hl'].
      rewrite Hkept by done. by apply graph_store_ne.
Qed.

(** The heap after the first [k] lists have been freed. *)
Definition lists_freed (h : heap) (lss : list (list nat)) (k : Z) (h' : heap) : Prop :=
  ∀ l, (l ∈ concat lss → (∃ i, 0 ≤ i < k ∧ l ∈ rd [] lss i) → h' l = None)
       ∧ (¬ (∃ i, 0 ≤ i < k ∧ l ∈ rd [] lss i) → h' l = h l).

Lemma free_slots_linked h graph lists G lss fuel k :
  is_graph h graph lists G lss → (length (concat lss) ≤ fuel)%nat →
  0 ≤ k ≤ Maze.num_nodes G →
  ∃ h', for_upto k (free_slot fuel graph) (Some (Done h)) = Some (Done h')
        ∧ lists_freed h lss k h'.
Proof.
  intros Hgraph Hfuel [Hk Hkn]. revert Hkn. pattern k. apply natlike_ind; [| | done].
  - intros _. exists h. rewrite for_upto_zero. split; [done |]. intros l. split; [| done].
    intros _ (i & Hi & _). lia.
  - clear k Hk. intros k Hk IH Hkn. unfold Z.succ in *.
    destruct IH as (h1 & Hrun & Hfreed); [lia |].
    rewrite for_upto_succ by done. rewrite Hrun. unfold free_slot.
    pose proof (λ l, is_graph_nodes _ _ _ _ _ l Hgraph) as Hnodes.
    destruct Hgraph as (Hg & Hlen & Hlss & Hnd & heads & Hlists & Hheads & Hall).
    destruct (concat_slots_nodup lss Hnd) as [Hone Htwo].
    assert (∀ l, (∃ i, 0 ≤ i < k ∧ l ∈ rd [] lss i) → l ∈ concat lss) as Hin
      by (intros l (i & _ & Hl); by eapply rd_elem).
    assert (h1 graph = h graph) as Hg1.
    { apply Hfreed. intros Hex. by destruct (Hnodes graph (Hin graph Hex)) as (_ & ? & _). }
    assert (h1 lists = h lists) as Hlists1.
    { apply Hfreed. intros Hex. by destruct (Hnodes lists (Hin lists Hex)) as (_ & _ & ?). }
    rewrite Hg1, Hg. cbv beta iota. rewrite Hlists1, Hlists. cbv beta iota.
    destruct (Z.ltb_spec k (Z.of_nat (length heads))); [| lia].
    destruct (free_list_linked h1 (rd None heads k) (rd [] lss k)
                (rd [] (Maze.adj_lists G) k) fuel) as (h2 & Hrun2 & Hfreed2 & Hkept2).
    { apply list_at_frame with h; [| done]. intros l Hl. apply Hfreed.
      intros (i & Hi & Hl'). apply (Htwo i k l); [lia | done..]. }
    { apply Hone. }
    { assert (length (rd [] lss k) ≤ length (concat lss))%nat; [| lia].
      apply submseteq_length, NoDup_submseteq; [apply Hone |].
      intros l Hl. by eapply rd_elem. }
    exists h2. split; [done |]. intros l. split.
    + intros Hl (i & Hi & Hli). destruct (decide (l ∈ rd [] lss k)) as [Hlk | Hlk].
      * by apply Hfreed2.
      * rewrite Hkept2 by done. apply Hfreed; [done |]. exists i. split; [| done].
        destruct (decide (i = k)) as [-> | ?]; [done | lia].
    + intros Hnone. rewrite Hkept2.
      * apply Hfreed. intros (i & Hi & Hli). apply Hnone. exists i. split; [lia | done].
      * intros Hlk. apply Hnone. exists k. split; [lia | done].
Qed.

Lemma free_graph_linked h graph lists G lss fuel :
  is_graph h graph lists G lss → (length (concat lss) ≤ fuel)%nat →
  ∃ h', free_graph fuel h (Some graph) = Some (Done h')
        ∧ h' graph = None ∧ h' lists = None
        ∧ (∀ l, l ∈ concat lss → h' l = None)
        ∧ (∀ l, l ≠ graph → l ≠ lists → l ∉ concat lss → h' l = h l).
Proof.
  intros Hgraph Hfuel.
  pose proof (λ l, is_graph_nodes _ _ _ _ _ l Hgraph) as Hnodes.
  destruct (free_slots_linked _ _ _ _ _ fuel (Maze.num_nodes G) Hgraph Hfuel)
    as (h1 & Hrun & Hfreed).
  { destruct Hgraph as (_ & <- & _). lia. }
  pose proof Hgraph as (Hg & Hlen & Hlss & Hnd & heads & Hlists & Hheads & Hall).
  assert (∀ l i, l ∈ rd [] lss i → 0 ≤ i < Maze.num_nodes G) as Hrange.
  { intros l i Hl. destruct (decide (in_range lss i)) as [Hi | Hi].
    - unfold in_range in Hi. lia.
    - rewrite rd_out in Hl by done. by apply elem_of_nil in Hl. }
  assert (graph ≠ lists) by (intros ->; congruence).
  assert (h1 graph = h graph) as Hg1.
  { apply Hfreed. intros (i & _ & Hl).
    by destruct (Hnodes graph (rd_elem _ _ _ Hl)) as (_ & ? & _). }
  unfold free_graph. rewrite Hg, Hrun, Hg1, Hg.
  eexists. split; [done |]. split_and!.
  - apply graph_store_eq.
  - rewrite graph_store_ne by done. apply graph_store_eq.
  - intros l Hl. destruct (Hnodes l Hl) as (_ & ? & ?). rewrite !graph_store_ne by done.
    apply Hfreed; [done |]. apply concat_elem in Hl as [i Hl]. exists i. split; [| done].
    by eapply Hrange.
  - intros l ? ? Hl. rewrite !graph_store_ne by done. apply Hfreed.
    intros (i & _ & Hli). apply Hl. by eapply rd_elem.
Qed.

(** A heap with nothing allocated, a graph of two nodes created in it
    (record at 0, array at 1), and that graph after [add_edge] between its
    two nodes (list nodes at 2 and 3). *)
Definition bare : heap := λ _, None.

Definition two_nodes : heap :=
  match create_graph (Some 0%nat) (Some 1%nat) bare 2 with
  | Done (h, _) => h
  | _ => bare
  end.

Definition one_edge : heap :=
  match add_edge (Some 2%nat) (Some 3%nat) two_nodes 0 0 1 with
  | Done h => h
  | _ => bare
  end.

Lemma two_nodes_graph : is_graph two_nodes 0 1 (Maze.create_graph 2) [[]; []].
Proof.
  destruct (create_graph_linked bare 0%nat 1%nat 2) as (h & Hrun & Hgraph & _); try done.
  unfold two_nodes. by injection Hrun as <-.
Qed.

Lemma one_edge_graph :
  is_graph one_edge 0 1 (Maze.add_edge (Maze.create_graph 2) 0 1) [[2]; [3]]%nat.
Proof.
  destruct (add_edge_linked two_nodes 0%nat 1%nat _ _ 0 1 2%nat 3%nat two_nodes_graph)
    as (h & Hrun & Hgraph & _); try done.
  unfold one_edge. by injection Hrun as <-.
Qed.

End linked_graph.

(** X21.  [create_graph] with both allocations granted leaves a [Graph]
    record for [num_nodes] nodes whose array holds [num_nodes] empty lists,
    the graph [Maze.create_graph] gives, and writes nothing else; if either
    allocation fails the program exits. *)
Theorem create_graph_allocates (h : LinkedGraph.heap) (graph lists : nat) (n : Z) :
  0 ≤ n →
  h graph = None →
  h lists = None →
  graph ≠ lists →
  (∃ h', LinkedGraph.create_graph (Some graph) (Some lists) h n
         = LinkedGraph.Done (h', graph)
         ∧ LinkedGraph.is_graph h' graph lists (Maze.create_graph n)
             (replicate (Z.to_nat n) [])
         ∧ ∀ l, l ≠ graph → l ≠ lists → h' l = h l)
  ∧ LinkedGraph.create_graph (Some graph) None h n = LinkedGraph.Exited
  ∧ ∀ new_lists, LinkedGraph.create_graph None new_lists h n = LinkedGraph.Exited.
Proof.
  intros Hn Hg Hl Hne. split; [by apply create_graph_linked |]. by split.
Qed.

Lemma create_graph_allocates_witness :
  (∃ h', LinkedGraph.create_graph (Some 0%nat) (Some 1%nat) bare 2
         = LinkedGraph.Done (h', 0%nat)
         ∧ LinkedGraph.is_graph h' 0 1 (Maze.create_graph 2) (replicate (Z.to_nat 2) [])
         ∧ ∀ l, l ≠ 0%nat → l ≠ 1%nat → h' l = bare l)
  ∧ LinkedGraph.create_graph (Some 0%nat) None bare 2 = LinkedGraph.Exited
  ∧ ∀ new_lists, LinkedGraph.create_graph None new_lists bare 2 = LinkedGraph.Exited.
Proof.
  apply (create_graph_allocates bare 0 1 2); [lia | reflexivity | reflexivity | lia].
Defined.

(** X22.  [add_edge] on a stored graph, for two of its nodes and with two
    list nodes that [malloc] just returned, leaves the graph that
    [Maze.add_edge] gives: the first new node, holding [dest], heads the
    list of [src], and then the second, holding [src], heads the list of
    [dest]; the nodes already there and everything outside the graph are
    not written. *)
Theorem add_edge_links_both_heads (h : LinkedGraph.heap) (graph lists : nat)
    (G : Maze.Graph) (lss : list (list nat)) (src dest : Z) (n1 n2 : nat) :
  LinkedGraph.is_graph h graph lists G lss →
  in_range (Maze.adj_lists G) src →
  in_range (Maze.adj_lists G) dest →
  h n1 = None →
  h n2 = None →
  n1 ≠ n2 →
  ∃ h', LinkedGraph.add_edge (Some n1) (Some n2) h graph src dest = LinkedGraph.Done h'
        ∧ LinkedGraph.is_graph h' graph lists (Maze.add_edge G src dest)
            (wr (wr lss src (n1 :: rd [] lss src)) dest
                (n2 :: rd [] (wr lss src (n1 :: rd [] lss src)) dest))
        ∧ ∀ l, l ≠ n1 → l ≠ n2 → l ≠ lists → h' l = h l.
Proof. apply add_edge_linked. Qed.

Lemma add_edge_links_both_heads_witness :
  ∃ h', LinkedGraph.add_edge (Some 2%nat) (Some 3%nat) two_nodes 0 0 1 = LinkedGraph.Done h'
        ∧ LinkedGraph.is_graph h' 0 1 (Maze.add_edge (Maze.create_graph 2) 0 1)
            (wr (wr [[]; []] 0 (2%nat :: rd [] [[]; []] 0)) 1
                (3%nat :: rd [] (wr [[]; []] 0 (2%nat :: rd [] [[]; []] 0)) 1))
        ∧ ∀ l, l ≠ 2%nat → l ≠ 3%nat → l ≠ 1%nat → h' l = two_nodes l.
Proof.
  apply (add_edge_links_both_heads two_nodes 0 1 (Maze.create_graph 2) [[]; []] 0 1 2 3).
  - exact two_nodes_graph.
  - by vm_compute.
  - by vm_compute.
  - reflexivity.
  - reflexivity.
  - lia.
Defined.

(** X23.  [free_graph] on a stored graph returns, once its inner loop is
    given as many turns as the graph has list nodes, with the record, the
    array and every list node freed and every other address left as it
    was; on [NULL] it returns at once and changes nothing. *)
Theorem free_graph_releases (h : LinkedGraph.heap) (graph lists : nat)
    (G : Maze.Graph) (lss : list (list nat)) (fuel : nat) :
  LinkedGraph.is_graph h graph lists G lss →
  (length (concat lss) ≤ fuel)%nat →
  (∃ h', LinkedGraph.free_graph fuel h (Some graph) = Some (LinkedGraph.Done h')
         ∧ h' graph = None ∧ h' lists = None
         ∧ (∀ l, l ∈ concat lss → h' l = None)
         ∧ (∀ l, l ≠ graph → l ≠ lists → l ∉ concat lss → h' l = h l))
  ∧ LinkedGraph.free_graph fuel h None = Some (LinkedGraph.Done h).
Proof. intros Hgraph Hfuel. split; [by eapply free_graph_linked | done]. Qed.

Lemma free_graph_releases_witness :
  (∃ h', LinkedGraph.free_graph 2 one_edge (Some 0%nat) = Some (LinkedGraph.Done h')
         ∧ h' 0%nat = None ∧ h' 1%nat = None
         ∧ (∀ l, l ∈ concat [[2]; [3]]%nat → h' l = None)
         ∧ (∀ l, l ≠ 0%nat → l ≠ 1%nat → l ∉ concat [[2]; [3]]%nat → h' l = one_edge l))
  ∧ LinkedGraph.free_graph 2 one_edge None = Some (LinkedGraph.Done one_edge).
Proof.
  apply (free_graph_releases one_edge 0 1 (Maze.add_edge (Maze.create_graph 2) 0 1)
           [[2]; [3]]%nat 2).
  - exact one_edge_graph.
  - simpl. lia.
Defined.
